(** * CINN op-lowering utilities: a shallow embedding of
    [cinn/hlir/framework/op_lowering_util.cc] and the properties of its
    ordering, inlining, reduction-planning, loop-merging and
    synchronisation helpers. *)

From Stdlib Require Import ZArith Lia Bool.
From stdpp Require Import base list strings gmap sorting pretty.

Local Open Scope Z_scope.

(* ===================================================================== *)
(** * Part I: the model                                                   *)
(* ===================================================================== *)

(** ** Machine integers

    [int] is a 32-bit two's complement integer; arithmetic results are
    reduced with [wrap].  [size_t] is a 64-bit unsigned integer; a mixed
    comparison [int < size_t] first converts the [int] with [size_t_of]. *)

Definition int_min : Z := - 2 ^ 31.
Definition int_max : Z := 2 ^ 31 - 1.
Definition is_int (z : Z) : Prop := int_min <= z <= int_max.

Definition wrap (z : Z) : Z := (z + 2 ^ 31) mod 2 ^ 32 - 2 ^ 31.
Definition size_t_of (z : Z) : Z := z mod 2 ^ 64.

(** [vector::size()] of a list, as a mathematical integer. *)
Definition vsize {A} (l : list A) : Z := Z.of_nat (length l).

(** [v[i]] for an [int] index; [None] is an access outside the vector. *)
Definition at_ {A} (l : list A) (i : Z) : option A :=
  if i <? 0 then None else l !! Z.to_nat i.

(** [std::accumulate(s.begin(), s.end(), 1, std::multiplies<int>())]. *)
Definition accumulate_mul (s : list Z) : Z :=
  fold_left (fun acc d => wrap (acc * d)) s 1.

(** The loop [for (int idx = start; idx < shape.size(); ++idx) acc *= shape[idx];].
    The guard compares in [size_t], so a negative [start] runs no iteration;
    otherwise the loop multiplies the elements from position [start] on. *)
Definition mul_from (shape : list Z) (start : Z) (acc : Z) : Z :=
  if size_t_of start <? vsize shape
  then fold_left (fun a d => wrap (a * d)) (drop (Z.to_nat start) shape) acc
  else acc.

(** [a / b] and [a % b] on [int]: truncated division. *)
Definition int_div (a b : Z) : option Z :=
  if b =? 0 then None else Some (wrap (Z.quot a b)).
Definition int_rem (a b : Z) : option Z :=
  if b =? 0 then None else Some (Z.rem a b).

(** The exact product of a shape, used to phrase element counts. *)
Definition product (s : list Z) : Z := fold_right Z.mul 1 s.

(** ** [WithoutLastDimInReduce] *)

Definition WithoutLastDimInReduce (shape axes : list Z) : bool :=
  if bool_decide (axes = []) then false
  else if existsb (fun a => size_t_of a =? size_t_of (vsize shape - 1)) axes
          || existsb (fun a => a =? -1) axes
  then false
  else
    let sum_last_axes := mul_from shape (wrap (List.last axes 0 + 1)) 1 in
    if sum_last_axes >? 1 then true else false.

(** ** Failures

    [LOG(FATAL)] and a failed [CHECK] abort the process; an access outside
    a vector, [back()] of an empty vector, [find(k)->second] on a missing
    key and a division by zero are undefined behaviour and are treated as
    aborts too.  [OutOfFuel]
    is not a behaviour of the program: it marks a model loop that was given
    too few iterations. *)

Inductive Error :=
  | LogFatal (msg : string)
  | CheckFailed (what : string)
  | OutOfRange (what : string)
  | DivideByZero
  | OutOfFuel.

Inductive Outcome (A : Type) :=
  | Done (a : A)
  | Abort (e : Error).
Arguments Done {A} a.
Arguments Abort {A} e.

Definition obind {A B} (m : Outcome A) (k : A -> Outcome B) : Outcome B :=
  match m with
  | Done a => k a
  | Abort e => Abort e
  end.

Definition orequire {A} (what : string) (o : option A) : Outcome A :=
  match o with
  | Some a => Done a
  | None => Abort (OutOfRange what)
  end.

Notation "'let*' x ':=' m 'in' k" := (obind m (fun x => k))
  (at level 10, x name, m at level 100, k at level 200,
   format "'[v' 'let*'  x  ':='  m  'in' '/' k ']'").

(** ** The operator graph

    Operator nodes ([Node*]) and data nodes ([NodeData*]) are identified by
    their [id()] strings.  Every operator node has at least one output data
    node, so [GetNodeData] (the sink of the first out-link) is total. *)

(** Modelled from the spec: the [OpPatternKind] enumeration, whose
    declaration lies outside this file (section 3, "pattern kind"). *)
Inductive OpPatternKind :=
  | kElementWise
  | kBroadcast
  | kInjective
  | kReduction
  | kOutFusible
  | kNonFusible.

Global Instance OpPatternKind_eq_dec : EqDecision OpPatternKind.
Proof. solve_decision. Defined.

Record Graph := {
  GetNodeData : string -> string;
  data_outlinks : string -> list string;
  inlinks_in_order : string -> list string;
  source_node : string -> option string;
  op_name : string -> string;
  op_pattern_dict : string -> OpPatternKind;
  attr_dim : string -> list Z;
}.

Definition is_reduction (g : Graph) (node : string) : bool :=
  bool_decide (op_pattern_dict g node = kReduction).

Definition GetConsumers (g : Graph) (node : string) : list string :=
  data_outlinks g (GetNodeData g node).

Definition GetConsumersInSet (g : Graph) (node : string)
    (node_set : gset string) : list string :=
  List.filter (fun c => bool_decide (c ∈ node_set)) (GetConsumers g node).

Definition GetProducers (g : Graph) (node : string) : list string :=
  omap (source_node g) (inlinks_in_order g node).

Definition GetProducersInSet (g : Graph) (node : string)
    (node_set : gset string) : list string :=
  List.filter (fun p => bool_decide (p ∈ node_set)) (GetProducers g node).

Definition IsConstOp (g : Graph) (node : string) : bool :=
  bool_decide (op_name g node ∈ ["const_scalar"; "fill_constant"; "arange"]).

Definition GetInputShape (g : Graph) (node : string)
    (shape_dict : gmap string (list Z)) : Outcome (list Z) :=
  match GetProducers g node with
  | [] => Abort (CheckFailed "producers.size()")
  | front :: _ => orequire "shape_dict.at" (shape_dict !! GetNodeData g front)
  end.

Definition GetOutputShape (g : Graph) (node : string)
    (shape_dict : gmap string (list Z)) : Outcome (list Z) :=
  orequire "shape_dict.at" (shape_dict !! GetNodeData g node).

(** ** [FindReducerInRoute]

    The queue is a list, front first.  [route_visit] is the inner [for] over
    the visitor's result: it returns at the first reduction and pushes every
    node before it.  One unit of fuel is one iteration of the [while]. *)

Definition Visitor := Graph -> string -> gset string -> list string.

Fixpoint route_visit (g : Graph) (cs : list string) (candidates : list string)
    : string + list string :=
  match cs with
  | [] => inr candidates
  | consumer :: cs' =>
      if is_reduction g consumer then inl consumer
      else route_visit g cs' (candidates ++ [consumer])
  end.

Fixpoint route_loop (fuel : nat) (g : Graph) (nodes_set : gset string)
    (visitor : Visitor) (candidates : list string) : option (option string) :=
  match fuel with
  | O => None
  | S fuel' =>
      match candidates with
      | [] => Some None
      | candidate :: rest =>
          match route_visit g (visitor g candidate nodes_set) rest with
          | inl reducer => Some (Some reducer)
          | inr candidates' => route_loop fuel' g nodes_set visitor candidates'
          end
      end
  end.

Definition FindReducerInRoute (fuel : nat) (g : Graph) (node : string)
    (nodes_set : gset string) (visitor : Visitor) : Outcome (option string) :=
  match route_loop fuel g nodes_set visitor [node] with
  | Some r => Done r
  | None => Abort OutOfFuel
  end.

(** ** [FindConsumers] and [TopologicalOrder]

    [tmp_node_set] is a [std::set] ordered by [NodeCompare], that is by
    [id()]; it is the sorted list of the elements of [nodes_set]. *)

Definition NodeCompare_le (lhs rhs : string) : Prop := String.leb lhs rhs = true.

Global Instance NodeCompare_le_dec : RelDecision NodeCompare_le.
Proof. intros lhs rhs. unfold NodeCompare_le. apply _. Defined.

Definition FindConsumers (g : Graph) (node : string) (nodes_set : gset string)
    (virtual_consumers : gmap string string) : list string :=
  GetConsumersInSet g node nodes_set ++
  match virtual_consumers !! node with
  | Some c => [c]
  | None => []
  end.

(** The [for] over [tmp_node_set]: the state is [nodes_set] and
    [nodes_in_order]. *)
Fixpoint topo_sweep (g : Graph) (virtual_consumers : gmap string string)
    (tmp_node_set : list string) (nodes_set : gset string)
    (nodes_in_order : list string) : gset string * list string :=
  match tmp_node_set with
  | [] => (nodes_set, nodes_in_order)
  | node :: rest =>
      let consumers := FindConsumers g node nodes_set virtual_consumers in
      let cant_be_erase :=
        existsb (fun consumer => bool_decide (consumer ∈ nodes_set)) consumers in
      if cant_be_erase
      then topo_sweep g virtual_consumers rest nodes_set nodes_in_order
      else topo_sweep g virtual_consumers rest
             (nodes_set ∖ {[node]}) (nodes_in_order ++ [node])
  end.

(** The [while (!nodes_set.empty())]; one unit of fuel is one sweep. *)
Fixpoint topo_loop (fuel : nat) (g : Graph)
    (virtual_consumers : gmap string string)
    (nodes_set : gset string) (nodes_in_order : list string)
    : option (list string) :=
  if decide (nodes_set = ∅) then Some nodes_in_order
  else
    match fuel with
    | O => None
    | S fuel' =>
        let tmp_node_set := merge_sort NodeCompare_le (elements nodes_set) in
        let '(nodes_set', nodes_in_order') :=
          topo_sweep g virtual_consumers tmp_node_set nodes_set nodes_in_order in
        topo_loop fuel' g virtual_consumers nodes_set' nodes_in_order'
    end.

Definition TopologicalOrder (fuel : nat) (g : Graph) (group : gset string)
    (virtual_consumers : gmap string string) : option (list string) :=
  topo_loop fuel g virtual_consumers group [].

(** A real or virtual producer-to-consumer edge, as [FindConsumers] sees it. *)
Definition edge (g : Graph) (vc : gmap string string) (p c : string) : Prop :=
  c ∈ GetConsumers g p \/ vc !! p = Some c.

Definition consumers_first (g : Graph) (vc : gmap string string)
    (group : gset string) (order : list string) : Prop :=
  forall j p c, order !! j = Some p -> c ∈ group -> edge g vc p c ->
    exists i, (i < j)%nat /\ order !! i = Some c.

Record topo_inv (g : Graph) (vc : gmap string string) (group ns : gset string)
    (order : list string) : Prop := {
  ti_sub : ns ⊆ group;
  ti_cover : forall x, x ∈ group -> x ∈ ns \/ x ∈ order;
  ti_disj : forall x, x ∈ order -> (x ∉ ns) /\ (x ∈ group);
  ti_nodup : NoDup order;
  ti_edges : consumers_first g vc group order;
}.

(** Acyclicity of a node set: every edge inside it lowers [rank]. *)
Definition ranked (g : Graph) (vc : gmap string string) (rank : string -> nat)
    (ns : gset string) : Prop :=
  forall p c, p ∈ ns -> c ∈ ns -> edge g vc p c -> (rank c < rank p)%nat.

(** ** [CanbeInline] *)

Definition CanbeInline (fuel : nat) (g : Graph) (node : string)
    (consumers : list string) (reducer : option string) (laster : string)
    (output_nodes : gset string) (nodes_set : gset string)
    (shape_dict : gmap string (list Z)) : Outcome bool :=
  (if bool_decide (node ∈ output_nodes) then Done false
   else if IsConstOp g node then Done true
   else if existsb (is_reduction g) consumers then Done false
   else if is_reduction g node then Done false
   else if vsize consumers =? 1 then Done true
   else
     match reducer with
     | Some reducer =>
         let* via_consumers := FindReducerInRoute fuel g node nodes_set GetConsumersInSet in
         match via_consumers with
         | None => Done false
         | Some _ =>
             let* via_producers := FindReducerInRoute fuel g node nodes_set GetProducersInSet in
             match via_producers with
             | Some _ => Done false
             | None =>
                 let* node_shape := GetOutputShape g node shape_dict in
                 let* input_shape := GetInputShape g reducer shape_dict in
                 if accumulate_mul node_shape =? accumulate_mul input_shape
                 then Done false
                 else Done true
             end
         end
     | None =>
         let* node_shape := GetOutputShape g node shape_dict in
         let* last_shape := GetOutputShape g laster shape_dict in
         if accumulate_mul node_shape =? accumulate_mul last_shape
         then Done false
         else Done true
     end).

(** *** The decision rules of the specification (section 4.3)

    [reaches_reducer visit n]: a Reduction node is reachable from [n] in one
    or more steps of [visit]. *)

Inductive reaches_reducer (g : Graph) (visit : string -> list string)
    : string -> Prop :=
  | reaches_here n c :
      c ∈ visit n -> op_pattern_dict g c = kReduction ->
      reaches_reducer g visit n
  | reaches_step n c :
      c ∈ visit n -> reaches_reducer g visit c ->
      reaches_reducer g visit n.

(** The node is inlined, by the ordered rules 1 to 6; the three counts are
    the element counts of the node's output, of the global reducer's input
    and of the last node's output. *)
Definition can_inline (g : Graph) (node : string) (consumers : list string)
    (reducer : option string) (output_nodes nodes_set : gset string)
    (node_count reducer_input_count last_count : Z) : Prop :=
  if decide (node ∈ output_nodes) then False
  else if decide (op_name g node ∈ ["const_scalar"; "fill_constant"; "arange"])
  then True
  else if decide (Exists (fun c => op_pattern_dict g c = kReduction) consumers)
  then False
  else if decide (op_pattern_dict g node = kReduction) then False
  else if decide (length consumers = 1%nat) then True
  else
    match reducer with
    | Some _ =>
        reaches_reducer g (fun n => GetConsumersInSet g n nodes_set) node /\
        ~ reaches_reducer g (fun n => GetProducersInSet g n nodes_set) node /\
        node_count <> reducer_input_count
    | None => node_count <> last_count
    end.

(** ** The loop-nest IR and [ir::IRSchedule]

    [IRSchedule] and the IR classes are declared outside this file.  The
    state of a schedule is the history of the mutating calls made on it, in
    execution order; what its queries return after a given history is left
    to a [ScheduleOracle], about which nothing is assumed. *)

(** An [ir::Expr] holding an [ir::For]: its identity, loop variable and
    (constant) extent. *)
Record Loop := {
  loop_ref : positive;
  loop_var : string;
  loop_extent : Z;
}.

Record Tensor := {
  tensor_name : string;
  tensor_shape : list Z;
}.

(** Handles on pieces of the IR tree that the helpers rewrite directly. *)
Inductive ExprRef :=
  | ELoop (loop : Loop)
  | EBodyOf (loop : Loop)
  | EBlock (block_name : string)
  | ERoot.

Inductive Cmd :=
  | CSplit (block_name : string) (loop_index : Z) (factors : list Z)
  | CSplitLoop (loop : Loop) (factors : list Z)
  | CFuse (block_name : string) (loops_index : list Z)
  | CFuseLoops (loops : list Loop)
  | CReorder (block_name : string) (loops_index : list Z)
  | CSetBuffer (block_name : string) (memory_type : string) (fixed : bool)
  | CSimpleComputeAt (block_name : string) (loop : Loop)
  | CSyncThreads (loops_of : string) (loop : Loop) (after_node : bool)
  | CReplaceExpr (source : ExprRef) (replaced : list string) (candidates : list string)
  | CPrependBody (dst : Loop) (src : Loop)
  | CInsertExpr (target anchor within : ExprRef)
  | CRemoveExpr (target : Loop).

Class ScheduleOracle := {
  GetLoops : list Cmd -> string -> list Loop;
  HasBlock : list Cmd -> string -> bool;
  GetAllBlocks : list Cmd -> list string;
}.

(** Computations on a schedule: the history is threaded through and is
    kept when the computation aborts. *)
Definition Sched (A : Type) : Type := list Cmd -> list Cmd * Outcome A.

Definition sret {A} (a : A) : Sched A := fun s => (s, Done a).

Definition sbind {A B} (m : Sched A) (k : A -> Sched B) : Sched B :=
  fun s =>
    match m s with
    | (s', Done a) => k a s'
    | (s', Abort e) => (s', Abort e)
    end.

Definition lift {A} (o : Outcome A) : Sched A := fun s => (s, o).
Definition abort {A} (e : Error) : Sched A := fun s => (s, Abort e).
Definition emit (c : Cmd) : Sched unit := fun s => (s ++ [c], Done tt).

Notation "'let+' x ':=' m 'in' k" := (sbind m (fun x => k))
  (at level 10, x name, m at level 100, k at level 200,
   format "'[v' 'let+'  x  ':='  m  'in' '/' k ']'").
Notation "'exec' m 'in' k" := (sbind m (fun _ => k))
  (at level 10, m at level 100, k at level 200,
   format "'[v' 'exec'  m  'in' '/' k ']'").

Fixpoint repeat_sched (n : nat) (m : Sched unit) : Sched unit :=
  match n with
  | O => sret tt
  | S n' => exec m in repeat_sched n' m
  end.

Definition checked {A} (o : option A) : Outcome A :=
  match o with
  | Some a => Done a
  | None => Abort DivideByZero
  end.

Definition back {A} (what : string) (l : list A) : Outcome A :=
  orequire what (last l).

Section schedule.
Context `{ScheduleOracle}.

Definition get_loops (block_name : string) : Sched (list Loop) :=
  fun s => (s, Done (GetLoops s block_name)).

Definition has_block (block_name : string) : Sched bool :=
  fun s => (s, Done (HasBlock s block_name)).

(** [ir_sch.SyncThreads(ir_sch.GetLoops(id).back(), false)]; the command
    records the block whose loops were fetched. *)
Definition SyncThreadsAtBack (id : string) : Sched unit :=
  let+ loops := get_loops id in
  let+ loop := lift (back "loops.back()" loops) in
  emit (CSyncThreads id loop false).

(** [ir_sch.SimpleComputeAt(ir_sch.GetBlock(block), ir_sch.GetLoops(at).back())]. *)
Definition SimpleComputeAtBack (block_name loops_of : string) : Sched unit :=
  let+ loops := get_loops loops_of in
  let+ loop := lift (back "loops.back()" loops) in
  emit (CSimpleComputeAt block_name loop).

(** ** [LoopOrderAssignReduce] *)

(** [for (int idx = max_num_threads; idx > 0; --idx)], with [idx] the
    successor of the remaining count: the factor to split by, if any. *)
Fixpoint order_split_loop (n : nat) (psize : Z) : Outcome (option Z) :=
  match n with
  | O => Done None
  | S n' =>
      let idx := Z.of_nat (S n') in
      if Z.rem psize idx =? 0 then Done (Some idx)
      else if idx >? 1 then order_split_loop n' psize
      else Abort (CheckFailed "idx > 1")
  end.

Definition LoopOrderAssignReduce (block_name : string) (axes : list Z)
    (max_num_threads : Z) (just_reorder : bool) : Sched unit :=
  let+ loops0 := get_loops block_name in
  let n_out_dims := wrap (vsize loops0) in
  let order :=
    List.filter (fun idx => negb (existsb (Z.eqb idx) axes)) (seqZ 0 n_out_dims)
    ++ axes in
  exec emit (CReorder block_name order) in
  if just_reorder then sret tt
  else
    let+ axes_back := lift (back "axes.back()" axes) in
    let last_dimension_num := wrap (n_out_dims - axes_back - 1) in
    let index := wrap (n_out_dims - last_dimension_num - vsize axes) in
    exec repeat_sched (Z.to_nat (last_dimension_num - 1))
           (emit (CFuse block_name [index; index + 1])) in
    let+ loops := get_loops block_name in
    let+ loop := lift (orequire "loops[index]" (at_ loops index)) in
    let psize := loop_extent loop in
    exec (if psize >? max_num_threads
          then
            let+ found := lift (order_split_loop (Z.to_nat max_num_threads) psize) in
            match found with
            | Some idx => emit (CSplitLoop loop [-1; idx])
            | None => sret tt
            end
          else sret tt) in
    repeat_sched (Z.to_nat (index - 1)) (emit (CFuse block_name [0; 1])).

(** ** [LoopAssignReduceWithoutLast] *)

(** The test [index + 1 < axes.size() && axes[index] != axes[index + 1] - 1];
    when it holds the result carries [axes[index + 1]]. *)
Definition axis_gap (axes : list Z) (index : Z) : Outcome (option Z) :=
  if index + 1 <? vsize axes
  then
    let* a := orequire "axes[index]" (at_ axes index) in
    let* a1 := orequire "axes[index + 1]" (at_ axes (index + 1)) in
    if a =? wrap (a1 - 1) then Done None else Done (Some a1)
  else Done None.

(** The scan [for (; index >= 0; --index)], run with [index = k - 1];
    the result is [(lane, pos, index)] when the loop is left. *)
Fixpoint without_last_scan (inshape axes : list Z) (max_num_threads : Z)
    (k : nat) (lane pos : Z) : Outcome (Z * Z * Z) :=
  match k with
  | O => Done (lane, pos, -1)
  | S k' =>
      let index := Z.of_nat k' in
      let* gap := axis_gap axes index in
      match gap with
      | Some a1 => Done (lane, a1, index)
      | None =>
          let* a := orequire "axes[index]" (at_ axes index) in
          let* d := orequire "inshape[axes[index]]" (at_ inshape a) in
          let lane := wrap (lane * d) in
          if lane >? Z.quot max_num_threads 2 then Done (lane, a, index)
          else
            let pos := if index =? 0 then a else pos in
            without_last_scan inshape axes max_num_threads k' lane pos
      end
  end.

(** [for (int idx = hi; idx > lo; --idx)] searching a divisor of [prefix];
    [n] is [idx - lo].  With [strict] the body ends in
    [CHECK_GT(idx - 1, lo)], otherwise in [CHECK_GT(idx, lo)], which the
    loop guard already grants. *)
Fixpoint factor_loop (strict : bool) (n : nat) (prefix idx lo : Z)
    : Outcome (option Z) :=
  match n with
  | O => Done None
  | S n' =>
      let* r := checked (int_rem prefix idx) in
      if r =? 0 then Done (Some idx)
      else if strict && negb (idx - 1 >? lo)
      then Abort (CheckFailed "idx - 1 > (max_num_threads / 2) / tail")
      else factor_loop strict n' prefix (idx - 1) lo
  end.

(** The block [int prefix = ...; int tail = lane / prefix; for ...] shared
    by both planners. *)
Definition split_by_factor (strict : bool) (block_name : string)
    (inshape : list Z) (axis lane max_num_threads : Z) : Sched unit :=
  let+ prefix := lift (orequire "inshape[axis]" (at_ inshape axis)) in
  let+ tail := lift (checked (int_div lane prefix)) in
  let+ hi := lift (checked (int_div max_num_threads tail)) in
  let+ lo := lift (checked (int_div (Z.quot max_num_threads 2) tail)) in
  let+ found := lift (factor_loop strict (Z.to_nat (hi - lo)) prefix hi lo) in
  match found with
  | Some idx => emit (CSplit block_name axis [-1; idx])
  | None => sret tt
  end.

(** The closing loop of [LoopAssignReduceWithoutLast]. *)
Fixpoint fuse_unit_loops (n : nat) (block_name : string) (start_index : Z)
    : Sched unit :=
  match n with
  | O => sret tt
  | S n' =>
      let+ loops := get_loops block_name in
      let+ loop := lift (orequire "loops[start_index]" (at_ loops start_index)) in
      if loop_extent loop =? 1
      then
        let+ prev := lift (orequire "loops[start_index - 1]"
                             (at_ loops (start_index - 1))) in
        exec emit (CFuseLoops [prev; loop]) in
        fuse_unit_loops n' block_name start_index
      else fuse_unit_loops n' block_name (wrap (start_index + 1))
  end.

Definition LoopAssignReduceWithoutLast (block_name : string)
    (inshape axes : list Z) (max_num_threads : Z) : Sched unit :=
  if vsize axes =? 0 then abort (CheckFailed "axes.size()")
  else
    let+ axes_back := lift (back "axes.back()" axes) in
    let lane := mul_from inshape (wrap (axes_back + 1)) 1 in
    if negb (lane <=? Z.quot max_num_threads 2)
    then abort (CheckFailed "lane <= max_num_threads / 2")
    else
      let+ scanned :=
        lift (without_last_scan inshape axes max_num_threads (length axes) lane 0) in
      let '(lane, pos, index) := scanned in
      exec (if lane >? Z.quot max_num_threads 2
            then
              let+ axis := lift (orequire "axes[index]" (at_ axes index)) in
              split_by_factor true block_name inshape axis lane max_num_threads
            else sret tt) in
      exec repeat_sched (Z.to_nat (vsize axes - 1 - index))
             (let+ loops := get_loops block_name in
              let+ loop := lift (orequire "loops[pos]" (at_ loops pos)) in
              emit (CSplit block_name pos [-1; loop_extent loop])) in
      exec LoopOrderAssignReduce block_name axes max_num_threads false in
      let+ loops := get_loops block_name in
      let start_index := wrap (vsize loops - vsize axes) in
      fuse_unit_loops (length axes) block_name start_index.

(** ** [LoopAssignReduceWithLast] *)

Definition lane_fatal : Error :=
  LogFatal "Error! lane is less equal than max_num_threads, Please check!".

(** The scan [for (; index >= 0; --index)], run with [index = k - 1]; the
    result is [(lane, index)] when the loop is left. *)
Fixpoint with_last_scan (inshape axes : list Z) (max_num_threads : Z)
    (k : nat) (lane : Z) : Outcome (Z * Z) :=
  match k with
  | O => Done (lane, -1)
  | S k' =>
      let index := Z.of_nat k' in
      let* gap := axis_gap axes index in
      match gap with
      | Some _ => Done (lane, index)
      | None =>
          let* a := orequire "axes[index]" (at_ axes index) in
          let* d := orequire "inshape[axes[index]]" (at_ inshape a) in
          let lane := wrap (lane * d) in
          if (index =? 0) && (lane <=? max_num_threads)
          then Abort lane_fatal
          else if lane >=? Z.quot max_num_threads 2
          then Done (lane, if lane <=? max_num_threads then index - 1 else index)
          else with_last_scan inshape axes max_num_threads k' lane
      end
  end.

(** [do { if (lane % idx == 0) ...break; --idx; } while (idx >= half)]:
    the divisor found, or [None] when the loop runs out ([idx < half]);
    [n] bounds the remaining decrements.  The [CHECK_GE(idx, half)] that
    follows the loop is made by the caller. *)
Fixpoint with_last_split_loop (n : nat) (lane idx half : Z) {struct n}
    : Outcome (option Z) :=
  let* r := checked (int_rem lane idx) in
  if r =? 0 then Done (Some idx)
  else
    match n with
    | O => Done None
    | S n' =>
        if idx - 1 >=? half then with_last_split_loop n' lane (idx - 1) half
        else Done None
    end.

Definition LoopAssignReduceWithLast (block_name : string)
    (inshape axes : list Z) (max_num_threads : Z) : Sched unit :=
  let+ scanned :=
    lift (with_last_scan inshape axes max_num_threads (length axes) 1) in
  let '(lane, index) := scanned in
  let first_axes := take (Z.to_nat (index + 1)) axes in
  if lane >? max_num_threads
  then
    exec (if index =? vsize axes - 1
          then
            let half := Z.quot max_num_threads 2 in
            let+ found :=
              lift (with_last_split_loop (Z.to_nat (max_num_threads - half))
                      lane max_num_threads half) in
            match found with
            | Some idx =>
                let+ axis := lift (orequire "axes[index]" (at_ axes index)) in
                exec emit (CSplit block_name axis [-1; idx]) in
                if idx >=? half then sret tt
                else abort (CheckFailed "idx >= max_num_threads / 2")
            | None => abort (CheckFailed "idx >= max_num_threads / 2")
            end
          else
            let+ axis := lift (orequire "axes[index]" (at_ axes index)) in
            split_by_factor false block_name inshape axis lane max_num_threads) in
    LoopOrderAssignReduce block_name first_axes max_num_threads false
  else
    let fuse_times := wrap (vsize axes - (index + 1) - 1) in
    exec repeat_sched (Z.to_nat fuse_times)
           (let+ a := lift (orequire "axes[index + 1]" (at_ axes (index + 1))) in
            emit (CFuse block_name [a; a + 1])) in
    exec LoopOrderAssignReduce block_name first_axes max_num_threads true in
    repeat_sched (Z.to_nat (wrap (vsize inshape - vsize axes) - 1))
      (emit (CFuse block_name [0; 1])).

(** ** [MergeLoops] *)

Definition MergeLoops (src dst : list Loop) (index : Z) : Sched unit :=
  if index <? 0 then sret tt
  else if negb (vsize src >? index) then abort (CheckFailed "src.size() > index")
  else if negb (vsize dst >? index) then abort (CheckFailed "dst.size() > index")
  else
    let+ src0 := lift (orequire "src[0]" (at_ src 0)) in
    let+ dst0 := lift (orequire "dst[0]" (at_ dst 0)) in
    if bool_decide (loop_ref src0 = loop_ref dst0) then sret tt
    else
      let src_vars := loop_var <$> take (Z.to_nat (index + 1)) src in
      let dst_vars := loop_var <$> take (Z.to_nat (index + 1)) dst in
      let+ src_at := lift (orequire "src[index]" (at_ src index)) in
      let+ dst_at := lift (orequire "dst[index]" (at_ dst index)) in
      exec emit (CReplaceExpr (EBodyOf src_at) src_vars dst_vars) in
      exec emit (CPrependBody dst_at src_at) in
      emit (CRemoveExpr src0).

(** ** Shapes and axes of a reduction node *)

(** [CHECK(shape_dict.count(id)); shape_dict.at(id)] for the source of the
    node's first in-link. *)
Definition input_shape_checked (g : Graph) (node : string)
    (shape_dict : gmap string (list Z)) : Outcome (list Z) :=
  let* source := orequire "inlinks_in_order()[0]" (inlinks_in_order g node !! 0%nat) in
  match shape_dict !! source with
  | Some shape => Done shape
  | None => Abort (CheckFailed "shape_dict.count(...)")
  end.

(** The same look-up without the [CHECK]. *)
Definition input_shape_at (g : Graph) (node : string)
    (shape_dict : gmap string (list Z)) : Outcome (list Z) :=
  let* source := orequire "inlinks_in_order()[0]" (inlinks_in_order g node !! 0%nat) in
  orequire "shape_dict.at" (shape_dict !! source).

(** The ["dim"] attribute, with the empty list standing for all axes. *)
Definition reduce_axes (g : Graph) (node : string) (shape : list Z) : list Z :=
  match attr_dim g node with
  | [] => seqZ 0 (vsize shape)
  | axes => axes
  end.

Definition find_tensor (tensor_map : gmap string Tensor) (key : string)
    : Sched Tensor :=
  lift (orequire "tensor_map.find(...)->second" (tensor_map !! key)).

(** ** [InsertSyncThread] *)

Fixpoint InsertSyncThread_loop (fuel : nat) (node_id : string)
    (tensor_map : gmap string Tensor) (idx : Z) (post : string) : Sched unit :=
  match fuel with
  | O => abort OutOfFuel
  | S fuel' =>
      match tensor_map !! (node_id +:+ post) with
      | None => sret tt
      | Some tensor =>
          let+ present := has_block (tensor_name tensor) in
          if negb present then sret tt
          else
            let post := "_" +:+ pretty idx in
            if idx >? 0 then SyncThreadsAtBack node_id
            else InsertSyncThread_loop fuel' node_id tensor_map (idx + 1) post
      end
  end.

(** The loop returns in its second iteration at the latest. *)
Definition InsertSyncThread (g : Graph) (node : string)
    (shape_dict : gmap string (list Z)) (tensor_map : gmap string Tensor)
    : Sched unit :=
  let+ shape := lift (input_shape_checked g node shape_dict) in
  let axes := reduce_axes g node shape in
  if negb (WithoutLastDimInReduce shape axes) then sret tt
  else InsertSyncThread_loop 2 (GetNodeData g node) tensor_map 0 "".

(** ** [MergeReduceToReduce] *)

(** [for (idx = 0; idx < count; ++idx)] collecting the loop variables of
    [n_loops[idx]] and [m_loops[idx]]. *)
Fixpoint collect_vars (idxs : list Z) (n_loops m_loops : list Loop)
    : Outcome (list string * list string) :=
  match idxs with
  | [] => Done ([], [])
  | idx :: rest =>
      let* n := orequire "n_loops[idx]" (at_ n_loops idx) in
      let* m := orequire "m_loops[idx]" (at_ m_loops idx) in
      let* vars := collect_vars rest n_loops m_loops in
      Done (loop_var n :: vars.1, loop_var m :: vars.2)
  end.

(** The iterations of [for (idx = 0; idx < bound; ++idx)] whose body reads
    [m_loops[idx]]: an iteration past the end of [m_loops] aborts, so none
    after it is listed. *)
Definition loop_indices (bound : Z) (m_loops : list Loop) : list Z :=
  seqZ 0 (Z.min (size_t_of bound) (vsize m_loops + 1)).

(** [for (idx = 0; idx < mloops.size(); ++idx)
      if (extent(nloops[idx]) != extent(mloops[idx])) { ...mloops[idx - 1]; break; }] *)
Fixpoint first_mismatch (idxs : list Z) (nloops mloops : list Loop)
    : Outcome (option Loop) :=
  match idxs with
  | [] => Done None
  | idx :: rest =>
      let* n := orequire "nloops[idx]" (at_ nloops idx) in
      let* m := orequire "mloops[idx]" (at_ mloops idx) in
      if loop_extent n =? loop_extent m then first_mismatch rest nloops mloops
      else
        let* target := orequire "mloops[idx - 1]" (at_ mloops (idx - 1)) in
        Done (Some target)
  end.

Definition MergeReduceToReduce (g : Graph) (node master : string)
    (shape_dict : gmap string (list Z)) (tensor_map : gmap string Tensor)
    : Sched unit :=
  let node_id := GetNodeData g node in
  let master_id := GetNodeData g master in
  let+ shape := lift (input_shape_checked g node shape_dict) in
  let axes := reduce_axes g node shape in
  if WithoutLastDimInReduce shape axes
  then
    let+ mshape := lift (input_shape_at g master shape_dict) in
    if bool_decide (is_Some (tensor_map !! (node_id +:+ "_1")))
    then
      if bool_decide (shape = mshape)
      then
        exec SimpleComputeAtBack node_id master_id in
        let+ n_tensor := find_tensor tensor_map (node_id +:+ "_0") in
        let+ m_tensor := find_tensor tensor_map (master_id +:+ "_0") in
        exec SimpleComputeAtBack (tensor_name n_tensor) (tensor_name m_tensor) in
        SimpleComputeAtBack (tensor_name n_tensor +:+ "__reduce_init")
          (tensor_name m_tensor +:+ "__reduce_init")
      else
        let+ n_tensor := find_tensor tensor_map (node_id +:+ "_0") in
        let+ m_tensor := find_tensor tensor_map (master_id +:+ "_0") in
        let+ n_back := lift (back "shape.back()" (tensor_shape n_tensor)) in
        let+ m_back := lift (back "shape.back()" (tensor_shape m_tensor)) in
        if n_back =? m_back
        then
          exec SimpleComputeAtBack node_id master_id in
          let+ n_loops := get_loops (tensor_name n_tensor) in
          let+ m_loops := get_loops (tensor_name m_tensor) in
          let+ vars := lift (collect_vars (loop_indices (vsize m_loops - 1) m_loops)
                               n_loops m_loops) in
          exec emit (CReplaceExpr (EBlock (tensor_name n_tensor)) vars.1 vars.2) in
          let index := wrap (vsize n_loops) in
          let+ n_last := lift (orequire "n_loops[index - 1]" (at_ n_loops (index - 1))) in
          let+ m_last := lift (orequire "m_loops[index - 1]" (at_ m_loops (index - 1))) in
          let+ m_first := lift (orequire "m_loops[0]" (at_ m_loops 0)) in
          exec emit (CInsertExpr (ELoop n_last) (ELoop m_last) (ELoop m_first)) in
          exec SimpleComputeAtBack (tensor_name n_tensor +:+ "__reduce_init")
                 (tensor_name m_tensor +:+ "__reduce_init") in
          let+ n_first := lift (orequire "n_loops[0]" (at_ n_loops 0)) in
          emit (CRemoveExpr n_first)
        else
          exec SimpleComputeAtBack node_id master_id in
          let+ n_loops := get_loops (tensor_name n_tensor) in
          let+ m_loops := get_loops (tensor_name m_tensor) in
          MergeLoops n_loops m_loops 0
    else
      if bool_decide (shape = mshape)
      then
        exec SimpleComputeAtBack node_id master_id in
        SimpleComputeAtBack (node_id +:+ "__reduce_init")
          (master_id +:+ "__reduce_init")
      else
        let+ nloops := get_loops node_id in
        let+ mloops := get_loops master_id in
        let+ target := lift (first_mismatch (seqZ 0 (vsize mloops)) nloops mloops) in
        exec (match target with
              | Some loop => emit (CSimpleComputeAt node_id loop)
              | None => sret tt
              end) in
        SimpleComputeAtBack (node_id +:+ "__reduce_init")
          (master_id +:+ "__reduce_init")
  else
    if bool_decide (is_Some (tensor_map !! (node_id +:+ "_1")))
    then
      exec SimpleComputeAtBack node_id master_id in
      let+ n_tensor1 := find_tensor tensor_map (node_id +:+ "_1") in
      let+ m_tensor1 := find_tensor tensor_map (master_id +:+ "_1") in
      exec SimpleComputeAtBack (tensor_name n_tensor1) (tensor_name m_tensor1) in
      exec SimpleComputeAtBack (tensor_name n_tensor1 +:+ "__reduce_init")
             (tensor_name m_tensor1 +:+ "__reduce_init") in
      let+ n_tensor := find_tensor tensor_map (node_id +:+ "_0") in
      let+ m_tensor := find_tensor tensor_map (master_id +:+ "_0") in
      let+ n_loops := get_loops (tensor_name n_tensor) in
      let+ m_loops := get_loops (tensor_name m_tensor) in
      let+ vars := lift (collect_vars (loop_indices (vsize m_loops) m_loops)
                           n_loops m_loops) in
      exec emit (CReplaceExpr (EBlock (tensor_name n_tensor)) vars.1 vars.2) in
      let+ m_last := lift (back "m_loops.back()" m_loops) in
      exec emit (CInsertExpr (EBlock (tensor_name n_tensor))
                   (EBlock (tensor_name m_tensor)) (ELoop m_last)) in
      let+ n_first := lift (orequire "n_loops[0]" (at_ n_loops 0)) in
      emit (CRemoveExpr n_first)
    else if bool_decide (is_Some (tensor_map !! (node_id +:+ "_0")))
    then
      exec SimpleComputeAtBack node_id master_id in
      let+ n_tensor := find_tensor tensor_map (node_id +:+ "_0") in
      let+ m_tensor := find_tensor tensor_map (master_id +:+ "_0") in
      SimpleComputeAtBack (tensor_name n_tensor) (tensor_name m_tensor)
    else abort (LogFatal "Error! Unkown Reduce Type, Please Check!").

(** ** [MergeReduceLoop] *)

(** [while (src[index + 1].extent == dst[index + 1].extent)
      { ++index; if (src.size() == index + 1 || dst.size() == index + 1) break; }];
    one unit of fuel is one re-entry of the loop, and [src] has no more
    positions than that. *)
Fixpoint stage_match (n : nat) (src dst : list Loop) (index : Z) : Outcome Z :=
  let* s := orequire "src_loops[index + 1]" (at_ src (index + 1)) in
  let* d := orequire "dst_loops[index + 1]" (at_ dst (index + 1)) in
  if loop_extent s =? loop_extent d
  then
    let index := index + 1 in
    if (vsize src =? index + 1) || (vsize dst =? index + 1) then Done index
    else
      match n with
      | O => Abort OutOfFuel
      | S n' => stage_match n' src dst index
      end
  else Done index.

(** The [for (int idx = 0;; ++idx)] over the staged tensors; it yields
    [min_index_loop]. *)
Fixpoint merge_stages (fuel : nat) (node_id : string)
    (tensor_map : gmap string Tensor) (idx : Z) (post_ post__ : string)
    (min_index_loop : Z) : Sched Z :=
  match fuel with
  | O => abort OutOfFuel
  | S fuel' =>
      match tensor_map !! (node_id +:+ post__) with
      | None => sret min_index_loop
      | Some tensor__ =>
          let+ tensor_ := find_tensor tensor_map (node_id +:+ post_) in
          let+ present := has_block (tensor_name tensor__) in
          if negb present then sret min_index_loop
          else
            let+ dst_loops := get_loops (tensor_name tensor_) in
            let+ src_loops := get_loops (tensor_name tensor__) in
            let+ index := lift (stage_match (length src_loops) src_loops dst_loops (-1)) in
            let min_index_loop := Z.min min_index_loop index in
            exec MergeLoops src_loops dst_loops index in
            merge_stages fuel' node_id tensor_map (idx + 1)
              ("_" +:+ pretty idx) ("_" +:+ pretty (idx + 1)) min_index_loop
      end
  end.

(** The closing [do { ... } while (--index >= 0)], entered with
    [index = k]. *)
Fixpoint reduce_attach_scan (k : nat) (node_id master_id : string)
    (node_loops master_loops : list Loop) (min_index_loop : Z) : Sched unit :=
  let index := Z.of_nat k in
  let+ n := lift (orequire "node_loops[index]" (at_ node_loops index)) in
  let+ m := lift (orequire "master_loops[index]" (at_ master_loops index)) in
  if negb (loop_extent n =? loop_extent m)
  then
    match k with
    | O => sret tt
    | S k' => reduce_attach_scan k' node_id master_id node_loops master_loops
                min_index_loop
    end
  else
    exec MergeLoops node_loops master_loops (Z.min index min_index_loop) in
    if index >? min_index_loop then SimpleComputeAtBack node_id master_id
    else sret tt.

Definition MergeReduceLoop (fuel : nat) (g : Graph) (node master : string)
    (shape_dict : gmap string (list Z)) (tensor_map : gmap string Tensor)
    : Sched unit :=
  if is_reduction g master && negb (bool_decide (node = master))
  then MergeReduceToReduce g node master shape_dict tensor_map
  else
    let node_id := GetNodeData g node in
    let master_id := GetNodeData g master in
    let+ min_index_loop :=
      merge_stages fuel node_id tensor_map 0 "" "_0" int_max in
    exec InsertSyncThread g node shape_dict tensor_map in
    if bool_decide (node = master) then sret tt
    else
      let+ node_loops := get_loops node_id in
      let+ master_loops := get_loops master_id in
      let index := wrap (Z.min (vsize node_loops) (vsize master_loops) - 1) in
      if index <? 0 then abort (OutOfRange "node_loops[index]")
      else reduce_attach_scan (Z.to_nat index) node_id master_id
             node_loops master_loops min_index_loop.

(** ** [LoopComputeAt] *)

(** The [for (int idx = 0;; ++idx)] that finds the deepest staged tensor of
    a Reduction master; it yields [prefix]. *)
Fixpoint real_master_prefix (fuel : nat) (master_id : string)
    (tensor_map : gmap string Tensor) (idx : Z) (prefix post : string)
    : Sched string :=
  match fuel with
  | O => abort OutOfFuel
  | S fuel' =>
      match tensor_map !! (master_id +:+ post) with
      | None => sret prefix
      | Some tensor =>
          let+ present := has_block (tensor_name tensor) in
          if negb present then sret prefix
          else real_master_prefix fuel' master_id tensor_map (idx + 1)
                 post ("_" +:+ pretty idx)
      end
  end.

(** The loops of the master that the node is attached to. *)
Definition LoopComputeAt_master_loops (fuel : nat) (g : Graph) (master : string)
    (tensor_map : gmap string Tensor) : Sched (list Loop) :=
  let master_id := GetNodeData g master in
  let+ master_loops := get_loops master_id in
  if is_reduction g master
  then
    let+ prefix := real_master_prefix fuel master_id tensor_map 0 "" "" in
    let+ tensor := find_tensor tensor_map (master_id +:+ prefix) in
    get_loops (tensor_name tensor)
  else sret master_loops.

(** The closing [do { ... } while (--index >= 0)], entered with
    [index = k]. *)
Fixpoint attach_scan (k : nat) (node_loops master_loops : list Loop)
    : Sched unit :=
  let index := Z.of_nat k in
  let+ n := lift (orequire "node_loops[index]" (at_ node_loops index)) in
  let+ m := lift (orequire "master_loops[index]" (at_ master_loops index)) in
  if negb (loop_extent n =? loop_extent m)
  then
    match k with
    | O => sret tt
    | S k' => attach_scan k' node_loops master_loops
    end
  else MergeLoops node_loops master_loops index.

(** The opening [if (!group->output_nodes.count(node)) SetBuffer(..., "local", true)]. *)
Definition LoopComputeAt_scope (g : Graph) (node : string)
    (output_nodes : gset string) : Sched unit :=
  if bool_decide (node ∈ output_nodes) then sret tt
  else emit (CSetBuffer (GetNodeData g node) "local" true).

Definition LoopComputeAt (fuel : nat) (g : Graph) (node master : string)
    (output_nodes : gset string) (shape_dict : gmap string (list Z))
    (tensor_map : gmap string Tensor) : Sched unit :=
  exec LoopComputeAt_scope g node output_nodes in
  if is_reduction g node
  then MergeReduceLoop fuel g node master shape_dict tensor_map
  else if bool_decide (node = master) then sret tt
  else
    let+ node_loops := get_loops (GetNodeData g node) in
    let+ master_loops := LoopComputeAt_master_loops fuel g master tensor_map in
    let index := wrap (Z.min (vsize node_loops) (vsize master_loops) - 1) in
    if index <? 0 then abort (OutOfRange "node_loops[index]")
    else attach_scan (Z.to_nat index) node_loops master_loops.

(** ** [GetMaster] *)

(** The [for] over the consumers of one candidate. *)
Fixpoint GetMaster_visit (consumers : list string)
    (nodes_inline visited : gset string) (candidates : list string)
    : string + (gset string * list string) :=
  match consumers with
  | [] => inr (visited, candidates)
  | consumer :: rest =>
      if bool_decide (consumer ∈ visited)
      then GetMaster_visit rest nodes_inline visited candidates
      else if bool_decide (consumer ∈ nodes_inline)
      then GetMaster_visit rest nodes_inline ({[consumer]} ∪ visited)
             (candidates ++ [consumer])
      else inl consumer
  end.

Fixpoint GetMaster_loop (fuel : nat) (g : Graph)
    (nodes_inline nodes_set visited : gset string) (candidates : list string)
    : Outcome (option string) :=
  match fuel with
  | O => Abort OutOfFuel
  | S fuel' =>
      match candidates with
      | [] => Done None
      | candidate :: rest =>
          match GetMaster_visit (GetConsumersInSet g candidate nodes_set)
                  nodes_inline visited rest with
          | inl master => Done (Some master)
          | inr (visited', candidates') =>
              GetMaster_loop fuel' g nodes_inline nodes_set visited' candidates'
          end
      end
  end.

Definition GetMaster (fuel : nat) (g : Graph) (node : string)
    (nodes_inline nodes_set : gset string) : Outcome (option string) :=
  GetMaster_loop fuel g nodes_inline nodes_set ∅ [node].

(** ** [SyncThreadWithShared] *)

(** The keys of [GetNodeDataSet(nodes_set)]. *)
Definition GetNodeDataSet (g : Graph) (nodes_set : gset string) : gset string :=
  set_map (GetNodeData g) nodes_set.

(** The body of [check_sync_mark]'s loop from position [idx] on, [rest]
    being the blocks from [idx]; reading at the end of the list is an access
    outside [exprs_inorder]. *)
Fixpoint check_sync_mark_scan (rest : list string) (sync_mark : gset string)
    (m_id : string) : Outcome bool :=
  match rest with
  | [] => Abort (OutOfRange "exprs_inorder[idx]")
  | name :: rest' =>
      if bool_decide (name ∈ sync_mark) then Done false
      else if bool_decide (name = m_id) then Done true
      else check_sync_mark_scan rest' sync_mark m_id
  end.

(** [for (int idx = start + 1; exprs_inorder.size(); ++idx)]: the guard
    does not mention [idx]. *)
Definition check_sync_mark (exprs_inorder : list string)
    (sync_mark : gset string) (start : Z) (m_id : string) : Outcome bool :=
  if vsize exprs_inorder =? 0 then Done false
  else check_sync_mark_scan (drop (Z.to_nat (start + 1)) exprs_inorder)
         sync_mark m_id.

(** One iteration of the main loop; it yields the new [sync_mark]. *)
Definition sync_body (fuel : nat) (g : Graph)
    (nodes_inline nodes_set : gset string) (shape_dict : gmap string (list Z))
    (exprs_inorder : list string) (idx : Z) (sync_mark : gset string)
    : Sched (gset string) :=
  let+ name := lift (orequire "exprs_inorder[idx]" (at_ exprs_inorder idx)) in
  if negb (bool_decide (name ∈ GetNodeDataSet g nodes_set)) then sret sync_mark
  else
    let+ node_shape := lift (orequire "shape_dict.at" (shape_dict !! name)) in
    let+ node := lift (orequire "node_data->source_node" (source_node g name)) in
    let+ master := lift (GetMaster fuel g node nodes_inline nodes_set) in
    match master with
    | None => sret sync_mark
    | Some master =>
        let master_id := GetNodeData g master in
        let+ output_shape := lift (orequire "shape_dict.at" (shape_dict !! master_id)) in
        let+ master_shape :=
          lift (if is_reduction g master
                then input_shape_at g master shape_dict
                else Done output_shape) in
        if accumulate_mul node_shape =? accumulate_mul master_shape
        then sret sync_mark
        else
          exec emit (CSetBuffer name "shared" true) in
          let+ needed := lift (check_sync_mark exprs_inorder sync_mark idx master_id) in
          if needed
          then
            exec SyncThreadsAtBack master_id in
            sret ({[master_id]} ∪ sync_mark)
          else sret sync_mark
    end.

Fixpoint sync_loop (fuel : nat) (g : Graph)
    (nodes_inline nodes_set : gset string) (shape_dict : gmap string (list Z))
    (exprs_inorder : list string) (idxs : list Z) (sync_mark : gset string)
    : Sched (gset string) :=
  match idxs with
  | [] => sret sync_mark
  | idx :: rest =>
      let+ sync_mark := sync_body fuel g nodes_inline nodes_set shape_dict
                          exprs_inorder idx sync_mark in
      sync_loop fuel g nodes_inline nodes_set shape_dict exprs_inorder rest
        sync_mark
  end.

(** The main loop runs [idx] from 0 while [idx < exprs_inorder.size() - 1],
    a comparison in [size_t]; an iteration that reads past the end aborts,
    so none after it is listed. *)
Definition SyncThreadWithShared (fuel : nat) (g : Graph)
    (nodes_inline nodes_set : gset string) (shape_dict : gmap string (list Z))
    (tensor_map : gmap string Tensor) : Sched unit :=
  fun s =>
    let exprs_inorder := GetAllBlocks s in
    let bound := size_t_of (vsize exprs_inorder - 1) in
    let idxs := seqZ 0 (Z.min bound (vsize exprs_inorder + 1)) in
    (exec sync_loop fuel g nodes_inline nodes_set shape_dict exprs_inorder
            idxs ∅ in
     sret tt) s.

End schedule.

(** [IRSchedule::GetLoops] fails rather than return no loop. *)
Definition loops_never_empty `{ScheduleOracle} : Prop :=
  forall (s : list Cmd) (name : string), GetLoops s name <> [].

(** ** Outcomes of [MergeLoops]'s bound checks *)

(** The run stopped at [CHECK_GT(src.size(), index)] or at
    [CHECK_GT(dst.size(), index)]. *)
Definition bound_check_failed {A} (o : Outcome A) : Prop :=
  o = Abort (CheckFailed "src.size() > index") \/
  o = Abort (CheckFailed "dst.size() > index").

(** A computation none of whose runs stops at such a check. *)
Definition bounds_respected {A} (m : Sched A) : Prop :=
  forall s, ~ bound_check_failed (m s).2.

(** The loops at depth [j] of the two nests have the same extent. *)
Definition extents_equal (node_loops master_loops : list Loop) (j : Z) : Prop :=
  exists n m, at_ node_loops j = Some n /\ at_ master_loops j = Some m /\
              loop_extent n = loop_extent m.

(** ** Barriers in a history *)

(** The blocks named by the [SyncThreads] calls of a history, in order. *)
Definition sync_tags (cmds : list Cmd) : list string :=
  omap (fun c => match c with
                 | CSyncThreads loops_of _ _ => Some loops_of
                 | _ => None
                 end) cmds.

(** How many barriers a history inserts after the last loop of [m_id]. *)
Definition barriers_for (m_id : string) (cmds : list Cmd) : nat :=
  length (List.filter (fun t => bool_decide (t = m_id)) (sync_tags cmds)).

(** A shape of positive dimensions whose element count fits an [int]. *)
Definition shape_ok (s : list Z) : Prop :=
  Forall (fun d => 1 <= d) s /\ product s <= int_max.

(** The number of queue pops [route_loop] needs below a node of height [h]:
    the measure of its termination on acyclic groups. *)
Fixpoint route_cost (visit : string -> list string) (h : nat) (n : string)
    : nat :=
  match h with
  | O => 1
  | S h' => S (sum_list_with (route_cost visit h') (visit n))
  end.

Definition queue_cost (visit : string -> list string) (rank : string -> nat)
    (q : list string) : nat :=
  sum_list_with (fun x => route_cost visit (rank x) x) q.

(** ** Concrete groups used by the examples *)

Fixpoint table_get {A} (tbl : list (string * A)) (d : A) (k : string) : A :=
  match tbl with
  | [] => d
  | (k', v) :: tbl' => if String.eqb k k' then v else table_get tbl' d k
  end.

(** Two element-wise operators, ["a"] feeding ["b"]; the data node of an
    operator [n] is ["d_" ++ n] and ["x"] is the group's input. *)
Definition chain_graph : Graph := {|
  GetNodeData := fun n => String.append "d_" n;
  data_outlinks := table_get [("x", ["a"]); ("d_a", ["b"])] [];
  inlinks_in_order := table_get [("a", ["x"]); ("b", ["d_a"])] [];
  source_node := table_get [("d_a", Some "a"); ("d_b", Some "b")] None;
  op_name := table_get [("a", "exp"); ("b", "relu")] "";
  op_pattern_dict := fun _ => kElementWise;
  attr_dim := fun _ => [];
|}.

Definition chain_group : gset string := {["a"; "b"]}.

Definition chain_rank (n : string) : nat := if String.eqb n "a" then 1 else 0.

(** A schedule whose queries are answered from fixed tables. *)
Definition table_oracle (loops : list (string * list Loop))
    (blocks : list string) : ScheduleOracle := {|
  GetLoops := fun _ name => table_get loops [] name;
  HasBlock := fun _ name => bool_decide (name ∈ blocks);
  GetAllBlocks := fun _ => blocks;
|}.

Definition mk_loop (ref : positive) (extent : Z) : Loop :=
  {| loop_ref := ref; loop_var := String.append "i" (pretty (Zpos ref));
     loop_extent := extent |}.

(** One block ["B"] under two loops of extents 4 and 2048. *)
Definition wide_oracle : ScheduleOracle :=
  table_oracle [("B", [mk_loop 1 4; mk_loop 2 2048])] ["B"].

(** One block ["B"] under two loops of extents 2 and 512. *)
Definition small_oracle : ScheduleOracle :=
  table_oracle [("B", [mk_loop 1 2; mk_loop 2 512])] ["B"].

(** The blocks of the chain group when the master's block ["d_b"] does not
    follow the block ["d_a"]. *)
Definition stray_oracle : ScheduleOracle :=
  table_oracle [("d_a", [mk_loop 1 8]); ("d_b", [mk_loop 2 4])] ["d_a"; "d_c"].

Definition chain_shapes : gmap string (list Z) :=
  {["d_a" := [8]; "d_b" := [4]]}.

(** The chain group with loop nests [4, 8] for ["d_a"] and [4, 16] for
    ["d_b"]: the extents agree at depth 0 only. *)
Definition match_oracle : ScheduleOracle :=
  table_oracle [("d_a", [mk_loop 1 4; mk_loop 2 8]);
                ("d_b", [mk_loop 3 4; mk_loop 4 16])] ["d_a"; "d_b"].

(** The chain group with loop nests [2] for ["d_a"] and [3] for ["d_b"]:
    the extents agree at no depth. *)
Definition mismatch_oracle : ScheduleOracle :=
  table_oracle [("d_a", [mk_loop 1 2]); ("d_b", [mk_loop 2 3])] ["d_a"; "d_b"].

(** Two producers ["a"] and ["b"] (shape [[8]]) of one master ["m"]
    (shape [[4]]), with their three blocks in execution order. *)
Definition fan_graph : Graph := {|
  GetNodeData := fun n => String.append "d_" n;
  data_outlinks := table_get [("d_a", ["m"]); ("d_b", ["m"])] [];
  inlinks_in_order := table_get [("m", ["d_a"; "d_b"])] [];
  source_node :=
    table_get [("d_a", Some "a"); ("d_b", Some "b"); ("d_m", Some "m")] None;
  op_name := table_get [("m", "elementwise_add")] "exp";
  op_pattern_dict := fun _ => kElementWise;
  attr_dim := fun _ => [];
|}.

Definition fan_group : gset string := {["a"; "b"; "m"]}.

Definition fan_shapes : gmap string (list Z) :=
  {["d_a" := [8]; "d_b" := [8]; "d_m" := [4]]}.

Definition fan_oracle : ScheduleOracle :=
  table_oracle [("d_m", [mk_loop 1 4])] ["d_a"; "d_b"; "d_m"].

(** A reduction group: ["a"] (shape [[8]]) feeds the broadcast ["b"]
    (shape [[4; 8]]) and the element-wise ["c"]; ["r"] reduces ["b"]. *)
Definition reduce_graph : Graph := {|
  GetNodeData := fun n => String.append "d_" n;
  data_outlinks := table_get [("x", ["a"]); ("d_a", ["b"; "c"]); ("d_b", ["r"])] [];
  inlinks_in_order :=
    table_get [("a", ["x"]); ("b", ["d_a"]); ("c", ["d_a"]); ("r", ["d_b"])] [];
  source_node :=
    table_get [("d_a", Some "a"); ("d_b", Some "b"); ("d_c", Some "c");
               ("d_r", Some "r")] None;
  op_name :=
    table_get [("a", "exp"); ("b", "broadcast_to"); ("c", "relu");
               ("r", "reduce_sum")] "";
  op_pattern_dict :=
    table_get [("b", kBroadcast); ("r", kReduction)] kElementWise;
  attr_dim := table_get [("r", [0])] [];
|}.

Definition reduce_group : gset string := {["a"; "b"; "c"; "r"]}.
Definition reduce_outputs : gset string := {["c"; "r"]}.

Definition reduce_shapes : gmap string (list Z) :=
  {["d_a" := [8]; "d_b" := [4; 8]; "d_c" := [8]; "d_r" := [4]]}.

Definition reduce_rank_c (n : string) : nat :=
  table_get [("a", 2%nat); ("b", 1%nat)] 0%nat n.
Definition reduce_rank_p (n : string) : nat :=
  table_get [("r", 2%nat); ("b", 1%nat); ("c", 1%nat)] 0%nat n.

(* ===================================================================== *)
(** * Part I, continued: the remaining helpers of the file                *)
(* ===================================================================== *)

(** ** Input tensors: [GetInputNodeData], [GetTensor], [CollectInputTensor]

    The sources of a node's in-links are data nodes, so [GetInputNodeData]
    is the list of their ids and [CHECK(node_data)] holds.  [Type] and
    [lang::Placeholder] are declared outside this file: of a [Type] only the
    answers to the tests made by [GetTensor] are used ([is_int] is written
    [is_int_bits], the shorter name being that of the range of [int]), and a
    tensor is recorded as the [Placeholder<T>(name, shape)] call that builds
    it. *)

Definition GetInputNodeData (g : Graph) (node : string) : list string :=
  inlinks_in_order g node.

Inductive ElemType :=
  | T_float | T_double | T_float16 | T_bool
  | T_int8 | T_int16 | T_int32 | T_int64
  | T_uint8 | T_uint16 | T_uint32 | T_uint64.

Inductive InputTensor :=
  | Placeholder (T : ElemType) (name : string) (shape : list Z).

Class TypeTests (Ty : Type) := {
  is_float : Ty -> Z -> bool;
  is_bool : Ty -> bool;
  is_int_bits : Ty -> Z -> bool;
  is_uint : Ty -> Z -> bool;
}.

(** The chain of tests on [dtype]: the element type of the placeholder. *)
Definition GetTensor_elem `{TypeTests Ty} (dtype : Ty) : option ElemType :=
  if is_float dtype 32 then Some T_float
  else if is_float dtype 64 then Some T_double
  else if is_float dtype 16 then Some T_float16
  else if is_bool dtype then Some T_bool
  else if is_int_bits dtype 8 then Some T_int8
  else if is_int_bits dtype 16 then Some T_int16
  else if is_int_bits dtype 32 then Some T_int32
  else if is_int_bits dtype 64 then Some T_int64
  else if is_uint dtype 8 then Some T_uint8
  else if is_uint dtype 16 then Some T_uint16
  else if is_uint dtype 32 then Some T_uint32
  else if is_uint dtype 64 then Some T_uint64
  else None.

Definition GetTensor `{TypeTests Ty} (node_data : string)
    (type_dict : gmap string Ty) (shape_dict : gmap string (list Z))
    : Outcome InputTensor :=
  let* dtype := orequire "type_dict.at" (type_dict !! node_data) in
  match GetTensor_elem dtype with
  | Some T =>
      let* shape := orequire "shape_dict.at" (shape_dict !! node_data) in
      Done (Placeholder T node_data shape)
  | None => Abort (LogFatal "Unsupport dtype: ")
  end.

(** The [for] over the input data nodes; the state is [func_args],
    [tensor_map] and [tensors]. *)
Fixpoint CollectInputTensor_loop `{TypeTests Ty} (inputs : list string)
    (func_args : list InputTensor) (tensor_map : gmap string InputTensor)
    (type_dict : gmap string Ty) (shape_dict : gmap string (list Z))
    (tensors : list InputTensor)
    : Outcome (list InputTensor * list InputTensor * gmap string InputTensor) :=
  match inputs with
  | [] => Done (tensors, func_args, tensor_map)
  | node_data :: rest =>
      let* tensor := GetTensor node_data type_dict shape_dict in
      if bool_decide (is_Some (tensor_map !! node_data))
      then CollectInputTensor_loop rest func_args tensor_map
             type_dict shape_dict (tensors ++ [tensor])
      else CollectInputTensor_loop rest (func_args ++ [tensor])
             (<[node_data := tensor]> tensor_map)
             type_dict shape_dict (tensors ++ [tensor])
  end.

(** The result is the returned [tensors] with the final [func_args] and
    [tensor_map]. *)
Definition CollectInputTensor `{TypeTests Ty} (g : Graph) (node : string)
    (func_args : list InputTensor) (tensor_map : gmap string InputTensor)
    (type_dict : gmap string Ty) (shape_dict : gmap string (list Z))
    : Outcome (list InputTensor * list InputTensor * gmap string InputTensor) :=
  CollectInputTensor_loop (GetInputNodeData g node) func_args tensor_map
    type_dict shape_dict [].

(** ** [FindGlobalReducer] and [FindNearestReducer] *)

(** The scan runs over the reverse iterators of [nodes_in_order]. *)
Definition FindGlobalReducer (g : Graph) (nodes_in_order : list string)
    : option string :=
  List.find (is_reduction g) (rev nodes_in_order).

Definition FindNearestReducer (fuel : nat) (g : Graph) (node : string)
    (nodes_set : gset string) : Outcome (option string) :=
  let* reducer := FindReducerInRoute fuel g node nodes_set GetConsumersInSet in
  match reducer with
  | Some reducer => Done (Some reducer)
  | None => FindReducerInRoute fuel g node nodes_set GetProducersInSet
  end.

(** [r] is reached from [n] in [k + 1] steps of [visit]. *)
Fixpoint walk (visit : string -> list string) (k : nat) (n r : string) : Prop :=
  match k with
  | O => r ∈ visit n
  | S k' => exists c, c ∈ visit n /\ walk visit k' c r
  end.

(** ** [BuildVirtualConsumer]

    [group->output_nodes] is an unordered set; [output_nodes] lists it in
    the order in which the two [for] loops iterate over it.  The
    [shape_dict] argument is not used by the function. *)

(** The first [for]: the output node that follows a reducer and has no
    consumer in the group. *)
Fixpoint find_g_node (fuel : nat) (g : Graph) (nodes_set : gset string)
    (output_nodes : list string) : Outcome (option string) :=
  match output_nodes with
  | [] => Done None
  | t_node :: rest =>
      if is_reduction g t_node then find_g_node fuel g nodes_set rest
      else
        let* reducer := FindReducerInRoute fuel g t_node nodes_set GetProducersInSet in
        if bool_decide (is_Some reducer)
           && (vsize (GetConsumersInSet g t_node nodes_set) =? 0)
        then Done (Some t_node)
        else find_g_node fuel g nodes_set rest
  end.

(** The [for] over the producers of one candidate: the reducer found, or
    the new [visited] and [candidates]. *)
Fixpoint horizontal_visit (fuel : nat) (g : Graph) (nodes_set : gset string)
    (producers : list string) (visited : gset string) (candidates : list string)
    : Outcome (string + gset string * list string) :=
  match producers with
  | [] => Done (inr (visited, candidates))
  | producer :: rest =>
      if bool_decide (producer ∈ visited)
      then horizontal_visit fuel g nodes_set rest visited candidates
      else
        let* reducer := FindReducerInRoute fuel g producer nodes_set GetConsumersInSet in
        match reducer with
        | Some reducer => Done (inl reducer)
        | None =>
            horizontal_visit fuel g nodes_set rest ({[producer]} ∪ visited)
              (candidates ++ [producer])
        end
  end.

(** The [while (!candidates.empty())] that looks for a horizontal reducer;
    one unit of [steps] is one iteration.  It yields [virtual_consumers]. *)
Fixpoint horizontal_loop (steps fuel : nat) (g : Graph) (nodes_set : gset string)
    (t_node : string) (virtual_consumers : gmap string string)
    (visited : gset string) (candidates : list string)
    : Outcome (gmap string string) :=
  match steps with
  | O => Abort OutOfFuel
  | S steps' =>
      match candidates with
      | [] => Done virtual_consumers
      | candidate :: rest =>
          let* found := horizontal_visit fuel g nodes_set
                          (GetProducersInSet g candidate nodes_set) visited rest in
          match found with
          | inl reducer => Done (<[t_node := reducer]> virtual_consumers)
          | inr (visited', candidates') =>
              if bool_decide (is_Some (virtual_consumers !! t_node))
              then Done virtual_consumers
              else horizontal_loop steps' fuel g nodes_set t_node
                     virtual_consumers visited' candidates'
          end
      end
  end.

(** The second [for] over the output nodes. *)
Fixpoint assign_virtual_consumers (fuel : nat) (g : Graph)
    (nodes_set : gset string) (g_node : option string)
    (output_nodes : list string) (virtual_consumers : gmap string string)
    : Outcome (gmap string string) :=
  match output_nodes with
  | [] => Done virtual_consumers
  | t_node :: rest =>
      if is_reduction g t_node
      then
        assign_virtual_consumers fuel g nodes_set g_node rest
          match g_node with
          | Some g_node => <[t_node := g_node]> virtual_consumers
          | None => virtual_consumers
          end
      else
        let* nearest := FindNearestReducer fuel g t_node nodes_set in
        match nearest with
        | Some _ =>
            assign_virtual_consumers fuel g nodes_set g_node rest virtual_consumers
        | None =>
            let* virtual_consumers :=
              horizontal_loop fuel fuel g nodes_set t_node virtual_consumers
                {[t_node]} [t_node] in
            if bool_decide (is_Some (virtual_consumers !! t_node))
            then assign_virtual_consumers fuel g nodes_set g_node rest
                   virtual_consumers
            else
              assign_virtual_consumers fuel g nodes_set g_node rest
                match g_node with
                | Some g_node' =>
                    if bool_decide (t_node <> g_node')
                    then <[t_node := g_node']> virtual_consumers
                    else virtual_consumers
                | None => virtual_consumers
                end
        end
  end.

Definition BuildVirtualConsumer (fuel : nat) (g : Graph)
    (op_pattern_kind : OpPatternKind) (nodes_set : gset string)
    (output_nodes : list string) : Outcome (gmap string string) :=
  if negb (bool_decide (op_pattern_kind = kReduction)) then Done ∅
  else
    let* g_node := find_g_node fuel g nodes_set output_nodes in
    assign_virtual_consumers fuel g nodes_set g_node output_nodes ∅.

(** Every consumer link of the group is matched by an in-link of the
    consumer, whose source data node knows its operator. *)
Definition links_consistent (g : Graph) (nodes_set : gset string) : Prop :=
  forall p c, p ∈ nodes_set -> c ∈ GetConsumersInSet g p nodes_set ->
    p ∈ GetProducersInSet g c nodes_set.

(** ** [GetMasterToComputeAt]

    [done_schedule] is an unordered set; [iteration] lists a set in the
    order in which the code iterates over it. *)

(** The [for] that collects the reducers scheduled before [node]. *)
Fixpoint done_before (g : Graph) (nodes_in_order : list string) (node : string)
    (done_schedule : gset string) : gset string :=
  match nodes_in_order with
  | [] => done_schedule
  | tmp :: rest =>
      if bool_decide (tmp = node) then done_schedule
      else done_before g rest node
             (if is_reduction g tmp then {[tmp]} ∪ done_schedule
              else done_schedule)
  end.

(** The [for] over the consumers of one candidate; the state is
    [done_schedule], [visited] and [candidates]. *)
Fixpoint erase_visit (g : Graph) (consumers : list string)
    (done_schedule visited : gset string) (candidates : list string)
    : gset string * gset string * list string :=
  match consumers with
  | [] => (done_schedule, visited, candidates)
  | consumer :: rest =>
      let done_schedule :=
        if is_reduction g consumer then done_schedule ∖ {[consumer]}
        else done_schedule in
      if bool_decide (consumer ∈ visited)
      then erase_visit g rest done_schedule visited candidates
      else erase_visit g rest done_schedule ({[consumer]} ∪ visited)
             (candidates ++ [consumer])
  end.

Fixpoint erase_loop (fuel : nat) (g : Graph) (nodes_set : gset string)
    (done_schedule visited : gset string) (candidates : list string)
    : Outcome (gset string) :=
  match fuel with
  | O => Abort OutOfFuel
  | S fuel' =>
      match candidates with
      | [] => Done done_schedule
      | candidate :: rest =>
          let '(done_schedule', visited', candidates') :=
            erase_visit g (GetConsumersInSet g candidate nodes_set)
              done_schedule visited rest in
          erase_loop fuel' g nodes_set done_schedule' visited' candidates'
      end
  end.

(** The [for (auto rnode : done_schedule)] that looks for a reducer with
    the same input shape. *)
Fixpoint same_shape_reducer (g : Graph) (shape_dict : gmap string (list Z))
    (shape : list Z) (r_nodes : list string) : Outcome (option string) :=
  match r_nodes with
  | [] => Done None
  | r_node :: rest =>
      let* rshape := input_shape_at g r_node shape_dict in
      if bool_decide (shape = rshape) then Done (Some r_node)
      else same_shape_reducer g shape_dict shape rest
  end.

(** The [for] over the consumers of one candidate in the second search;
    the state is [visited], [masters] and [candidates]. *)
Fixpoint masters_visit (consumers : list string)
    (nodes_inline visited masters : gset string) (candidates : list string)
    : gset string * gset string * list string :=
  match consumers with
  | [] => (visited, masters, candidates)
  | consumer :: rest =>
      if bool_decide (consumer ∈ visited)
      then masters_visit rest nodes_inline visited masters candidates
      else if bool_decide (consumer ∈ nodes_inline)
      then masters_visit rest nodes_inline ({[consumer]} ∪ visited) masters
             (candidates ++ [consumer])
      else masters_visit rest nodes_inline visited ({[consumer]} ∪ masters)
             candidates
  end.

Fixpoint masters_loop (fuel : nat) (g : Graph)
    (nodes_inline nodes_set : gset string)
    (virtual_consumers : gmap string string)
    (visited masters : gset string) (candidates : list string)
    : Outcome (gset string) :=
  match fuel with
  | O => Abort OutOfFuel
  | S fuel' =>
      match candidates with
      | [] => Done masters
      | candidate :: rest =>
          let consumers := FindConsumers g candidate nodes_set virtual_consumers in
          let '(visited', masters', candidates') :=
            masters_visit consumers nodes_inline visited masters rest in
          masters_loop fuel' g nodes_inline nodes_set virtual_consumers
            visited' masters' candidates'
      end
  end.

(** The closing [for (idx = 0; ...)] with its inner
    [for (idy = idx - 1; idy >= 0; --idy)]: [before] holds the nodes already
    passed, the latest first. *)
Fixpoint master_in_order (masters : gset string) (nodes_in_order : list string)
    (node : string) (before : list string) : option string :=
  match nodes_in_order with
  | [] => None
  | n :: rest =>
      if bool_decide (n = node)
      then List.find (fun m => bool_decide (m ∈ masters)) before
      else master_in_order masters rest node (n :: before)
  end.

Definition GetMasterToComputeAt (fuel : nat) (iteration : gset string -> list string)
    (g : Graph) (node : string) (nodes_in_order : list string)
    (nodes_inline nodes_set : gset string)
    (virtual_consumers : gmap string string)
    (shape_dict : gmap string (list Z)) : Outcome (option string) :=
  let* horizontal :=
    if is_reduction g node
    then
      let* done_schedule :=
        erase_loop fuel g nodes_set (done_before g nodes_in_order node ∅) ∅ [node] in
      if negb (Nat.eqb (size done_schedule) 0)
      then
        let* shape := input_shape_at g node shape_dict in
        let* same := same_shape_reducer g shape_dict shape (iteration done_schedule) in
        match same with
        | Some r_node => Done (Some r_node)
        | None =>
            let* first := orequire "*done_schedule.begin()"
                            (head (iteration done_schedule)) in
            Done (Some first)
        end
      else Done None
    else Done None in
  match horizontal with
  | Some r_node => Done (Some r_node)
  | None =>
      let* masters := masters_loop fuel g nodes_inline nodes_set virtual_consumers
                        ∅ ∅ [node] in
      Done (master_in_order masters nodes_in_order node [])
  end.

(** [iteration] enumerates exactly the elements of a set. *)
Definition enumerates (iteration : gset string -> list string) : Prop :=
  forall (s : gset string) (x : string), x ∈ iteration s <-> x ∈ s.

(** [x] is reached from [node] through [visit], every node passed on the
    way being inlined. *)
Inductive through_inlined (visit : string -> list string)
    (nodes_inline : gset string) (node : string) : string -> Prop :=
  | through_direct c :
      c ∈ visit node -> through_inlined visit nodes_inline node c
  | through_step y c :
      through_inlined visit nodes_inline node y -> y ∈ nodes_inline ->
      c ∈ visit y -> through_inlined visit nodes_inline node c.

(** [m] stands before the first occurrence of [node] in [order], the nodes
    of [between] lying between the two. *)
Definition stands_before (order : list string) (m node : string)
    (between : list string) : Prop :=
  exists pre post,
    order = pre ++ m :: between ++ node :: post /\
    node ∉ pre ++ m :: between.

(** ** The split factors of [LoopAssignReduce]

    The loop [for (auto& loop : rloops)] of [LoopAssignReduce] that collects
    the factors by which the node's last loop (of extent [last_extent]) is
    split; the state is [extend] and [factors]. *)
Fixpoint LoopAssignReduce_factors (rloops : list Loop) (last_extent : Z)
    (extend : Z) (factors : list Z) : Outcome (list Z) :=
  match rloops with
  | [] => Done factors
  | loop :: rest =>
      let extend := wrap (extend * loop_extent loop) in
      if extend >? last_extent then Done factors
      else if negb (extend <=? last_extent)
      then Abort (CheckFailed "extend <= loops.back().extent")
      else LoopAssignReduce_factors rest last_extent extend
             (factors ++ [loop_extent loop])
  end.

(** ** Histories *)

(** A computation none of whose runs is cut short by the model's own step
    bound. *)
Definition terminates {A} (m : Sched A) : Prop :=
  forall s, (m s).2 <> Abort OutOfFuel.
(** A computation none of whose runs ends in a failure of the kind [bad]. *)
Definition avoids {A} (bad : Error -> Prop) (m : Sched A) : Prop :=
  forall s e, (m s).2 = Abort e -> ~ bad e.

(** A read of [axes] outside the vector: [axes[index]], [axes[index + 1]]
    or [axes.back()]. *)
Definition axes_read (e : Error) : Prop :=
  e = OutOfRange "axes[index]" \/ e = OutOfRange "axes[index + 1]" \/
  e = OutOfRange "axes.back()".

(** The number of steps that suffices for a search from any node of an
    acyclic group, along consumers or along producers. *)
Definition route_fuel (g : Graph) (nodes_set : gset string)
    (rank_c rank_p : string -> nat) : nat :=
  S (queue_cost (fun n => GetConsumersInSet g n nodes_set) rank_c
       (elements nodes_set)
     + queue_cost (fun n => GetProducersInSet g n nodes_set) rank_p
         (elements nodes_set)).

(** ** Further concrete groups used by the examples *)

(** Two element-wise operators feeding each other: a group with a cycle. *)
Definition ring_graph : Graph := {|
  GetNodeData := fun n => String.append "d_" n;
  data_outlinks := table_get [("d_a", ["b"]); ("d_b", ["a"])] [];
  inlinks_in_order := table_get [("a", ["d_b"]); ("b", ["d_a"])] [];
  source_node := table_get [("d_a", Some "a"); ("d_b", Some "b")] None;
  op_name := fun _ => "exp";
  op_pattern_dict := fun _ => kElementWise;
  attr_dim := fun _ => [];
|}.

(** The reducer ["r"] of the reduction group with its two staged tensors,
    both scheduled. *)
Definition staged_tensors : gmap string Tensor :=
  {["d_r" := {| tensor_name := "d_r"; tensor_shape := [8] |};
    "d_r_0" := {| tensor_name := "d_r_0"; tensor_shape := [2; 8] |}]}.

Definition staged_oracle : ScheduleOracle :=
  table_oracle [("d_r", [mk_loop 1 8]); ("d_r_0", [mk_loop 2 2; mk_loop 3 8])]
    ["d_r_0"; "d_r"].

(** A rank for the reduction group with the virtual edge from ["c"] to
    ["r"]. *)
Definition reduce_rank_v (n : string) : nat :=
  table_get [("a", 2%nat); ("b", 1%nat); ("c", 1%nat)] 0%nat n.

(** A type given by its kind and width, with the tests of such a type. *)
Inductive type_kind := Float_kind | Int_kind | UInt_kind.

Global Instance kind_width_tests : TypeTests (type_kind * Z) := {|
  is_float t bits :=
    match t.1 with Float_kind => t.2 =? bits | _ => false end;
  is_bool t :=
    match t.1 with UInt_kind => t.2 =? 1 | _ => false end;
  is_int_bits t bits :=
    match t.1 with Int_kind => t.2 =? bits | _ => false end;
  is_uint t bits :=
    match t.1 with UInt_kind => t.2 =? bits | _ => false end;
|}.

(** The types and shapes of the inputs of a two-input operator ["m"]. *)
Definition fan_types : gmap string (type_kind * Z) :=
  {["d_a" := (Float_kind, 32); "d_b" := (Int_kind, 64)]}.

(** A schedule without blocks, and one with a single block. *)
Definition empty_oracle : ScheduleOracle := table_oracle [] [].
Definition single_oracle : ScheduleOracle :=
  table_oracle [("d_a", [mk_loop 1 8])] ["d_a"].

(** ** What [CollectInputTensor] records *)

(** [t] is the placeholder [GetTensor] builds for the data node [id]: named
    [id], with the element type the tests give for [type_dict.at(id)] and
    the shape [shape_dict.at(id)]. *)
Definition placeholder_of `{TypeTests Ty} (type_dict : gmap string Ty)
    (shape_dict : gmap string (list Z)) (id : string) (t : InputTensor)
    : Prop :=
  exists dtype T shape,
    type_dict !! id = Some dtype /\ GetTensor_elem dtype = Some T /\
    shape_dict !! id = Some shape /\ t = Placeholder T id shape.

(** A list without the later copies of its elements. *)
Fixpoint first_occurrences (l : list string) : list string :=
  match l with
  | [] => []
  | x :: l' => x :: filter (fun y => y <> x) (first_occurrences l')
  end.

(** ** The calls of [SyncThreadWithShared]

    What one iteration of the main loop may add to the history [before]:
    nothing; or [SetBuffer(block, "shared", true)] for a block [name] of the
    list that belongs to a node of the group, whose node has the master
    [GetMaster] finds and an element count other than that master's (the
    count of the master's input for a reducing master); or that call
    followed by [SyncThreads(loops.back(), false)], [loops] being what
    [GetLoops] returns for the master's data node once the buffer is set. *)
Definition shared_step `{ScheduleOracle} (fuel : nat) (g : Graph)
    (nodes_inline nodes_set : gset string) (shape_dict : gmap string (list Z))
    (exprs_inorder : list string) (before new : list Cmd) : Prop :=
  new = [] \/
  exists name node master node_shape master_shape,
    name ∈ exprs_inorder /\ name ∈ GetNodeDataSet g nodes_set /\
    source_node g name = Some node /\
    GetMaster fuel g node nodes_inline nodes_set = Done (Some master) /\
    shape_dict !! name = Some node_shape /\
    (if is_reduction g master then input_shape_at g master shape_dict
     else orequire "shape_dict.at" (shape_dict !! GetNodeData g master))
      = Done master_shape /\
    accumulate_mul node_shape <> accumulate_mul master_shape /\
    (new = [CSetBuffer name "shared" true] \/
     exists loop,
       last (GetLoops (before ++ [CSetBuffer name "shared" true])
               (GetNodeData g master)) = Some loop /\
       new = [CSetBuffer name "shared" true;
              CSyncThreads (GetNodeData g master) loop false]).

(** ** Block lists in execution order

    [exprs_inorder] lists the blocks in execution order when the block of a
    node is followed, later in the list, by the block of every node of the
    group that is not inlined and consumes its value, directly or through
    inlined nodes only. *)
Definition blocks_in_execution_order (g : Graph)
    (nodes_inline nodes_set : gset string) (exprs_inorder : list string)
    : Prop :=
  forall (i : nat) (name node m : string),
    exprs_inorder !! i = Some name ->
    source_node g name = Some node ->
    m ∉ nodes_inline ->
    through_inlined (fun n => GetConsumersInSet g n nodes_set)
      nodes_inline node m ->
    exists j : nat, (i < j)%nat /\ exprs_inorder !! j = Some (GetNodeData g m).

(** A read of [exprs_inorder] outside the vector. *)
Definition blocks_read (e : Error) : Prop :=
  e = OutOfRange "exprs_inorder[idx]".

(* ===================================================================== *)
(** * Part II: properties                                                 *)
(* ===================================================================== *)

Ltac bool_to_prop :=
  repeat match goal with
  | H : (_ >? _) = _ |- _ => rewrite Z.gtb_ltb in H
  | H : (_ >=? _) = _ |- _ => rewrite Z.geb_leb in H
  | H : (_ <? _) = true |- _ => apply Z.ltb_lt in H
  | H : (_ <? _) = false |- _ => apply Z.ltb_ge in H
  | H : (_ <=? _) = true |- _ => apply Z.leb_le in H
  | H : (_ <=? _) = false |- _ => apply Z.leb_gt in H
  | H : (_ =? _) = true |- _ => apply Z.eqb_eq in H
  | H : (_ =? _) = false |- _ => apply Z.eqb_neq in H
  end.

Ltac cmp_lia := bool_to_prop; lia.

Lemma wrap_id z : is_int z -> wrap z = z.
Proof.
  unfold is_int, int_min, int_max, wrap. intros H.
  rewrite Z.mod_small by lia. lia.
Qed.

Lemma product_pos (s : list Z) : Forall (fun d => 1 <= d) s -> 1 <= product s.
Proof.
  induction 1 as [|d s Hd _ IH]; simpl; [lia|]. nia.
Qed.

Lemma fold_wrap_product (s : list Z) : forall acc,
  1 <= acc -> Forall (fun d => 1 <= d) s -> acc * product s <= int_max ->
  fold_left (fun a d => wrap (a * d)) s acc = acc * product s.
Proof.
  induction s as [|d s IH]; intros acc Hacc Hall Hmax; simpl; [lia|].
  apply Forall_cons in Hall as [Hd Hall].
  pose proof (product_pos s Hall) as Hp. simpl in Hmax.
  assert (acc * d <= acc * (d * product s)) by nia.
  rewrite wrap_id by (unfold is_int, int_min, int_max in *; nia).
  rewrite IH; [lia|nia|done|lia].
Qed.

Lemma accumulate_mul_product (s : list Z) :
  shape_ok s -> accumulate_mul s = product s.
Proof.
  intros [Hall Hmax]. unfold accumulate_mul.
  rewrite fold_wrap_product; [lia|lia|done|lia].
Qed.

(** ** Ordering Builder: [TopologicalOrder] *)

Lemma erasable_no_consumer g vc ns node c :
  existsb (fun consumer => bool_decide (consumer ∈ ns))
    (FindConsumers g node ns vc) = false ->
  edge g vc node c -> c ∉ ns.
Proof.
  intros Hex [Hreal | Hvirt] Hin.
  - assert (existsb (fun consumer => bool_decide (consumer ∈ ns))
              (FindConsumers g node ns vc) = true) as Ht; [|congruence].
    apply existsb_exists. exists c. split; [|by apply bool_decide_eq_true].
    unfold FindConsumers, GetConsumersInSet. apply in_or_app. left.
    apply filter_In. split; [by apply list_elem_of_In|by apply bool_decide_eq_true].
  - assert (existsb (fun consumer => bool_decide (consumer ∈ ns))
              (FindConsumers g node ns vc) = true) as Ht; [|congruence].
    apply existsb_exists. exists c. split; [|by apply bool_decide_eq_true].
    unfold FindConsumers. rewrite Hvirt. apply in_or_app. right. by left.
Qed.

Lemma topo_sweep_inv g vc group tmp : forall ns order ns' order',
  NoDup tmp -> (forall x, x ∈ tmp -> x ∈ ns) ->
  topo_inv g vc group ns order ->
  topo_sweep g vc tmp ns order = (ns', order') ->
  topo_inv g vc group ns' order'.
Proof.
  induction tmp as [|node rest IH]; intros ns order ns' order' Hnd Hin Hinv Hsw.
  - simpl in Hsw. by inversion Hsw; subst.
  - simpl in Hsw. apply NoDup_cons in Hnd as [Hnotin Hnd].
    destruct (existsb _ (FindConsumers g node ns vc)) eqn:Hex.
    + eapply IH; eauto. intros x Hx. apply Hin. by right.
    + eapply IH in Hsw; eauto.
      * intros x Hx. apply elem_of_difference. split; [apply Hin; by right|].
        intros ->%elem_of_singleton. done.
      * destruct Hinv as [Hsub Hcov Hdis Hnod Hed].
        assert (node ∈ ns) as Hnode by (apply Hin; by left).
        split.
        -- set_solver.
        -- intros x Hx. destruct (decide (x = node)) as [->|Hne].
           ++ right. apply elem_of_app. right. by apply list_elem_of_singleton.
           ++ destruct (Hcov x Hx) as [?|?]; [left; set_solver|right].
              apply elem_of_app. by left.
        -- intros x [Hx|Hx%list_elem_of_singleton]%elem_of_app.
           ++ destruct (Hdis x Hx). split; [set_solver|done].
           ++ subst. split; [set_solver|]. by apply Hsub.
        -- apply NoDup_app. split; [done|]. split; [|apply NoDup_singleton].
           intros x Hx ->%list_elem_of_singleton. by destruct (Hdis node Hx).
        -- intros j p c Hj Hc Hedge.
           destruct (decide (j < length order)%nat) as [Hlt|Hge].
           ++ rewrite lookup_app_l in Hj by done.
              destruct (Hed j p c Hj Hc Hedge) as (i & Hi & Hic).
              exists i. split; [done|]. rewrite lookup_app_l by lia. done.
           ++ rewrite lookup_app_r in Hj by lia.
              apply list_lookup_singleton_Some in Hj as [Hj0 ->].
              pose proof (erasable_no_consumer _ _ _ _ _ Hex Hedge) as Hcns.
              destruct (Hcov c Hc) as [?|Hco]; [done|].
              apply list_elem_of_lookup in Hco as [i Hi].
              exists i. split; [apply lookup_lt_Some in Hi; lia|].
              rewrite lookup_app_l by (by apply lookup_lt_Some in Hi). done.
Qed.

Lemma sorted_elements_spec (ns : gset string) :
  NoDup (merge_sort NodeCompare_le (elements ns)) /\
  forall x, x ∈ merge_sort NodeCompare_le (elements ns) <-> x ∈ ns.
Proof.
  pose proof (merge_sort_Permutation NodeCompare_le (elements ns)) as Hp.
  split.
  - rewrite Hp. apply NoDup_elements.
  - intros x. rewrite Hp. apply elem_of_elements.
Qed.

Lemma topo_loop_inv g vc group fuel : forall ns order result,
  topo_inv g vc group ns order ->
  topo_loop fuel g vc ns order = Some result ->
  topo_inv g vc group ∅ result.
Proof.
  induction fuel as [|fuel IH]; intros ns order result Hinv Hrun; simpl in Hrun.
  - destruct (decide (ns = ∅)) as [->|]; [|done]. by inversion Hrun; subst.
  - destruct (decide (ns = ∅)) as [->|]; [by inversion Hrun; subst|].
    destruct (topo_sweep _ _ _ _ _) as [ns' order'] eqn:Hsw.
    destruct (sorted_elements_spec ns) as [Hnd Hel].
    eapply IH; [|exact Hrun].
    eapply topo_sweep_inv; eauto. intros x Hx. by apply Hel.
Qed.

Lemma topo_inv_init g vc group : topo_inv g vc group group [].
Proof.
  split.
  - done.
  - intros x Hx. by left.
  - intros x Hx. by apply elem_of_nil in Hx.
  - constructor.
  - intros j p c Hj. by rewrite lookup_nil in Hj.
Qed.

Lemma blocked_has_consumer g vc ns node :
  existsb (fun consumer => bool_decide (consumer ∈ ns))
    (FindConsumers g node ns vc) = true ->
  exists c, edge g vc node c /\ c ∈ ns.
Proof.
  intros (c & Hc & Hin)%existsb_exists. apply bool_decide_eq_true in Hin.
  exists c. split; [|done]. unfold FindConsumers in Hc.
  apply in_app_or in Hc as [Hc|Hc].
  - left. unfold GetConsumersInSet in Hc. apply filter_In in Hc as [Hc _].
    by apply list_elem_of_In.
  - right. destruct (vc !! node) as [c'|]; [|done].
    destruct Hc as [->|[]]. done.
Qed.

Lemma topo_sweep_subset g vc tmp : forall ns order ns' order',
  topo_sweep g vc tmp ns order = (ns', order') -> ns' ⊆ ns.
Proof.
  induction tmp as [|node rest IH]; intros ns order ns' order' Hsw; simpl in Hsw.
  - by inversion Hsw; subst.
  - destruct (existsb _ _).
    + eauto.
    + apply IH in Hsw. set_solver.
Qed.

Lemma topo_sweep_erases g vc m tmp : forall ns order ns' order',
  m ∈ tmp -> (forall c, edge g vc m c -> c ∉ ns) ->
  topo_sweep g vc tmp ns order = (ns', order') -> m ∉ ns'.
Proof.
  induction tmp as [|node rest IH]; intros ns order ns' order' Hm Hsink Hsw.
  - by apply elem_of_nil in Hm.
  - simpl in Hsw. destruct (existsb _ (FindConsumers g node ns vc)) eqn:Hex.
    + apply elem_of_cons in Hm as [->|Hm]; [|eauto].
      apply blocked_has_consumer in Hex as (c & Hedge & Hc).
      by destruct (Hsink c Hedge).
    + apply elem_of_cons in Hm as [->|Hm].
      * apply topo_sweep_subset in Hsw. set_solver.
      * eapply IH; [exact Hm| |exact Hsw]. intros c Hc. specialize (Hsink c Hc).
        set_solver.
Qed.

Section acyclic.
Context (g : Graph) (vc : gmap string string) (rank : string -> nat).

Lemma ranked_has_sink ns n : forall x,
  ranked g vc rank ns -> x ∈ ns -> (rank x <= n)%nat ->
  exists m, m ∈ ns /\ forall c, edge g vc m c -> c ∉ ns.
Proof.
  induction n as [|n IH]; intros x Hr Hx Hle.
  - exists x. split; [done|]. intros c Hedge Hc.
    specialize (Hr x c Hx Hc Hedge). lia.
  - destruct (existsb (fun consumer => bool_decide (consumer ∈ ns))
                (FindConsumers g x ns vc)) eqn:Hex.
    + apply blocked_has_consumer in Hex as (c & Hedge & Hc).
      apply (IH c); [done|done|]. specialize (Hr x c Hx Hc Hedge). lia.
    + exists x. split; [done|]. intros c. by apply erasable_no_consumer.
Qed.

Lemma topo_sweep_progress ns order ns' order' :
  ranked g vc rank ns -> ns <> ∅ ->
  topo_sweep g vc (merge_sort NodeCompare_le (elements ns)) ns order
    = (ns', order') ->
  ns' ⊂ ns.
Proof.
  intros Hr Hne Hsw.
  apply set_choose_L in Hne as [x Hx].
  destruct (ranked_has_sink ns (rank x) x Hr Hx) as (m & Hm & Hsink); [lia|].
  destruct (sorted_elements_spec ns) as [_ Hel].
  pose proof (topo_sweep_subset _ _ _ _ _ _ _ Hsw) as Hsub.
  assert (m ∉ ns') as Hnot.
  { eapply topo_sweep_erases; [|exact Hsink|exact Hsw]. by apply Hel. }
  set_solver.
Qed.

Lemma topo_loop_terminates fuel : forall ns order,
  ranked g vc rank ns -> (size ns <= fuel)%nat ->
  exists result, topo_loop fuel g vc ns order = Some result.
Proof.
  induction fuel as [|fuel IH]; intros ns order Hr Hsz; simpl.
  - destruct (decide (ns = ∅)) as [->|Hne]; [eauto|].
    assert (size ns = 0%nat) as Hz by lia.
    apply size_empty_inv in Hz. by apply leibniz_equiv in Hz.
  - destruct (decide (ns = ∅)) as [->|Hne]; [eauto|].
    destruct (topo_sweep _ _ _ _ _) as [ns' order'] eqn:Hsw.
    pose proof (topo_sweep_progress _ _ _ _ Hr Hne Hsw) as Hlt.
    apply IH.
    + intros p c Hp Hc. apply Hr; set_solver.
    + apply subset_size in Hlt. lia.
Qed.
End acyclic.

Lemma TopologicalOrder_sound fuel g group vc nodes_in_order :
  TopologicalOrder fuel g group vc = Some nodes_in_order ->
  NoDup nodes_in_order /\
  (forall x, x ∈ nodes_in_order <-> x ∈ group) /\
  forall p c, p ∈ group -> c ∈ group -> edge g vc p c ->
    exists i j, nodes_in_order !! i = Some c /\ nodes_in_order !! j = Some p /\
                (i < j)%nat.
Proof.
  intros Hrun. unfold TopologicalOrder in Hrun.
  apply (topo_loop_inv g vc group) in Hrun; [|apply topo_inv_init].
  destruct Hrun as [_ Hcov Hdis Hnod Hed].
  split; [done|]. split.
  - intros x. split; [intros Hx; by destruct (Hdis x Hx)|].
    intros Hx. destruct (Hcov x Hx) as [Hx'|]; [|done]. set_solver.
  - intros p c Hp Hc Hedge.
    destruct (Hcov p Hp) as [Hp'|Hp']; [set_solver|].
    apply list_elem_of_lookup in Hp' as [j Hj].
    destruct (Hed j p c Hj Hc Hedge) as (i & Hi & Hic). eauto.
Qed.

(** C1 (as amended).  On an acyclic group (every real or virtual edge inside
    the group lowers [rank]), [TopologicalOrder] returns, within
    [size group] sweeps, a sequence that lists every node of the group exactly
    once and in which, for every real or virtual producer-to-consumer edge
    inside the group, the consumer stands strictly before the producer. *)
Theorem TopologicalOrder_consumers_first g group vc (rank : string -> nat) :
  ranked g vc rank group ->
  exists nodes_in_order,
    TopologicalOrder (size group) g group vc = Some nodes_in_order /\
    NoDup nodes_in_order /\
    (forall x, x ∈ nodes_in_order <-> x ∈ group) /\
    forall p c, p ∈ group -> c ∈ group -> edge g vc p c ->
      exists i j, nodes_in_order !! i = Some c /\
                  nodes_in_order !! j = Some p /\ (i < j)%nat.
Proof.
  intros Hr.
  destruct (topo_loop_terminates g vc rank (size group) group [] Hr)
    as [order Horder]; [lia|].
  exists order. split; [exact Horder|].
  by apply (TopologicalOrder_sound (size group) g group vc).
Qed.

Lemma chain_ranked : ranked chain_graph ∅ chain_rank chain_group.
Proof.
  intros p c Hp Hc [Hreal|Hvirt]; [|by rewrite lookup_empty in Hvirt].
  unfold chain_group in Hp, Hc.
  apply elem_of_union in Hp as [Hp%elem_of_singleton|Hp%elem_of_singleton];
    subst p; vm_compute in Hreal.
  - apply list_elem_of_singleton in Hreal. subst c. vm_compute. lia.
  - by apply elem_of_nil in Hreal.
Qed.

Lemma TopologicalOrder_consumers_first_witness :
  exists nodes_in_order,
    TopologicalOrder (size chain_group) chain_graph chain_group ∅
      = Some nodes_in_order /\
    NoDup nodes_in_order /\
    (forall x, x ∈ nodes_in_order <-> x ∈ chain_group) /\
    forall p c, p ∈ chain_group -> c ∈ chain_group ->
      edge chain_graph ∅ p c ->
      exists i j, nodes_in_order !! i = Some c /\
                  nodes_in_order !! j = Some p /\ (i < j)%nat.
Proof.
  apply (TopologicalOrder_consumers_first chain_graph chain_group ∅ chain_rank).
  exact chain_ranked.
Defined.

(** C1 (as stated) fails: on the chain ["a"] -> ["b"] the returned sequence
    is [["b"; "a"]], so the producer ["a"] does not precede its consumer. *)
Lemma TopologicalOrder_producer_not_first :
  TopologicalOrder 2 chain_graph chain_group ∅ = Some ["b"; "a"] /\
  "a" ∈ chain_group /\ "b" ∈ chain_group /\ edge chain_graph ∅ "a" "b" /\
  ~ (forall i j : nat, ["b"; "a"] !! i = Some "a" -> ["b"; "a"] !! j = Some "b" ->
       (i < j)%nat).
Proof.
  split; [by vm_compute|]. split; [set_solver|]. split; [set_solver|].
  split; [left; vm_compute; by left|].
  intros H. specialize (H 1%nat 0%nat eq_refl eq_refl). lia.
Qed.

(** ** Reduction strategy selection: [WithoutLastDimInReduce] *)

Lemma size_t_of_inj a b :
  - 2 ^ 63 <= a < 2 ^ 63 -> - 2 ^ 63 <= b < 2 ^ 63 ->
  size_t_of a = size_t_of b -> a = b.
Proof.
  unfold size_t_of. intros Ha Hb Heq.
  change (2 ^ 64) with 18446744073709551616 in Heq.
  change (2 ^ 63) with 9223372036854775808 in Ha, Hb.
  Z.div_mod_to_equations. lia.
Qed.

Lemma existsb_Zeqb_elem (f : Z -> Z) (x : Z) (l : list Z) :
  existsb (fun a => f a =? x) l = true <-> exists a, a ∈ l /\ f a = x.
Proof.
  rewrite existsb_exists. split.
  - intros (a & Ha & Heq). exists a. split; [by apply list_elem_of_In|lia].
  - intros (a & Ha & Heq). exists a. split; [by apply list_elem_of_In|lia].
Qed.

Lemma last_elem_of (l : list Z) d : l <> [] -> List.last l d ∈ l.
Proof.
  induction l as [|x l IH]; [done|]. intros _.
  destruct l as [|y l]; [by left|].
  right. apply IH. done.
Qed.

Lemma mul_from_drop shape a :
  0 <= a <= int_max ->
  mul_from shape a 1 = accumulate_mul (drop (Z.to_nat a) shape).
Proof.
  unfold int_max, mul_from, accumulate_mul, size_t_of, vsize. intros Ha.
  rewrite Z.mod_small by lia.
  destruct (a <? Z.of_nat (length shape)) eqn:Hlt; [done|].
  rewrite drop_ge by lia. done.
Qed.

Lemma WithoutLastDimInReduce_int_iff (shape axes : list Z) :
  Forall is_int axes ->
  vsize shape <= int_max ->
  WithoutLastDimInReduce shape axes = true <->
    axes <> [] /\ (vsize shape - 1 ∉ axes) /\ (-1 ∉ axes) /\
    0 <= List.last axes 0 /\
    1 < accumulate_mul (drop (Z.to_nat (List.last axes 0 + 1)) shape).
Proof.
  intros Hax Hlen. unfold WithoutLastDimInReduce.
  assert (0 <= vsize shape) as Hpos by (unfold vsize; lia).
  case_bool_decide as Hnil; [split; [done|tauto]|].
  destruct (existsb (fun a => size_t_of a =? size_t_of (vsize shape - 1)) axes)
    eqn:Hlast.
  { simpl. split; [done|]. intros (_ & Hnot & _). exfalso. apply Hnot.
    apply existsb_Zeqb_elem in Hlast as (a & Ha & Heq).
    rewrite Forall_forall in Hax. specialize (Hax a Ha).
    unfold is_int, int_min, int_max in *.
    apply size_t_of_inj in Heq; [by subst|lia|lia]. }
  destruct (existsb (fun a => a =? -1) axes) eqn:Hneg.
  { simpl. split; [done|]. intros (_ & _ & Hnot & _). exfalso. apply Hnot.
    apply (existsb_Zeqb_elem (fun a => a)) in Hneg as (a & Ha & Heq). by subst. }
  simpl.
  assert (-1 ∉ axes) as Hno_neg.
  { intros Hin. assert (existsb (fun a => a =? -1) axes = true) as Ht; [|congruence].
    apply (existsb_Zeqb_elem (fun a => a)). eauto. }
  assert (vsize shape - 1 ∉ axes) as Hno_last.
  { intros Hin.
    assert (existsb (fun a => size_t_of a =? size_t_of (vsize shape - 1)) axes = true)
      as Ht; [|congruence].
    apply existsb_Zeqb_elem. eauto. }
  pose proof (last_elem_of axes 0 Hnil) as Hl.
  assert (is_int (List.last axes 0)) as Hrange.
  { rewrite Forall_forall in Hax. by apply Hax. }
  unfold is_int, int_min, int_max in Hrange, Hlen.
  destruct (decide (0 <= List.last axes 0 < 2 ^ 31 - 1)) as [Hin|Hout].
  - rewrite wrap_id by (unfold is_int, int_min, int_max; lia).
    rewrite mul_from_drop by (unfold int_max; lia).
    destruct (accumulate_mul _ >? 1) eqn:Hgt; split; intros H; try done.
    + repeat split; try done; lia.
    + destruct H as (_ & _ & _ & _ & H). lia.
  - (* the first index is negative as a [size_t] it is past the end *)
    assert (mul_from shape (wrap (List.last axes 0 + 1)) 1 = 1) as ->.
    { unfold mul_from.
      assert (vsize shape <= size_t_of (wrap (List.last axes 0 + 1))) as Hbig.
      { assert (- 2 ^ 31 <= wrap (List.last axes 0 + 1) < 0) as Hw.
        { destruct (decide (List.last axes 0 = 2 ^ 31 - 1)) as [->|Hne].
          - by vm_compute.
          - rewrite wrap_id by (unfold is_int, int_min, int_max; lia).
            assert (List.last axes 0 <> -1) by (intros Heq; by rewrite Heq in Hl).
            lia. }
        unfold size_t_of.
        change (2 ^ 64) with 18446744073709551616.
        change (2 ^ 31) with 2147483648 in *.
        Z.div_mod_to_equations. lia. }
      destruct (_ <? _) eqn:Hlt; [lia|done]. }
    split; [done|]. intros (_ & _ & _ & Hge & Hprod).
    destruct (decide (List.last axes 0 = 2 ^ 31 - 1)) as [Heq|Hne]; [|lia].
    rewrite drop_ge in Hprod; [by vm_compute in Hprod|].
    unfold vsize in Hlen. lia.
Qed.

(** C5 (as amended).  For a shape of at most [INT_MAX] dimensions and any
    list of [int] axes, the without-last strategy is selected exactly when
    the axes list is non-empty, contains neither the last dimension index
    nor [-1], ends in an axis that is not negative, and the product of the
    dimensions after that axis exceeds 1 - the product as the code computes
    it in [int], which is the exact product whenever those dimensions are
    positive and their product fits. *)
Theorem WithoutLastDimInReduce_iff (shape axes : list Z) :
  Forall is_int axes ->
  vsize shape <= int_max ->
  let trailing := drop (Z.to_nat (List.last axes 0 + 1)) shape in
  (WithoutLastDimInReduce shape axes = true <->
     axes <> [] /\ (vsize shape - 1 ∉ axes) /\ (-1 ∉ axes) /\
     0 <= List.last axes 0 /\ 1 < accumulate_mul trailing) /\
  (shape_ok trailing ->
   (WithoutLastDimInReduce shape axes = true <->
      axes <> [] /\ (vsize shape - 1 ∉ axes) /\ (-1 ∉ axes) /\
      0 <= List.last axes 0 /\ 1 < product trailing)).
Proof.
  intros Hax Hlen trailing.
  pose proof (WithoutLastDimInReduce_int_iff shape axes Hax Hlen) as Hiff.
  fold trailing in Hiff. split; [exact Hiff|].
  intros Hok. rewrite <- (accumulate_mul_product trailing Hok). exact Hiff.
Qed.

Lemma WithoutLastDimInReduce_iff_witness :
  let trailing := drop (Z.to_nat (List.last [1; 3] 0 + 1)) [16; 16; 16; 16; 16] in
  (WithoutLastDimInReduce [16; 16; 16; 16; 16] [1; 3] = true <->
     [1; 3] <> [] /\ (vsize [16; 16; 16; 16; 16] - 1 ∉ [1; 3]) /\
     (-1 ∉ [1; 3]) /\ 0 <= List.last [1; 3] 0 /\
     1 < accumulate_mul trailing) /\
  (shape_ok trailing ->
   (WithoutLastDimInReduce [16; 16; 16; 16; 16] [1; 3] = true <->
      [1; 3] <> [] /\ (vsize [16; 16; 16; 16; 16] - 1 ∉ [1; 3]) /\
      (-1 ∉ [1; 3]) /\ 0 <= List.last [1; 3] 0 /\
      1 < product trailing)).
Proof.
  apply (WithoutLastDimInReduce_iff [16; 16; 16; 16; 16] [1; 3]).
  - repeat constructor; by vm_compute.
  - vm_compute. discriminate.
Defined.

Example WithoutLastDimInReduce_ex1 :
  WithoutLastDimInReduce [16; 16; 16; 16; 16] [1; 3] = true.
Proof. reflexivity. Qed.

Example WithoutLastDimInReduce_ex2 :
  WithoutLastDimInReduce [4; 8; 1] [1] = false.
Proof. reflexivity. Qed.

Example WithoutLastDimInReduce_ex3 :
  WithoutLastDimInReduce [4; 8] [] = false.
Proof. reflexivity. Qed.

(** A negative axis other than [-1]: the loop starts at a negative index,
    which is past the end as a [size_t], and multiplies nothing. *)
Example WithoutLastDimInReduce_negative_axis :
  WithoutLastDimInReduce [4; 8; 16] [-2] = false.
Proof. reflexivity. Qed.

(** C5 (as stated) fails: with shape [[4; 8; 1]] and axes [[1]] the axes are
    non-empty and do not contain the last dimension index 2, yet the
    function returns [false]. *)
Lemma WithoutLastDimInReduce_trailing_one :
  ~ (WithoutLastDimInReduce [4; 8; 1] [1] = true <->
       [1] <> [] /\ (vsize [4; 8; 1] - 1 ∉ [1])).
Proof.
  intros [_ H]. assert (WithoutLastDimInReduce [4; 8; 1] [1] = true) as Ht.
  { apply H. split; [done|]. vm_compute.
    intros Hin%list_elem_of_singleton. discriminate. }
  vm_compute in Ht. discriminate.
Qed.

(** ** Fusibility Classifier: [FindReducerInRoute] and [CanbeInline] *)

Lemma route_visit_inl g cs : forall q r,
  route_visit g cs q = inl r -> r ∈ cs /\ op_pattern_dict g r = kReduction.
Proof.
  induction cs as [|c cs IH]; intros q r H; simpl in H; [done|].
  unfold is_reduction in H. case_bool_decide as Hred.
  - inversion H; subst. split; [by left|done].
  - apply IH in H as [? ?]. split; [by right|done].
Qed.

Lemma route_visit_inr g cs : forall q q',
  route_visit g cs q = inr q' ->
  q' = q ++ cs /\ Forall (fun c => op_pattern_dict g c <> kReduction) cs.
Proof.
  induction cs as [|c cs IH]; intros q q' H; simpl in H.
  - inversion H; subst. by rewrite app_nil_r.
  - unfold is_reduction in H. case_bool_decide as Hred; [done|].
    apply IH in H as [-> Hall]. split; [by rewrite <- app_assoc|].
    by constructor.
Qed.

Section route.
Context (g : Graph) (nodes_set : gset string) (visitor : Visitor).
Let visit := fun n => visitor g n nodes_set.

Lemma route_loop_found fuel : forall q r,
  route_loop fuel g nodes_set visitor q = Some (Some r) ->
  exists x, x ∈ q /\ reaches_reducer g visit x.
Proof.
  induction fuel as [|fuel IH]; intros q r H; simpl in H; [done|].
  destruct q as [|x rest]; [done|].
  destruct (route_visit g (visitor g x nodes_set) rest) as [r'|q'] eqn:Hv.
  - apply route_visit_inl in Hv as [Hin Hred].
    exists x. split; [by left|]. by eapply reaches_here.
  - apply route_visit_inr in Hv as [-> Hall].
    apply IH in H as (y & Hy & Hreach).
    apply elem_of_app in Hy as [Hy|Hy].
    + exists y. split; [by right|done].
    + exists x. split; [by left|]. by eapply reaches_step.
Qed.

Lemma route_loop_absent fuel : forall q,
  route_loop fuel g nodes_set visitor q = Some None ->
  forall x, x ∈ q -> ~ reaches_reducer g visit x.
Proof.
  induction fuel as [|fuel IH]; intros q H; simpl in H; [done|].
  destruct q as [|x rest]; [intros y Hy; by apply elem_of_nil in Hy|].
  destruct (route_visit g (visitor g x nodes_set) rest) as [r'|q'] eqn:Hv; [done|].
  apply route_visit_inr in Hv as [-> Hall].
  specialize (IH _ H). rewrite Forall_forall in Hall.
  assert (~ reaches_reducer g visit x) as Hx.
  { intros Hr. inversion Hr as [n c Hc Hred|n c Hc Hreach]; subst.
    - by apply (Hall c).
    - apply (IH c); [|done]. apply elem_of_app. by right. }
  intros y [->|Hy]%elem_of_cons; [done|].
  apply IH. apply elem_of_app. by left.
Qed.

Context (D : string -> Prop) (rank : string -> nat).
Hypothesis D_closed : forall n c, D n -> c ∈ visit n -> D c.
Hypothesis rank_lowers : forall n c, D n -> c ∈ visit n -> (rank c < rank n)%nat.

Lemma sum_list_with_le (f f' : string -> nat) (l : list string) :
  (forall x, x ∈ l -> (f x <= f' x)%nat) ->
  (sum_list_with f l <= sum_list_with f' l)%nat.
Proof.
  induction l as [|x l IH]; intros H; simpl; [lia|].
  pose proof (H x ltac:(by left)).
  assert (sum_list_with f l <= sum_list_with f' l)%nat; [|lia].
  apply IH. intros y Hy. apply H. by right.
Qed.

Lemma route_cost_S h : forall n,
  (route_cost visit h n <= route_cost visit (S h) n)%nat.
Proof.
  induction h as [|h IH]; intros n; [simpl; lia|].
  change (S (sum_list_with (route_cost visit h) (visit n))
          <= S (sum_list_with (route_cost visit (S h)) (visit n)))%nat.
  apply le_n_S, sum_list_with_le. intros x _. apply IH.
Qed.

Lemma route_cost_mono h h' n :
  (h <= h')%nat -> (route_cost visit h n <= route_cost visit h' n)%nat.
Proof.
  induction 1 as [|h' _ IH]; [lia|].
  etransitivity; [exact IH|apply route_cost_S].
Qed.

Lemma route_cost_children n :
  D n ->
  (queue_cost visit rank (visit n) < route_cost visit (rank n) n)%nat.
Proof.
  intros Hn. unfold queue_cost.
  destruct (rank n) as [|r] eqn:Hr.
  - destruct (visit n) as [|c cs] eqn:Hv; [simpl; lia|].
    pose proof (rank_lowers n c Hn) as Hc. rewrite Hv in Hc.
    specialize (Hc ltac:(by left)). lia.
  - simpl. apply Nat.lt_succ_r, sum_list_with_le. intros c Hc.
    apply route_cost_mono. specialize (rank_lowers n c Hn Hc). lia.
Qed.

Lemma route_loop_terminates fuel : forall q,
  Forall D q -> (queue_cost visit rank q < fuel)%nat ->
  route_loop fuel g nodes_set visitor q <> None.
Proof.
  induction fuel as [|fuel IH]; intros q HD Hcost; [lia|]. simpl.
  destruct q as [|x rest]; [done|].
  destruct (route_visit g (visitor g x nodes_set) rest) as [r'|q'] eqn:Hv; [done|].
  apply route_visit_inr in Hv as [-> _].
  apply Forall_cons in HD as [Hx Hrest].
  apply IH.
  - apply Forall_app. split; [done|]. apply Forall_forall. intros c Hc.
    by apply (D_closed x).
  - pose proof (route_cost_children x Hx) as Hlt.
    unfold queue_cost, visit in *. rewrite sum_list_with_app. simpl in Hcost.
    lia.
Qed.

Lemma FindReducerInRoute_spec fuel node :
  D node -> (queue_cost visit rank [node] < fuel)%nat ->
  exists r, FindReducerInRoute fuel g node nodes_set visitor = Done r /\
            (r <> None <-> reaches_reducer g visit node).
Proof.
  intros Hn Hfuel. unfold FindReducerInRoute.
  pose proof (route_loop_terminates fuel [node]) as Hterm.
  destruct (route_loop fuel g nodes_set visitor [node]) as [[r|]|] eqn:Hrun.
  - exists (Some r). split; [done|]. split; [|done]. intros _.
    apply route_loop_found in Hrun as (x & Hx%list_elem_of_singleton & Hr).
    by subst.
  - exists None. split; [done|]. split; [done|]. intros Hr. exfalso.
    eapply route_loop_absent in Hrun; [by apply Hrun|]. by left.
  - exfalso. apply Hterm; [|done|done]. by constructor.
Qed.
End route.

Lemma existsb_is_reduction g (l : list string) :
  Exists (fun c => op_pattern_dict g c = kReduction) l <->
  existsb (is_reduction g) l = true.
Proof.
  rewrite Exists_exists, existsb_exists. unfold is_reduction. split.
  - intros (x & Hin & Hred). exists x. split; [by apply list_elem_of_In|].
    by apply bool_decide_eq_true.
  - intros (x & Hin & Hred). exists x. split; [by apply list_elem_of_In|].
    by apply bool_decide_eq_true in Hred.
Qed.

Lemma GetConsumersInSet_in g n ns c : c ∈ GetConsumersInSet g n ns -> c ∈ ns.
Proof.
  unfold GetConsumersInSet. intros H%list_elem_of_In%filter_In.
  destruct H as [_ H]. by apply bool_decide_eq_true in H.
Qed.

Lemma GetProducersInSet_in g n ns p : p ∈ GetProducersInSet g n ns -> p ∈ ns.
Proof.
  unfold GetProducersInSet. intros H%list_elem_of_In%filter_In.
  destruct H as [_ H]. by apply bool_decide_eq_true in H.
Qed.

(** C2.  On an acyclic group with the needed shapes present, [CanbeInline]
    returns (for every sufficient number of search steps) exactly the
    verdict of the ordered rules: output node - no; constant operator - yes;
    some consumer is a Reduction - no; the node is a Reduction - no; exactly
    one consumer - yes; otherwise, with a global reducer, yes iff a reducer
    is reachable through consumers, none through producers, and the node's
    output element count differs from the reducer's input element count;
    without one, yes iff the count differs from the last node's. *)
Theorem CanbeInline_rules g node consumers reducer laster
    output_nodes nodes_set (shape_dict : gmap string (list Z))
    (rank_c rank_p : string -> nat) (node_shape reducer_shape last_shape : list Z) :
  node ∈ nodes_set ->
  (forall n c, n ∈ nodes_set -> c ∈ GetConsumersInSet g n nodes_set ->
     (rank_c c < rank_c n)%nat) ->
  (forall n p, n ∈ nodes_set -> p ∈ GetProducersInSet g n nodes_set ->
     (rank_p p < rank_p n)%nat) ->
  GetOutputShape g node shape_dict = Done node_shape ->
  shape_ok node_shape ->
  (forall r, reducer = Some r ->
     GetInputShape g r shape_dict = Done reducer_shape /\ shape_ok reducer_shape) ->
  (reducer = None ->
     GetOutputShape g laster shape_dict = Done last_shape /\ shape_ok last_shape) ->
  exists fuel0, forall fuel, (fuel0 <= fuel)%nat ->
    exists b,
      CanbeInline fuel g node consumers reducer laster output_nodes nodes_set
        shape_dict = Done b /\
      (b = true <->
       can_inline g node consumers reducer output_nodes nodes_set
         (product node_shape) (product reducer_shape) (product last_shape)).
Proof.
  intros Hnode Hrc Hrp Hns Hnok Hred Hlast.
  set (vc := fun n => GetConsumersInSet g n nodes_set).
  set (vp := fun n => GetProducersInSet g n nodes_set).
  exists (S (Nat.max (queue_cost vc rank_c [node]) (queue_cost vp rank_p [node]))).
  intros fuel Hfuel.
  unfold CanbeInline, can_inline, IsConstOp.
  destruct (decide (node ∈ output_nodes)) as [Hout|Hout].
  { rewrite bool_decide_eq_true_2 by done. exists false. by split. }
  rewrite bool_decide_eq_false_2 by done.
  destruct (decide (op_name g node ∈ ["const_scalar"; "fill_constant"; "arange"]))
    as [Hconst|Hconst].
  { rewrite bool_decide_eq_true_2 by done. exists true. by split. }
  rewrite bool_decide_eq_false_2 by done.
  destruct (decide (Exists (fun c => op_pattern_dict g c = kReduction) consumers))
    as [Hex|Hex].
  { apply existsb_is_reduction in Hex. rewrite Hex. exists false. by split. }
  assert (existsb (is_reduction g) consumers = false) as ->.
  { destruct (existsb (is_reduction g) consumers) eqn:Hb; [|done].
    by apply existsb_is_reduction in Hb. }
  unfold is_reduction at 1.
  destruct (decide (op_pattern_dict g node = kReduction)) as [Hself|Hself].
  { rewrite bool_decide_eq_true_2 by done. exists false. by split. }
  rewrite bool_decide_eq_false_2 by done.
  destruct (decide (length consumers = 1%nat)) as [Hone|Hone].
  { assert ((vsize consumers =? 1) = true) as ->
      by (apply Z.eqb_eq; unfold vsize; lia).
    exists true. by split. }
  assert ((vsize consumers =? 1) = false) as ->
    by (apply Z.eqb_neq; unfold vsize; lia).
  destruct reducer as [r|].
  - destruct (Hred r eq_refl) as [Hrs Hrok].
    destruct (FindReducerInRoute_spec g nodes_set GetConsumersInSet
                (fun n => n ∈ nodes_set) rank_c
                (fun n c _ Hc => GetConsumersInSet_in g n nodes_set c Hc)
                Hrc fuel node Hnode) as (rc & Hrun_c & Hiff_c); [fold vc; lia|].
    destruct (FindReducerInRoute_spec g nodes_set GetProducersInSet
                (fun n => n ∈ nodes_set) rank_p
                (fun n c _ Hc => GetProducersInSet_in g n nodes_set c Hc)
                Hrp fuel node Hnode) as (rp & Hrun_p & Hiff_p); [fold vp; lia|].
    rewrite Hrun_c. simpl.
    destruct rc as [rc|].
    + rewrite Hrun_p. simpl. destruct rp as [rp|].
      * exists false. split; [done|]. split; [done|].
        intros (_ & Hnp & _). exfalso. apply Hnp. by apply Hiff_p.
      * rewrite Hns, Hrs. simpl.
        rewrite (accumulate_mul_product node_shape Hnok).
        rewrite (accumulate_mul_product reducer_shape Hrok).
        assert (reaches_reducer g vc node) as Hc by (by apply Hiff_c).
        assert (~ reaches_reducer g vp node) as Hp.
        { intros Hp. apply Hiff_p in Hp. done. }
        destruct (product node_shape =? product reducer_shape) eqn:Heq.
        -- exists false. split; [done|]. split; [done|].
           intros (_ & _ & Hne). lia.
        -- exists true. split; [done|]. split; [|done]. intros _.
           repeat split; [done|done|lia].
    + exists false. split; [done|]. split; [done|].
      intros (Hc & _). apply Hiff_c in Hc. done.
  - destruct (Hlast eq_refl) as [Hls Hlok].
    rewrite Hns, Hls. simpl.
    rewrite (accumulate_mul_product node_shape Hnok).
    rewrite (accumulate_mul_product last_shape Hlok).
    destruct (product node_shape =? product last_shape) eqn:Heq.
    + exists false. split; [done|]. split; [done|]. lia.
    + exists true. split; [done|]. split; [|done]. intros _. lia.
Qed.

Ltac split_group H :=
  repeat (apply elem_of_union in H as [H|H]);
  apply elem_of_singleton in H; subst.

Ltac split_list H :=
  repeat (apply elem_of_cons in H as [->|H]); try (by apply elem_of_nil in H).

Lemma reduce_graph_rank_c n c :
  n ∈ reduce_group -> c ∈ GetConsumersInSet reduce_graph n reduce_group ->
  (reduce_rank_c c < reduce_rank_c n)%nat.
Proof.
  intros Hn Hc. unfold reduce_group in Hn.
  split_group Hn; vm_compute in Hc; split_list Hc; cbv; lia.
Qed.

Lemma reduce_graph_rank_p n p :
  n ∈ reduce_group -> p ∈ GetProducersInSet reduce_graph n reduce_group ->
  (reduce_rank_p p < reduce_rank_p n)%nat.
Proof.
  intros Hn Hp. unfold reduce_group in Hn.
  split_group Hn; vm_compute in Hp; split_list Hp; cbv; lia.
Qed.

Lemma shape_ok_8 : shape_ok [8].
Proof. split; [repeat constructor; lia|by vm_compute]. Qed.

Lemma shape_ok_4_8 : shape_ok [4; 8].
Proof. split; [repeat constructor; lia|by vm_compute]. Qed.

Lemma CanbeInline_rules_witness :
  exists fuel0, forall fuel, (fuel0 <= fuel)%nat ->
    exists b,
      CanbeInline fuel reduce_graph "a" ["b"; "c"] (Some "r") "a"
        reduce_outputs reduce_group reduce_shapes = Done b /\
      (b = true <->
       can_inline reduce_graph "a" ["b"; "c"] (Some "r") reduce_outputs
         reduce_group (product [8]) (product [4; 8]) (product [8])).
Proof.
  apply (CanbeInline_rules reduce_graph "a" ["b"; "c"] (Some "r") "a"
           reduce_outputs reduce_group reduce_shapes
           reduce_rank_c reduce_rank_p [8] [4; 8] [8]).
  - unfold reduce_group. set_solver.
  - exact reduce_graph_rank_c.
  - exact reduce_graph_rank_p.
  - reflexivity.
  - exact shape_ok_8.
  - intros r Hr. split; [|exact shape_ok_4_8]. inversion Hr; subst. reflexivity.
  - discriminate.
Defined.

Example CanbeInline_reduce_a :
  CanbeInline 5 reduce_graph "a" ["b"; "c"] (Some "r") "a"
    reduce_outputs reduce_group reduce_shapes = Done true.
Proof. by vm_compute. Qed.

Example CanbeInline_reduce_b :
  CanbeInline 5 reduce_graph "b" ["r"] (Some "r") "a"
    reduce_outputs reduce_group reduce_shapes = Done false.
Proof. by vm_compute. Qed.

(** ** Reduction Loop Planner *)

Lemma last_at_ {A} (l : list A) (x : A) :
  last l = Some x -> at_ l (vsize l - 1) = Some x /\ (0 < length l)%nat.
Proof.
  intros Hl. rewrite last_lookup in Hl.
  pose proof (lookup_lt_Some _ _ _ Hl) as Hlt.
  unfold at_, vsize. split; [|lia].
  destruct (Z.of_nat (length l) - 1 <? 0) eqn:Hneg; [lia|].
  replace (Z.to_nat (Z.of_nat (length l) - 1)) with (pred (length l)) by lia.
  done.
Qed.

Lemma trailing_lane (inshape : list Z) (a : Z) :
  0 <= a < int_max ->
  Forall (fun d => 1 <= d) inshape ->
  product (drop (Z.to_nat (a + 1)) inshape) <= int_max ->
  mul_from inshape (wrap (a + 1)) 1 = product (drop (Z.to_nat (a + 1)) inshape).
Proof.
  intros Ha Hdims Hmax.
  rewrite wrap_id by (unfold is_int, int_min, int_max in *; lia).
  rewrite mul_from_drop by lia.
  apply accumulate_mul_product. split; [by apply Forall_drop|done].
Qed.

(** C4.  When the product of the input dimensions after the last reduce
    axis exceeds [max_num_threads / 2], [LoopAssignReduceWithoutLast] fails
    its [CHECK_LE] and leaves the schedule exactly as it received it. *)
Theorem LoopAssignReduceWithoutLast_lane_check `{ScheduleOracle}
    (block_name : string) (inshape axes : list Z) (max_num_threads a : Z)
    (s : list Cmd) :
  last axes = Some a ->
  0 <= a < int_max ->
  Forall (fun d => 1 <= d) inshape ->
  product (drop (Z.to_nat (a + 1)) inshape) <= int_max ->
  Z.quot max_num_threads 2 < product (drop (Z.to_nat (a + 1)) inshape) ->
  LoopAssignReduceWithoutLast block_name inshape axes max_num_threads s
    = (s, Abort (CheckFailed "lane <= max_num_threads / 2")).
Proof.
  intros Hlast Ha Hdims Hmax Hlane.
  unfold LoopAssignReduceWithoutLast.
  destruct (last_at_ axes a Hlast) as [_ Hlen].
  destruct (vsize axes =? 0) eqn:Hz; [unfold vsize in Hz; lia|].
  unfold sbind, lift, back. rewrite Hlast. simpl.
  rewrite trailing_lane by done.
  destruct (product (drop (Z.to_nat (a + 1)) inshape) <=? Z.quot max_num_threads 2)
    eqn:Hle; [lia|]. done.
Qed.

Lemma LoopAssignReduceWithoutLast_lane_check_witness :
  @LoopAssignReduceWithoutLast wide_oracle "B" [4; 2048] [0] 1024 []
    = ([], Abort (CheckFailed "lane <= max_num_threads / 2")).
Proof.
  apply (@LoopAssignReduceWithoutLast_lane_check wide_oracle
           "B" [4; 2048] [0] 1024 0 []).
  - reflexivity.
  - unfold int_max. lia.
  - repeat constructor; lia.
  - by vm_compute.
  - by vm_compute.
Defined.

Lemma with_last_split_loop_spec lane half : forall n idx,
  n = Z.to_nat (idx - half) -> half <= idx -> 1 <= idx ->
  (1 <= half \/ idx = 1) ->
  (exists d, with_last_split_loop n lane idx half = Done (Some d) /\
             half <= d <= idx /\ (d | lane) /\
             forall d', d < d' <= idx -> ~ (d' | lane))
  \/ (with_last_split_loop n lane idx half = Done None /\
      forall d', half <= d' <= idx -> ~ (d' | lane)).
Proof.
  induction n as [|n IH]; intros idx Hn Hle Hpos Hhalf.
  - assert (idx = half) as -> by lia. simpl. unfold int_rem.
    destruct (half =? 0) eqn:Hz; [lia|]. simpl.
    destruct (Z.rem lane half =? 0) eqn:Hr.
    + left. exists half. split; [done|]. split; [lia|]. split; [|lia].
      apply Z.rem_divide; lia.
    + right. split; [done|]. intros d' Hd' Hdiv. assert (d' = half) as -> by lia.
      apply Z.rem_divide in Hdiv; lia.
  - simpl. unfold int_rem. destruct (idx =? 0) eqn:Hz; [lia|]. simpl.
    destruct (Z.rem lane idx =? 0) eqn:Hr.
    + left. exists idx. split; [done|]. split; [lia|]. split; [|lia].
      apply Z.rem_divide; lia.
    + assert (~ (idx | lane)) as Hnot.
      { intros Hdiv. apply Z.rem_divide in Hdiv; lia. }
      assert (idx <> 1) as Hne1.
      { intros ->. rewrite Z.rem_1_r in Hr. lia. }
      destruct (idx - 1 >=? half) eqn:Hge; [|cmp_lia].
      destruct (IH (idx - 1)) as [(d & Hrun & Hd & Hdiv & Hmax)|[Hrun Hnone]];
        [cmp_lia|cmp_lia|cmp_lia|cmp_lia| |].
      * left. exists d. split; [done|]. split; [lia|]. split; [done|].
        intros d' Hd'. destruct (decide (d' = idx)) as [->|]; [done|].
        apply Hmax. lia.
      * right. split; [done|]. intros d' Hd'.
        destruct (decide (d' = idx)) as [->|]; [done|]. apply Hnone. lia.
Qed.

Lemma with_last_scan_long_last_axis (inshape axes : list Z)
    (max_num_threads last_axis extent : Z) :
  1 <= max_num_threads ->
  last axes = Some last_axis ->
  at_ inshape last_axis = Some extent ->
  is_int extent -> max_num_threads < extent ->
  with_last_scan inshape axes max_num_threads (length axes) 1
    = Done (extent, vsize axes - 1).
Proof.
  intros HT Hlast Hext Hint Hgt.
  destruct (last_at_ axes last_axis Hlast) as [Hat Hlen].
  destruct (length axes) as [|k] eqn:Hk; [lia|].
  unfold vsize in *. rewrite Hk in *.
  replace (Z.of_nat (S k) - 1) with (Z.of_nat k) in * by lia.
  simpl with_last_scan. unfold axis_gap, vsize. rewrite Hk.
  destruct (Z.of_nat k + 1 <? Z.of_nat (S k)) eqn:Hlt; [cmp_lia|].
  simpl. rewrite Hat. simpl. rewrite Hext. simpl.
  rewrite Z.mul_1_l, wrap_id by done.
  destruct (extent <=? max_num_threads) eqn:Hle; [cmp_lia|].
  rewrite andb_false_r.
  assert (Z.quot max_num_threads 2 <= max_num_threads).
  { apply Z.quot_le_upper_bound; lia. }
  destruct (extent >=? Z.quot max_num_threads 2) eqn:Hge; [done|cmp_lia].
Qed.

(** C3.  When the last reduce axis alone is longer than [max_num_threads]
    (the scan stops at it with [lane] equal to its extent),
    [LoopAssignReduceWithLast] either splits that axis by the greatest
    divisor of the extent in [[max_num_threads / 2, max_num_threads]] and goes
    on to [LoopOrderAssignReduce], or - when the range holds no divisor -
    fails its [CHECK_GE] without touching the schedule. *)
Theorem LoopAssignReduceWithLast_long_last_axis `{ScheduleOracle}
    (block_name : string) (inshape axes : list Z)
    (max_num_threads last_axis extent : Z) (s : list Cmd) :
  1 <= max_num_threads ->
  last axes = Some last_axis ->
  at_ inshape last_axis = Some extent ->
  is_int extent -> max_num_threads < extent ->
  with_last_scan inshape axes max_num_threads (length axes) 1
    = Done (extent, vsize axes - 1) /\
  ((exists d,
      Z.quot max_num_threads 2 <= d <= max_num_threads /\ (d | extent) /\
      (forall d', Z.quot max_num_threads 2 <= d' <= max_num_threads ->
                  (d' | extent) -> d' <= d) /\
      LoopAssignReduceWithLast block_name inshape axes max_num_threads s
        = (exec emit (CSplit block_name last_axis [-1; d]) in
           LoopOrderAssignReduce block_name axes max_num_threads false) s)
   \/
   ((forall d', Z.quot max_num_threads 2 <= d' <= max_num_threads ->
                ~ (d' | extent)) /\
    LoopAssignReduceWithLast block_name inshape axes max_num_threads s
      = (s, Abort (CheckFailed "idx >= max_num_threads / 2")))).
Proof.
  intros HT Hlast Hext Hint Hgt.
  pose proof (with_last_scan_long_last_axis inshape axes max_num_threads
                last_axis extent HT Hlast Hext Hint Hgt) as Hscan.
  split; [exact Hscan|].
  destruct (last_at_ axes last_axis Hlast) as [Hat Hlen].
  assert (0 <= Z.quot max_num_threads 2 <= max_num_threads) as Hhalf.
  { split; [apply Z.quot_pos; lia|apply Z.quot_le_upper_bound; lia]. }
  assert (1 <= Z.quot max_num_threads 2 \/ max_num_threads = 1) as Hcase.
  { destruct (decide (max_num_threads = 1)) as [|Hne]; [by right|left].
    apply Z.quot_le_lower_bound; lia. }
  assert (LoopAssignReduceWithLast block_name inshape axes max_num_threads s
          = (exec (let+ found :=
                     lift (with_last_split_loop
                             (Z.to_nat (max_num_threads - Z.quot max_num_threads 2))
                             extent max_num_threads (Z.quot max_num_threads 2)) in
                   match found with
                   | Some idx =>
                       exec emit (CSplit block_name last_axis [-1; idx]) in
                       if idx >=? Z.quot max_num_threads 2 then sret tt
                       else abort (CheckFailed "idx >= max_num_threads / 2")
                   | None => abort (CheckFailed "idx >= max_num_threads / 2")
                   end) in
             LoopOrderAssignReduce block_name axes max_num_threads false) s)
    as ->.
  { unfold LoopAssignReduceWithLast.
    unfold sbind at 1. unfold lift at 1. rewrite Hscan. cbv beta iota.
    assert ((extent >? max_num_threads) = true) as -> by (rewrite Z.gtb_ltb; lia).
    rewrite Z.eqb_refl.
    replace (Z.to_nat (vsize axes - 1 + 1)) with (length axes)
      by (unfold vsize; lia).
    rewrite firstn_all. unfold sbind, lift.
    destruct (with_last_split_loop _ _ _ _) as [[idx|]|e]; [|done|done].
    rewrite Hat. reflexivity. }
  destruct (with_last_split_loop_spec extent (Z.quot max_num_threads 2)
              (Z.to_nat (max_num_threads - Z.quot max_num_threads 2))
              max_num_threads eq_refl)
    as [(d & Hrun & Hd & Hdiv & Hmax)|[Hrun Hnone]]; [lia|lia|lia| |].
  - left. exists d. split; [lia|]. split; [done|]. split.
    + intros d' Hd' Hdiv'. destruct (decide (d' <= d)) as [|Hn]; [done|].
      exfalso. apply (Hmax d'); [lia|done].
    + unfold sbind, lift. rewrite Hrun.
      assert ((d >=? Z.quot max_num_threads 2) = true) as ->
        by (rewrite Z.geb_leb; apply Z.leb_le; lia).
      reflexivity.
  - right. split; [done|]. unfold sbind, lift, abort. rewrite Hrun. done.
Qed.

Lemma LoopAssignReduceWithLast_long_last_axis_witness :
  with_last_scan [4; 2048] [1] 1024 (length [1 : Z]) 1
    = Done (2048, vsize [1 : Z] - 1) /\
  ((exists d,
      Z.quot 1024 2 <= d <= 1024 /\ (d | 2048) /\
      (forall d', Z.quot 1024 2 <= d' <= 1024 -> (d' | 2048) -> d' <= d) /\
      @LoopAssignReduceWithLast wide_oracle "B" [4; 2048] [1] 1024 []
        = (exec emit (CSplit "B" 1 [-1; d]) in
           @LoopOrderAssignReduce wide_oracle "B" [1] 1024 false) [])
   \/
   ((forall d', Z.quot 1024 2 <= d' <= 1024 -> ~ (d' | 2048)) /\
    @LoopAssignReduceWithLast wide_oracle "B" [4; 2048] [1] 1024 []
      = ([], Abort (CheckFailed "idx >= max_num_threads / 2")))).
Proof.
  apply (@LoopAssignReduceWithLast_long_last_axis wide_oracle
           "B" [4; 2048] [1] 1024 1 2048 []).
  - lia.
  - reflexivity.
  - reflexivity.
  - unfold is_int, int_min, int_max. lia.
  - lia.
Defined.

Example LoopAssignReduceWithLast_splits_2048 :
  @LoopAssignReduceWithLast wide_oracle "B" [4; 2048] [1] 1024 []
  = ([CSplit "B" 1 [-1; 1024]; CReorder "B" [0; 1];
      CSplitLoop (mk_loop 2 2048) [-1; 1024]], Done tt).
Proof. by vm_compute. Qed.

Example LoopAssignReduceWithLast_prime_extent :
  @LoopAssignReduceWithLast wide_oracle "B" [4; 2053] [1] 1024 []
  = ([], Abort (CheckFailed "idx >= max_num_threads / 2")).
Proof. by vm_compute. Qed.

Lemma product_drop_le (dims : list Z) (k : nat) :
  Forall (fun d => 1 <= d) dims -> 1 <= product (drop k dims) <= product dims.
Proof.
  intros Hall. revert k. induction Hall as [|d dims Hd Hall IH]; intros k.
  - rewrite drop_nil. simpl. lia.
  - destruct k as [|k]; simpl.
    + pose proof (product_pos dims Hall). nia.
    + specialize (IH k). nia.
Qed.

Lemma axis_gap_contiguous (axes : list Z) (index : nat) :
  (index < length axes)%nat ->
  (forall i a a1, axes !! i = Some a -> axes !! S i = Some a1 ->
     a = wrap (a1 - 1)) ->
  axis_gap axes (Z.of_nat index) = Done None.
Proof.
  intros Hlt Hcont. unfold axis_gap, vsize.
  destruct (Z.of_nat index + 1 <? Z.of_nat (length axes)) eqn:Hnext; [|done].
  apply Z.ltb_lt in Hnext.
  destruct (lookup_lt_is_Some_2 axes index Hlt) as [a Ha].
  destruct (lookup_lt_is_Some_2 axes (S index) ltac:(lia)) as [a1 Ha1].
  unfold at_.
  destruct (Z.of_nat index <? 0) eqn:H0; [cmp_lia|].
  destruct (Z.of_nat index + 1 <? 0) eqn:H1; [cmp_lia|].
  rewrite Nat2Z.id.
  replace (Z.to_nat (Z.of_nat index + 1)) with (S index) by lia.
  rewrite Ha, Ha1. simpl.
  rewrite (Hcont index a a1 Ha Ha1), Z.eqb_refl. done.
Qed.

Lemma with_last_scan_fatal (inshape axes dims : list Z) (max_num_threads : Z) :
  Forall2 (fun a d => at_ inshape a = Some d) axes dims ->
  Forall (fun d => 1 <= d) dims ->
  (forall i a a1, axes !! i = Some a -> axes !! S i = Some a1 ->
     a = wrap (a1 - 1)) ->
  (forall k, (1 <= k < length axes)%nat ->
     product (drop k dims) < Z.quot max_num_threads 2) ->
  product dims <= max_num_threads -> max_num_threads <= int_max ->
  forall k, (1 <= k <= length axes)%nat ->
    with_last_scan inshape axes max_num_threads k (product (drop k dims))
      = Abort lane_fatal.
Proof.
  intros Hdims Hpos Hcont Hsmall Htotal HT.
  pose proof (Forall2_length _ _ _ Hdims) as Hlen.
  induction k as [|index IH]; intros Hk; [lia|].
  simpl with_last_scan.
  rewrite axis_gap_contiguous by (done || lia). simpl.
  destruct (lookup_lt_is_Some_2 axes index ltac:(lia)) as [a Ha].
  destruct (lookup_lt_is_Some_2 dims index ltac:(lia)) as [d Hd].
  pose proof (Forall2_lookup_lr _ _ _ _ _ _ Hdims Ha Hd) as Hat.
  unfold at_ at 1.
  destruct (Z.of_nat index <? 0) eqn:H0; [cmp_lia|].
  rewrite Nat2Z.id, Ha. simpl. rewrite Hat. simpl.
  pose proof (product_drop_le dims index Hpos) as Hle.
  pose proof (product_drop_le dims (S index) Hpos) as Hle'.
  rewrite (drop_S _ _ _ Hd) in Hle. simpl in Hle.
  assert (wrap (product (drop (S index) dims) * d)
          = product (drop index dims)) as ->.
  { rewrite (drop_S _ _ _ Hd). simpl.
    rewrite wrap_id; [lia|unfold is_int, int_min, int_max in *; nia]. }
  destruct index as [|index].
  - rewrite drop_0. simpl.
    destruct (product dims <=? max_num_threads) eqn:Hfit; [done|cmp_lia].
  - replace (Z.of_nat (S index) =? 0) with false by (symmetry; apply Z.eqb_neq; lia).
    simpl andb. cbv iota.
    specialize (Hsmall (S index) ltac:(lia)).
    destruct (product (drop (S index) dims) >=? Z.quot max_num_threads 2) eqn:Hge;
      [cmp_lia|].
    apply IH. lia.
Qed.

Lemma all_axes_dims (inshape : list Z) :
  Forall2 (fun a d => at_ inshape a = Some d) (seqZ 0 (vsize inshape)) inshape.
Proof.
  apply Forall2_same_length_lookup_2.
  - rewrite length_seqZ. unfold vsize. lia.
  - intros i a d Ha Hd. apply lookup_seqZ in Ha as [-> Hi].
    unfold at_. destruct (0 + Z.of_nat i <? 0) eqn:H0; [cmp_lia|].
    replace (Z.to_nat (0 + Z.of_nat i)) with i by lia. done.
Qed.

(** C10 (as amended).  [LoopAssignReduceWithLast] aborts with [LOG(FATAL)],
    leaving the schedule untouched, whenever the scan reaches axis index 0
    with a lane of at most [max_num_threads]: the reduce axes are
    contiguous, every trailing run that stops short of the first axis stays
    below [max_num_threads / 2], and the whole run has at most
    [max_num_threads] elements.  In particular this holds for a reduction
    over all axes whose element count is at most [max_num_threads] and
    whose dimensions after the first have fewer than [max_num_threads / 2]
    elements - also when the count lies in
    [[max_num_threads / 2, max_num_threads]]. *)
Theorem LoopAssignReduceWithLast_fatal_at_first_axis `{ScheduleOracle}
    (block_name : string) (inshape : list Z) (max_num_threads : Z)
    (s : list Cmd) :
  max_num_threads <= int_max ->
  (forall axes dims : list Z,
     axes <> [] ->
     Forall2 (fun a d => at_ inshape a = Some d) axes dims ->
     Forall (fun d => 1 <= d) dims ->
     (forall i a a1, axes !! i = Some a -> axes !! S i = Some a1 ->
        a = wrap (a1 - 1)) ->
     (forall k, (1 <= k < length axes)%nat ->
        product (drop k dims) < Z.quot max_num_threads 2) ->
     product dims <= max_num_threads ->
     LoopAssignReduceWithLast block_name inshape axes max_num_threads s
       = (s, Abort lane_fatal)) /\
  (inshape <> [] -> vsize inshape <= int_max ->
   Forall (fun d => 1 <= d) inshape ->
   length inshape = 1%nat \/
     product (drop 1 inshape) < Z.quot max_num_threads 2 ->
   product inshape <= max_num_threads ->
   LoopAssignReduceWithLast block_name inshape (seqZ 0 (vsize inshape))
     max_num_threads s = (s, Abort lane_fatal)).
Proof.
  intros HT.
  assert (forall axes dims : list Z,
     axes <> [] ->
     Forall2 (fun a d => at_ inshape a = Some d) axes dims ->
     Forall (fun d => 1 <= d) dims ->
     (forall i a a1, axes !! i = Some a -> axes !! S i = Some a1 ->
        a = wrap (a1 - 1)) ->
     (forall k, (1 <= k < length axes)%nat ->
        product (drop k dims) < Z.quot max_num_threads 2) ->
     product dims <= max_num_threads ->
     LoopAssignReduceWithLast block_name inshape axes max_num_threads s
       = (s, Abort lane_fatal)) as Hgen.
  { intros axes dims Hne Hdims Hpos Hcont Hsmall Htotal.
    pose proof (Forall2_length _ _ _ Hdims) as Hlen.
    pose proof (with_last_scan_fatal inshape axes dims max_num_threads
                  Hdims Hpos Hcont Hsmall Htotal HT (length axes)) as Hscan.
    rewrite drop_ge in Hscan by lia. simpl in Hscan.
    unfold LoopAssignReduceWithLast, sbind, lift.
    rewrite Hscan; [done|]. destruct axes; [done|simpl; lia]. }
  split; [exact Hgen|].
  intros Hne Hlen Hpos Hsmall Htotal.
  apply (Hgen (seqZ 0 (vsize inshape)) inshape).
  - destruct inshape; [done|]. unfold vsize. simpl length.
    rewrite Nat2Z.inj_succ, seqZ_cons by lia. done.
  - apply all_axes_dims.
  - done.
  - intros i a a1 Ha Ha1.
    apply lookup_seqZ in Ha as [-> Hi]. apply lookup_seqZ in Ha1 as [-> Hi1].
    rewrite wrap_id; [lia|].
    unfold is_int, int_min, int_max, vsize in *. lia.
  - intros k Hk. rewrite length_seqZ in Hk.
    destruct Hsmall as [Hone|Hsmall]; [unfold vsize in Hk; lia|].
    destruct k as [|k]; [lia|].
    pose proof (product_drop_le (drop 1 inshape) k ltac:(by apply Forall_drop)) as Hle.
    rewrite drop_drop in Hle. replace (1 + k)%nat with (S k) in Hle by lia. lia.
  - done.
Qed.

Lemma LoopAssignReduceWithLast_fatal_at_first_axis_witness :
  @LoopAssignReduceWithLast small_oracle "B" [2; 300]
    (seqZ 0 (vsize [2; 300])) 1024 [] = ([], Abort lane_fatal).
Proof.
  apply (proj2 (@LoopAssignReduceWithLast_fatal_at_first_axis small_oracle
                  "B" [2; 300] 1024 [] ltac:(by vm_compute))).
  - done.
  - by vm_compute.
  - repeat constructor; lia.
  - right. by vm_compute.
  - by vm_compute.
Defined.

(** C10 (as stated) fails: reducing all axes of a [[2; 512]] input, 1024
    elements in total with [max_num_threads = 1024], does not abort - the
    scan already stops at the last axis, whose lane 512 reaches
    [max_num_threads / 2]. *)
Lemma LoopAssignReduceWithLast_all_axes_no_abort :
  product [2; 512] <= 1024 /\
  @LoopAssignReduceWithLast small_oracle "B" [2; 512]
    (seqZ 0 (vsize [2; 512])) 1024 []
  = ([CReorder "B" [1; 0]], Done tt).
Proof. split; by vm_compute. Qed.

(** ** Synchronization Inserter *)

Lemma check_sync_mark_scan_true rest sync_mark m_id :
  check_sync_mark_scan rest sync_mark m_id = Done true -> m_id ∉ sync_mark.
Proof.
  induction rest as [|name rest IH]; simpl; [done|].
  case_bool_decide as Hmark; [done|].
  case_bool_decide as Hname; [by subst|done].
Qed.

Lemma check_sync_mark_true exprs sync_mark start m_id :
  check_sync_mark exprs sync_mark start m_id = Done true -> m_id ∉ sync_mark.
Proof.
  unfold check_sync_mark. destruct (vsize exprs =? 0); [done|].
  apply check_sync_mark_scan_true.
Qed.

(** The scan leaves the block list exactly when no marked block and no
    block of the master follows. *)
Lemma check_sync_mark_scan_out_of_range rest sync_mark m_id :
  check_sync_mark_scan rest sync_mark m_id
    = Abort (OutOfRange "exprs_inorder[idx]") <->
  forall name, name ∈ rest -> (name ∉ sync_mark) /\ name <> m_id.
Proof.
  induction rest as [|name rest IH]; simpl.
  - split; [|done]. intros _ name Hin. by apply elem_of_nil in Hin.
  - case_bool_decide as Hmark.
    { split; [done|]. intros Hall. destruct (Hall name); [by left|done]. }
    case_bool_decide as Hname.
    { split; [done|]. intros Hall. destruct (Hall name); [by left|done]. }
    rewrite IH. split.
    + intros Hall x [->|Hx]%elem_of_cons; [done|by apply Hall].
    + intros Hall x Hx. apply Hall. by right.
Qed.

Lemma sync_tags_app l1 l2 : sync_tags (l1 ++ l2) = sync_tags l1 ++ sync_tags l2.
Proof. unfold sync_tags. apply omap_app. Qed.

Section sync.
Context `{ScheduleOracle}.
Context (fuel : nat) (g : Graph) (nodes_inline nodes_set : gset string)
  (shape_dict : gmap string (list Z)) (exprs_inorder : list string).

Lemma sync_body_tags idx sync_mark s :
  exists new,
    (sync_body fuel g nodes_inline nodes_set shape_dict exprs_inorder idx
       sync_mark s).1 = s ++ new /\
    ((sync_tags new = [] /\
      forall mark', (sync_body fuel g nodes_inline nodes_set shape_dict
                       exprs_inorder idx sync_mark s).2 = Done mark' ->
                    mark' = sync_mark)
     \/
     (exists m_id, sync_tags new = [m_id] /\ (m_id ∉ sync_mark) /\
        (sync_body fuel g nodes_inline nodes_set shape_dict exprs_inorder idx
           sync_mark s).2 = Done ({[m_id]} ∪ sync_mark))).
Proof.
  unfold sync_body, SyncThreadsAtBack, get_loops, sbind, lift, sret, emit.
  destruct (orequire _ (at_ exprs_inorder idx)) as [name|e];
    [|exists []; rewrite app_nil_r; split; [done|left; by split]].
  destruct (negb _);
    [exists []; rewrite app_nil_r; split; [done|left; split; [done|]];
     by intros mark' [= <-]|].
  destruct (orequire _ (shape_dict !! name)) as [node_shape|e];
    [|exists []; rewrite app_nil_r; split; [done|left; by split]].
  destruct (orequire _ (source_node g name)) as [node|e];
    [|exists []; rewrite app_nil_r; split; [done|left; by split]].
  destruct (GetMaster fuel g node nodes_inline nodes_set) as [[master|]|e];
    [|exists []; rewrite app_nil_r; split; [done|left; split; [done|]];
      by intros mark' [= <-]
     |exists []; rewrite app_nil_r; split; [done|left; by split]].
  destruct (orequire _ (shape_dict !! GetNodeData g master)) as [output_shape|e];
    [|exists []; rewrite app_nil_r; split; [done|left; by split]].
  destruct (if is_reduction g master then _ else _) as [master_shape|e];
    [|exists []; rewrite app_nil_r; split; [done|left; by split]].
  destruct (accumulate_mul node_shape =? accumulate_mul master_shape);
    [exists []; rewrite app_nil_r; split; [done|left; split; [done|]];
     by intros mark' [= <-]|].
  destruct (check_sync_mark exprs_inorder sync_mark idx (GetNodeData g master))
    as [[|]|e] eqn:Hcheck.
  - apply check_sync_mark_true in Hcheck.
    destruct (back _ _) as [loop|e]; simpl.
    + exists [CSetBuffer name "shared" true;
              CSyncThreads (GetNodeData g master) loop false].
      split; [by rewrite <- app_assoc|]. right.
      exists (GetNodeData g master). by repeat split.
    + exists [CSetBuffer name "shared" true]. split; [done|]. left. by split.
  - exists [CSetBuffer name "shared" true]. split; [done|]. left.
    split; [done|]. by intros mark' [= <-].
  - exists [CSetBuffer name "shared" true]. split; [done|]. left. by split.
Qed.

Lemma sync_loop_tags idxs : forall sync_mark s,
  exists new,
    (sync_loop fuel g nodes_inline nodes_set shape_dict exprs_inorder idxs
       sync_mark s).1 = s ++ new /\
    NoDup (sync_tags new) /\
    forall t, t ∈ sync_tags new -> t ∉ sync_mark.
Proof.
  induction idxs as [|idx rest IH]; intros sync_mark s.
  - exists []. simpl. rewrite app_nil_r. split; [done|]. split; [constructor|].
    intros t Ht. by apply elem_of_nil in Ht.
  - simpl. unfold sbind.
    destruct (sync_body_tags idx sync_mark s) as (new1 & Hs1 & Hcase).
    destruct (sync_body fuel g nodes_inline nodes_set shape_dict exprs_inorder
                idx sync_mark s) as [s1 [mark1|e]] eqn:Hbody; simpl in *; subst s1.
    + destruct (IH mark1 (s ++ new1)) as (new2 & Hs2 & Hnd2 & Hfresh2).
      exists (new1 ++ new2). rewrite Hs2, app_assoc. split; [done|].
      rewrite sync_tags_app.
      destruct Hcase as [[Hnone Hmark]|(m_id & Hone & Hfresh & Hmark)].
      * rewrite Hnone. simpl. rewrite (Hmark mark1 eq_refl) in Hfresh2. by split.
      * rewrite Hone. simpl. inversion Hmark; subst mark1. split.
        -- apply NoDup_cons. split; [|done]. intros Hin.
           apply (Hfresh2 m_id Hin). set_solver.
        -- intros t [->|Ht]%elem_of_cons; [done|].
           specialize (Hfresh2 t Ht). set_solver.
    + exists new1. split; [done|].
      destruct Hcase as [[Hnone _]|(m_id & _ & _ & Habs)]; [|done].
      rewrite Hnone. split; [constructor|]. intros t Ht. by apply elem_of_nil in Ht.
Qed.
End sync.

Lemma NoDup_filter_le_1 (l : list string) (m : string) :
  NoDup l -> (length (List.filter (fun t => bool_decide (t = m)) l) <= 1)%nat.
Proof.
  induction 1 as [|x l Hx Hnd IH]; simpl; [lia|].
  case_bool_decide as Heq; [|done]. subst x. simpl.
  assert (List.filter (fun t => bool_decide (t = m)) l = []) as ->; [|simpl; lia].
  clear IH Hnd. induction l as [|y l IH]; simpl; [done|].
  case_bool_decide as Hy; [subst y; exfalso; apply Hx; by left|].
  apply IH. intros Hin. apply Hx. by right.
Qed.

(** C8.  Whatever the group, the shapes and the block list, and however
    the run ends, the calls that one run of [SyncThreadWithShared] adds to
    the schedule insert at most one barrier after the last loop of any one
    master. *)
Theorem SyncThreadWithShared_one_barrier_per_master `{ScheduleOracle}
    (fuel : nat) (g : Graph) (nodes_inline nodes_set : gset string)
    (shape_dict : gmap string (list Z)) (tensor_map : gmap string Tensor)
    (s : list Cmd) :
  exists inserted,
    (SyncThreadWithShared fuel g nodes_inline nodes_set shape_dict tensor_map s).1
      = s ++ inserted /\
    forall master, (barriers_for (GetNodeData g master) inserted <= 1)%nat.
Proof.
  unfold SyncThreadWithShared, sbind.
  set (exprs := GetAllBlocks s).
  set (idxs := seqZ 0 _).
  destruct (sync_loop_tags fuel g nodes_inline nodes_set shape_dict exprs idxs ∅ s)
    as (new & Hs & Hnd & _).
  exists new.
  destruct (sync_loop fuel g nodes_inline nodes_set shape_dict exprs idxs ∅ s)
    as [s' [mark|e]]; simpl in *; (split; [done|]);
    intros master; by apply NoDup_filter_le_1.
Qed.

Example SyncThreadWithShared_two_nodes_one_master :
  @SyncThreadWithShared fan_oracle 3 fan_graph ∅ fan_group fan_shapes ∅ []
  = ([CSetBuffer "d_a" "shared" true;
      CSyncThreads "d_m" (mk_loop 1 4) false;
      CSetBuffer "d_b" "shared" true], Done tt).
Proof. by vm_compute. Qed.

(** The guard of the scan does not bound its index.  On the list
    ["d_a"; "d_c"], which is not in execution order - the block ["d_b"] of
    the master is missing - the block ["d_a"] is followed neither by its
    master's block nor by a marked block, and the scan reads
    [exprs_inorder[2]]. *)
Example SyncThreadWithShared_reads_past_end :
  @SyncThreadWithShared stray_oracle 3 chain_graph ∅ chain_group chain_shapes ∅ []
  = ([CSetBuffer "d_a" "shared" true], Abort (OutOfRange "exprs_inorder[idx]")).
Proof. by vm_compute. Qed.

(** ** Loop Merger *)

Lemma at_Some_bound {A} (l : list A) (i : Z) (x : A) :
  at_ l i = Some x -> 0 <= i < vsize l.
Proof.
  unfold at_, vsize. destruct (i <? 0) eqn:Hneg; [done|].
  intros Hx%lookup_lt_Some. cmp_lia.
Qed.

Lemma at_is_Some {A} (l : list A) (i : Z) :
  0 <= i < vsize l -> exists x, at_ l i = Some x.
Proof.
  unfold at_, vsize. intros Hi. destruct (i <? 0) eqn:Hneg; [cmp_lia|].
  apply lookup_lt_is_Some_2. lia.
Qed.

Lemma wrap_le (x : Z) : -1 <= x -> wrap x <= x.
Proof.
  unfold wrap. intros Hx.
  pose proof (Z.mod_le (x + 2 ^ 31) (2 ^ 32) ltac:(lia) ltac:(lia)). lia.
Qed.

Section bounds.
Context `{ScheduleOracle}.

Lemma orequire_no_bound_failure {A} what (o : option A) :
  ~ bound_check_failed (orequire what o).
Proof. destruct o; intros [?|?]; discriminate. Qed.

Lemma bounds_sret {A} (a : A) : bounds_respected (sret a).
Proof. intros s [?|?]; discriminate. Qed.

Lemma bounds_emit c : bounds_respected (emit c).
Proof. intros s [?|?]; discriminate. Qed.

Lemma bounds_abort {A} e :
  e <> CheckFailed "src.size() > index" -> e <> CheckFailed "dst.size() > index" ->
  bounds_respected (@abort A e).
Proof. intros H1 H2 s [[=]|[=]]; done. Qed.

Lemma bounds_lift {A} (o : Outcome A) :
  ~ bound_check_failed o -> bounds_respected (lift o).
Proof. intros Ho s. exact Ho. Qed.

Lemma bounds_get_loops name : bounds_respected (get_loops name).
Proof. intros s [?|?]; discriminate. Qed.

Lemma bounds_has_block name : bounds_respected (has_block name).
Proof. intros s [?|?]; discriminate. Qed.

Lemma bounds_bind {A B} (m : Sched A) (k : A -> Sched B) :
  bounds_respected m -> (forall a, bounds_respected (k a)) ->
  bounds_respected (sbind m k).
Proof.
  intros Hm Hk s. unfold sbind. specialize (Hm s).
  destruct (m s) as [s' [a|e]]; simpl in *.
  - apply Hk.
  - intros [[=]|[=]]; subst; apply Hm; [by left|by right].
Qed.

Lemma bounds_bind_lift {A B} (o : Outcome A) (k : A -> Sched B) :
  ~ bound_check_failed o -> (forall a, o = Done a -> bounds_respected (k a)) ->
  bounds_respected (sbind (lift o) k).
Proof.
  intros Ho Hk s. unfold sbind, lift. destruct o as [a|e]; simpl.
  - by apply Hk.
  - intros [[=]|[=]]; subst; apply Ho; [by left|by right].
Qed.

Lemma bounds_bind_get_loops {B} name (k : list Loop -> Sched B) :
  (forall loops, bounds_respected (k loops)) ->
  bounds_respected (sbind (get_loops name) k).
Proof. intros Hk. apply bounds_bind; [apply bounds_get_loops|done]. Qed.

Lemma bounds_SimpleComputeAtBack block_name loops_of :
  bounds_respected (SimpleComputeAtBack block_name loops_of).
Proof.
  unfold SimpleComputeAtBack. apply bounds_bind_get_loops. intros loops.
  apply bounds_bind_lift; [apply orequire_no_bound_failure|].
  intros loop _. apply bounds_emit.
Qed.

Lemma bounds_SyncThreadsAtBack id : bounds_respected (SyncThreadsAtBack id).
Proof.
  unfold SyncThreadsAtBack. apply bounds_bind_get_loops. intros loops.
  apply bounds_bind_lift; [apply orequire_no_bound_failure|].
  intros loop _. apply bounds_emit.
Qed.

(** [MergeLoops] stops at a bound check exactly when it is handed a
    non-negative index that is not below both lengths. *)
Lemma MergeLoops_check (src dst : list Loop) (index : Z) (s : list Cmd) :
  bound_check_failed (MergeLoops src dst index s).2 <->
  0 <= index /\ ~ (index < vsize src /\ index < vsize dst).
Proof.
  unfold MergeLoops.
  destruct (index <? 0) eqn:Hneg.
  { split; [intros [?|?]; discriminate|cmp_lia]. }
  destruct (vsize src >? index) eqn:Hsrc; simpl.
  2:{ split; [cmp_lia|]. intros _. by left. }
  destruct (vsize dst >? index) eqn:Hdst; simpl.
  2:{ split; [cmp_lia|]. intros _. by right. }
  split; [|cmp_lia]. intros Hfail. exfalso. revert Hfail.
  change (~ bound_check_failed
            ((let+ src0 := lift (orequire "src[0]" (at_ src 0)) in
              let+ dst0 := lift (orequire "dst[0]" (at_ dst 0)) in
              if bool_decide (loop_ref src0 = loop_ref dst0) then sret tt
              else
                let src_vars := loop_var <$> take (Z.to_nat (index + 1)) src in
                let dst_vars := loop_var <$> take (Z.to_nat (index + 1)) dst in
                let+ src_at := lift (orequire "src[index]" (at_ src index)) in
                let+ dst_at := lift (orequire "dst[index]" (at_ dst index)) in
                exec emit (CReplaceExpr (EBodyOf src_at) src_vars dst_vars) in
                exec emit (CPrependBody dst_at src_at) in
                emit (CRemoveExpr src0)) s).2).
  revert s. fold (bounds_respected
    (let+ src0 := lift (orequire "src[0]" (at_ src 0)) in
     let+ dst0 := lift (orequire "dst[0]" (at_ dst 0)) in
     if bool_decide (loop_ref src0 = loop_ref dst0) then sret tt
     else
       let src_vars := loop_var <$> take (Z.to_nat (index + 1)) src in
       let dst_vars := loop_var <$> take (Z.to_nat (index + 1)) dst in
       let+ src_at := lift (orequire "src[index]" (at_ src index)) in
       let+ dst_at := lift (orequire "dst[index]" (at_ dst index)) in
       exec emit (CReplaceExpr (EBodyOf src_at) src_vars dst_vars) in
       exec emit (CPrependBody dst_at src_at) in
       emit (CRemoveExpr src0))).
  apply bounds_bind_lift; [apply orequire_no_bound_failure|]. intros src0 _.
  apply bounds_bind_lift; [apply orequire_no_bound_failure|]. intros dst0 _.
  case_bool_decide; [apply bounds_sret|].
  apply bounds_bind_lift; [apply orequire_no_bound_failure|]. intros src_at _.
  apply bounds_bind_lift; [apply orequire_no_bound_failure|]. intros dst_at _.
  apply bounds_bind; [apply bounds_emit|]. intros _.
  apply bounds_bind; [apply bounds_emit|]. intros _.
  apply bounds_emit.
Qed.

Lemma bounds_MergeLoops (src dst : list Loop) (index : Z) :
  index < vsize src -> index < vsize dst ->
  bounds_respected (MergeLoops src dst index).
Proof.
  intros Hsrc Hdst s Hfail. apply MergeLoops_check in Hfail. lia.
Qed.

Lemma stage_match_no_bound_failure n : forall src dst index,
  ~ bound_check_failed (stage_match n src dst index).
Proof.
  induction n as [|n IH]; intros src dst index; simpl;
    (destruct (at_ src (index + 1)) as [sl|]; simpl;
       [|intros [?|?]; discriminate]);
    (destruct (at_ dst (index + 1)) as [dl|]; simpl;
       [|intros [?|?]; discriminate]);
    (destruct (loop_extent sl =? loop_extent dl);
       [|intros [?|?]; discriminate]);
    (destruct (_ || _); [intros [?|?]; discriminate|]).
  - intros [?|?]; discriminate.
  - apply IH.
Qed.

Lemma stage_match_bound n : forall src dst index i,
  index < vsize src -> index < vsize dst ->
  stage_match n src dst index = Done i ->
  i < vsize src /\ i < vsize dst.
Proof.
  induction n as [|n IH]; intros src dst index i Hs Hd; simpl;
    (destruct (at_ src (index + 1)) as [sl|] eqn:Hsl; simpl; [|done]);
    (destruct (at_ dst (index + 1)) as [dl|] eqn:Hdl; simpl; [|done]);
    apply at_Some_bound in Hsl; apply at_Some_bound in Hdl;
    (destruct (loop_extent sl =? loop_extent dl);
       [|intros [= <-]; lia]);
    (destruct (_ || _); [intros [= <-]; lia|]).
  - done.
  - apply IH; lia.
Qed.

Lemma bounds_merge_stages fuel node_id tensor_map :
  forall idx post_ post__ min_index_loop,
  bounds_respected
    (merge_stages fuel node_id tensor_map idx post_ post__ min_index_loop).
Proof.
  induction fuel as [|fuel IH]; intros idx post_ post__ min_index_loop; simpl.
  - by apply bounds_abort.
  - destruct (tensor_map !! (node_id +:+ post__)) as [tensor__|];
      [|apply bounds_sret].
    unfold find_tensor.
    apply bounds_bind_lift; [apply orequire_no_bound_failure|]. intros tensor_ _.
    apply bounds_bind; [apply bounds_has_block|]. intros present.
    destruct (negb present); [apply bounds_sret|].
    apply bounds_bind_get_loops. intros dst_loops.
    apply bounds_bind_get_loops. intros src_loops.
    apply bounds_bind_lift; [apply stage_match_no_bound_failure|].
    intros index Hindex.
    apply stage_match_bound in Hindex as [Hs Hd];
      [|unfold vsize; lia|unfold vsize; lia].
    apply bounds_bind; [by apply bounds_MergeLoops|]. intros _. apply IH.
Qed.

Lemma input_shape_checked_no_bound_failure g node shape_dict :
  ~ bound_check_failed (input_shape_checked g node shape_dict).
Proof.
  unfold input_shape_checked.
  destruct (inlinks_in_order g node !! 0%nat) as [source|]; simpl;
    [|intros [?|?]; discriminate].
  destruct (shape_dict !! source); intros [?|?]; discriminate.
Qed.

Lemma bounds_InsertSyncThread_loop fuel node_id tensor_map : forall idx post,
  bounds_respected (InsertSyncThread_loop fuel node_id tensor_map idx post).
Proof.
  induction fuel as [|fuel IH]; intros idx post; simpl.
  - by apply bounds_abort.
  - destruct (tensor_map !! (node_id +:+ post)) as [tensor|]; [|apply bounds_sret].
    apply bounds_bind; [apply bounds_has_block|]. intros present.
    destruct (negb present); [apply bounds_sret|].
    destruct (idx >? 0); [apply bounds_SyncThreadsAtBack|apply IH].
Qed.

Lemma bounds_InsertSyncThread g node shape_dict tensor_map :
  bounds_respected (InsertSyncThread g node shape_dict tensor_map).
Proof.
  unfold InsertSyncThread.
  apply bounds_bind_lift; [apply input_shape_checked_no_bound_failure|].
  intros shape _. destruct (negb _); [apply bounds_sret|].
  apply bounds_InsertSyncThread_loop.
Qed.

Lemma bounds_reduce_attach_scan node_id master_id node_loops master_loops
    min_index_loop k :
  Z.of_nat k < vsize node_loops -> Z.of_nat k < vsize master_loops ->
  bounds_respected
    (reduce_attach_scan k node_id master_id node_loops master_loops
       min_index_loop).
Proof.
  induction k as [|k IH]; intros Hn Hm; simpl reduce_attach_scan;
    (apply bounds_bind_lift; [apply orequire_no_bound_failure|]; intros n _);
    (apply bounds_bind_lift; [apply orequire_no_bound_failure|]; intros m _);
    (destruct (negb _);
     [|apply bounds_bind;
       [apply bounds_MergeLoops; lia
       |intros _; destruct (_ >? _);
        [apply bounds_SimpleComputeAtBack|apply bounds_sret]]]).
  - apply bounds_sret.
  - apply IH; lia.
Qed.

Lemma bounds_attach_scan node_loops master_loops k :
  Z.of_nat k < vsize node_loops -> Z.of_nat k < vsize master_loops ->
  bounds_respected (attach_scan k node_loops master_loops).
Proof.
  induction k as [|k IH]; intros Hn Hm; simpl attach_scan;
    (apply bounds_bind_lift; [apply orequire_no_bound_failure|]; intros n _);
    (apply bounds_bind_lift; [apply orequire_no_bound_failure|]; intros m _);
    (destruct (negb _); [|apply bounds_MergeLoops; lia]).
  - apply bounds_sret.
  - apply IH; lia.
Qed.

Lemma bounds_real_master_prefix fuel master_id tensor_map :
  forall idx prefix post,
  bounds_respected (real_master_prefix fuel master_id tensor_map idx prefix post).
Proof.
  induction fuel as [|fuel IH]; intros idx prefix post; simpl.
  - by apply bounds_abort.
  - destruct (tensor_map !! (master_id +:+ post)) as [tensor|]; [|apply bounds_sret].
    apply bounds_bind; [apply bounds_has_block|]. intros present.
    destruct (negb present); [apply bounds_sret|apply IH].
Qed.

Lemma bounds_LoopComputeAt_master_loops fuel g master tensor_map :
  bounds_respected (LoopComputeAt_master_loops fuel g master tensor_map).
Proof.
  unfold LoopComputeAt_master_loops.
  apply bounds_bind_get_loops. intros master_loops.
  destruct (is_reduction g master); [|apply bounds_sret].
  apply bounds_bind; [apply bounds_real_master_prefix|]. intros prefix.
  unfold find_tensor.
  apply bounds_bind_lift; [apply orequire_no_bound_failure|]. intros tensor _.
  apply bounds_get_loops.
Qed.

Lemma scan_start_bound (node_loops master_loops : list Loop) :
  let index := wrap (Z.min (vsize node_loops) (vsize master_loops) - 1) in
  (index <? 0) = false ->
  Z.of_nat (Z.to_nat index) < vsize node_loops /\
  Z.of_nat (Z.to_nat index) < vsize master_loops.
Proof.
  intros index Hneg. apply Z.ltb_ge in Hneg.
  pose proof (wrap_le (Z.min (vsize node_loops) (vsize master_loops) - 1)) as Hle.
  unfold vsize in *. fold index in Hle. lia.
Qed.

Lemma bounds_MergeReduceLoop_direct fuel g node master shape_dict tensor_map :
  ~ (is_reduction g master = true /\ node <> master) ->
  bounds_respected (MergeReduceLoop fuel g node master shape_dict tensor_map).
Proof.
  intros Hdirect. unfold MergeReduceLoop.
  destruct (is_reduction g master && negb (bool_decide (node = master))) eqn:Hdel.
  { exfalso. apply andb_true_iff in Hdel as [Hred Hne]. apply Hdirect.
    split; [done|]. apply negb_true_iff in Hne. by apply bool_decide_eq_false in Hne. }
  apply bounds_bind; [apply bounds_merge_stages|]. intros min_index_loop.
  apply bounds_bind; [apply bounds_InsertSyncThread|]. intros _.
  case_bool_decide; [apply bounds_sret|].
  apply bounds_bind_get_loops. intros node_loops.
  apply bounds_bind_get_loops. intros master_loops.
  destruct (_ <? 0) eqn:Hneg; [by apply bounds_abort|].
  destruct (scan_start_bound node_loops master_loops Hneg).
  by apply bounds_reduce_attach_scan.
Qed.

Lemma bounds_LoopComputeAt_direct fuel g node master output_nodes shape_dict
    tensor_map :
  ~ (is_reduction g node = true /\ is_reduction g master = true /\
     node <> master) ->
  bounds_respected
    (LoopComputeAt fuel g node master output_nodes shape_dict tensor_map).
Proof.
  intros Hdirect. unfold LoopComputeAt.
  apply bounds_bind.
  { unfold LoopComputeAt_scope.
    case_bool_decide; [apply bounds_sret|apply bounds_emit]. }
  intros _. destruct (is_reduction g node) eqn:Hnode.
  { apply bounds_MergeReduceLoop_direct. intros [? ?]. by apply Hdirect. }
  case_bool_decide; [apply bounds_sret|].
  apply bounds_bind_get_loops. intros node_loops.
  apply bounds_bind; [apply bounds_LoopComputeAt_master_loops|].
  intros master_loops.
  destruct (_ <? 0) eqn:Hneg; [by apply bounds_abort|].
  destruct (scan_start_bound node_loops master_loops Hneg).
  by apply bounds_attach_scan.
Qed.

Lemma input_shape_at_no_bound_failure g node shape_dict :
  ~ bound_check_failed (input_shape_at g node shape_dict).
Proof.
  unfold input_shape_at.
  destruct (inlinks_in_order g node !! 0%nat) as [source|]; simpl;
    [|intros [?|?]; discriminate].
  apply orequire_no_bound_failure.
Qed.

Lemma collect_vars_no_bound_failure idxs n_loops m_loops :
  ~ bound_check_failed (collect_vars idxs n_loops m_loops).
Proof.
  induction idxs as [|idx rest IH]; simpl; [intros [?|?]; discriminate|].
  destruct (at_ n_loops idx); simpl; [|intros [?|?]; discriminate].
  destruct (at_ m_loops idx); simpl; [|intros [?|?]; discriminate].
  destruct (collect_vars rest n_loops m_loops); simpl;
    [intros [?|?]; discriminate|done].
Qed.

Lemma first_mismatch_no_bound_failure idxs nloops mloops :
  ~ bound_check_failed (first_mismatch idxs nloops mloops).
Proof.
  induction idxs as [|idx rest IH]; simpl; [intros [?|?]; discriminate|].
  destruct (at_ nloops idx) as [n|]; simpl; [|intros [?|?]; discriminate].
  destruct (at_ mloops idx) as [m|]; simpl; [|intros [?|?]; discriminate].
  destruct (loop_extent n =? loop_extent m); [done|].
  destruct (at_ mloops (idx - 1)); simpl; intros [?|?]; discriminate.
Qed.

Lemma bounds_bind_get_loops_ne {B} name (k : list Loop -> Sched B) :
  loops_never_empty ->
  (forall loops, loops <> [] -> bounds_respected (k loops)) ->
  bounds_respected (sbind (get_loops name) k).
Proof.
  intros Hne Hk s. unfold sbind, get_loops. apply Hk, Hne.
Qed.

Ltac bounds_pure :=
  first [ apply orequire_no_bound_failure
        | apply input_shape_checked_no_bound_failure
        | apply input_shape_at_no_bound_failure
        | apply collect_vars_no_bound_failure
        | apply first_mismatch_no_bound_failure ].

Ltac bounds_step Hne :=
  first [ apply bounds_sret
        | apply bounds_emit
        | apply bounds_SimpleComputeAtBack
        | apply bounds_bind_get_loops_ne; [exact Hne|intros ? ?]
        | apply bounds_bind_lift; [bounds_pure|intros ? _]
        | apply bounds_bind; [|intros ?] ].

Ltac bounds_auto Hne :=
  repeat first
    [ progress cbv zeta
    | bounds_step Hne
    | match goal with
      | |- bounds_respected (if ?b then _ else _) => destruct b
      | |- bounds_respected (match ?t with Some _ => _ | None => _ end) =>
          destruct t
      | |- bounds_respected (MergeLoops _ _ 0) => apply bounds_MergeLoops
      | |- bounds_respected (abort _) => by apply bounds_abort
      | |- 0 < vsize ?l => unfold vsize; destruct l; [done|simpl; lia]
      end ].

Lemma bounds_MergeReduceToReduce g node master shape_dict tensor_map :
  loops_never_empty ->
  bounds_respected (MergeReduceToReduce g node master shape_dict tensor_map).
Proof.
  intros Hne. unfold MergeReduceToReduce, find_tensor, back.
  bounds_auto Hne.
Qed.

Lemma bounds_MergeReduceLoop fuel g node master shape_dict tensor_map :
  loops_never_empty ->
  bounds_respected (MergeReduceLoop fuel g node master shape_dict tensor_map).
Proof.
  intros Hne.
  destruct (is_reduction g master && negb (bool_decide (node = master))) eqn:Hdel.
  - unfold MergeReduceLoop. rewrite Hdel. by apply bounds_MergeReduceToReduce.
  - apply bounds_MergeReduceLoop_direct. intros [Hred Hneq].
    rewrite Hred, bool_decide_eq_false_2 in Hdel by done. done.
Qed.

Lemma bounds_LoopComputeAt fuel g node master output_nodes shape_dict
    tensor_map :
  loops_never_empty ->
  bounds_respected
    (LoopComputeAt fuel g node master output_nodes shape_dict tensor_map).
Proof.
  intros Hne.
  destruct (is_reduction g node) eqn:Hnode.
  - unfold LoopComputeAt. rewrite Hnode.
    apply bounds_bind; [|intros _; by apply bounds_MergeReduceLoop].
    unfold LoopComputeAt_scope.
    case_bool_decide; [apply bounds_sret|apply bounds_emit].
  - apply bounds_LoopComputeAt_direct. intros [Hred _]. congruence.
Qed.

(** C7.  [MergeLoops] stops at one of its two bound checks exactly when its
    index is non-negative and not below both lengths.  No run of
    [MergeReduceLoop] or of [LoopComputeAt] ever stops there through a call
    of their own, that is, unless the work is handed to
    [MergeReduceToReduce] (a Reduction node with a different Reduction
    master); and with a [GetLoops] that never returns an empty vector no run
    stops there at all, the call made by [MergeReduceToReduce] included. *)
Theorem MergeLoops_index_in_bounds (fuel : nat) (g : Graph)
    (node master : string) (output_nodes : gset string)
    (shape_dict : gmap string (list Z)) (tensor_map : gmap string Tensor)
    (s : list Cmd) :
  (forall src dst index,
     bound_check_failed (MergeLoops src dst index s).2 <->
     0 <= index /\ ~ (index < vsize src /\ index < vsize dst)) /\
  (~ (is_reduction g master = true /\ node <> master) ->
   ~ bound_check_failed
       (MergeReduceLoop fuel g node master shape_dict tensor_map s).2) /\
  (~ (is_reduction g node = true /\ is_reduction g master = true /\
      node <> master) ->
   ~ bound_check_failed
       (LoopComputeAt fuel g node master output_nodes shape_dict tensor_map s).2) /\
  (loops_never_empty ->
   ~ bound_check_failed
       (MergeReduceLoop fuel g node master shape_dict tensor_map s).2 /\
   ~ bound_check_failed
       (LoopComputeAt fuel g node master output_nodes shape_dict tensor_map s).2).
Proof.
  split; [intros src dst index; apply MergeLoops_check|]. split; [|split].
  - intros Hdirect.
    exact (bounds_MergeReduceLoop_direct _ _ _ _ _ _ Hdirect s).
  - intros Hdirect.
    exact (bounds_LoopComputeAt_direct _ _ _ _ _ _ _ Hdirect s).
  - intros Hne. split.
    + exact (bounds_MergeReduceLoop _ _ _ _ _ _ Hne s).
    + exact (bounds_LoopComputeAt _ _ _ _ _ _ _ Hne s).
Qed.
End bounds.

Lemma MergeLoops_index_in_bounds_witness :
  ~ bound_check_failed
      (@LoopComputeAt match_oracle 3 chain_graph "a" "b" ∅ ∅ ∅ []).2.
Proof.
  apply (proj1 (proj2 (proj2 (@MergeLoops_index_in_bounds match_oracle 3
                                chain_graph "a" "b" ∅ ∅ ∅ [])))).
  intros [Hred _]. vm_compute in Hred. discriminate.
Defined.

Section attach.
Context `{ScheduleOracle}.

Lemma real_master_prefix_returns master_id (tensor_map : gmap string Tensor)
    fuel : forall idx prefix post (seen : gset string) s,
  seen ⊆ dom tensor_map ->
  (size tensor_map < fuel + size seen)%nat ->
  master_id +:+ post ∉ seen ->
  (forall j, idx <= j -> master_id +:+ "_" +:+ pretty j ∉ seen) ->
  (post = "" /\ idx = 0) \/ (post = "_" +:+ pretty (idx - 1) /\ 1 <= idx) ->
  exists p,
    real_master_prefix fuel master_id tensor_map idx prefix post s = (s, Done p) /\
    (p = prefix \/ is_Some (tensor_map !! (master_id +:+ p))).
Proof.
  induction fuel as [|fuel IH]; intros idx prefix post seen s Hsub Hsize Hkey Hfut Hpost.
  - apply subseteq_size in Hsub. rewrite size_dom in Hsub. lia.
  - simpl. destruct (tensor_map !! (master_id +:+ post)) as [tensor|] eqn:Hlook.
    2:{ exists prefix. split; [done|by left]. }
    unfold sbind, has_block.
    destruct (negb (HasBlock s (tensor_name tensor))).
    { exists prefix. split; [done|by left]. }
    assert (forall j, idx <= j ->
              master_id +:+ "_" +:+ pretty j <> master_id +:+ post) as Hne.
    { intros j Hj Heq. apply (inj (String.app master_id)) in Heq.
      destruct Hpost as [[-> _]|[-> Hidx]]; [done|].
      apply (inj (String.app "_")) in Heq. apply (inj pretty) in Heq. lia. }
    destruct (IH (idx + 1) post ("_" +:+ pretty idx)
                ({[master_id +:+ post]} ∪ seen) s) as (p & Hrun & Hp).
    + apply union_least; [|done]. apply singleton_subseteq_l.
      apply elem_of_dom. eauto.
    + rewrite size_union by set_solver. rewrite size_singleton. lia.
    + intros [Hin%elem_of_singleton|Hin]%elem_of_union.
      * by apply (Hne idx).
      * by apply (Hfut idx).
    + intros j Hj [Hin%elem_of_singleton|Hin]%elem_of_union.
      * apply (Hne j); [lia|done].
      * apply (Hfut j); [lia|done].
    + right. split; [|lia]. by rewrite Z.add_simpl_r.
    + exists p. split; [done|]. destruct Hp as [->|Hp]; [|by right].
      right. eauto.
Qed.

Lemma append_empty_r (s : string) : s +:+ "" = s.
Proof.
  induction s as [|c s IH]; [done|].
  change (String c (s +:+ "") = String c s). by rewrite IH.
Qed.

Lemma LoopComputeAt_master_loops_returns fuel g master
    (tensor_map : gmap string Tensor) s :
  (size tensor_map < fuel)%nat ->
  (is_reduction g master = true ->
   is_Some (tensor_map !! GetNodeData g master)) ->
  exists master_loops,
    LoopComputeAt_master_loops fuel g master tensor_map s = (s, Done master_loops).
Proof.
  intros Hfuel Hentry. unfold LoopComputeAt_master_loops, sbind, get_loops.
  destruct (is_reduction g master); [|unfold sret; eauto].
  destruct (real_master_prefix_returns (GetNodeData g master) tensor_map fuel
              0 "" "" ∅ s) as (p & -> & Hp).
  - set_solver.
  - rewrite size_empty. lia.
  - set_solver.
  - set_solver.
  - by left.
  - assert (is_Some (tensor_map !! (GetNodeData g master +:+ p))) as [tensor Ht].
    { destruct Hp as [->|Hp]; [rewrite append_empty_r; by apply Hentry|done]. }
    unfold find_tensor, lift. rewrite Ht. simpl. eauto.
Qed.

Lemma extents_equal_at node_loops master_loops j n m :
  at_ node_loops j = Some n -> at_ master_loops j = Some m ->
  extents_equal node_loops master_loops j <-> loop_extent n = loop_extent m.
Proof.
  intros Hn Hm. split.
  - intros (n' & m' & Hn' & Hm' & Heq). congruence.
  - intros Heq. exists n, m. done.
Qed.

Lemma attach_scan_unfold k node_loops master_loops :
  attach_scan k node_loops master_loops
  = (let+ n := lift (orequire "node_loops[index]"
                       (at_ node_loops (Z.of_nat k))) in
     let+ m := lift (orequire "master_loops[index]"
                       (at_ master_loops (Z.of_nat k))) in
     if negb (loop_extent n =? loop_extent m)
     then
       match k with
       | O => sret tt
       | S k' => attach_scan k' node_loops master_loops
       end
     else MergeLoops node_loops master_loops (Z.of_nat k)).
Proof. destruct k; reflexivity. Qed.

Lemma attach_scan_spec node_loops master_loops s : forall k,
  Z.of_nat k < vsize node_loops -> Z.of_nat k < vsize master_loops ->
  (forall j, 0 <= j <= Z.of_nat k ->
     extents_equal node_loops master_loops j ->
     (forall i, j < i <= Z.of_nat k -> ~ extents_equal node_loops master_loops i) ->
     attach_scan k node_loops master_loops s
       = MergeLoops node_loops master_loops j s) /\
  ((forall i, 0 <= i <= Z.of_nat k -> ~ extents_equal node_loops master_loops i) ->
   attach_scan k node_loops master_loops s = (s, Done tt)).
Proof.
  induction k as [|k IH]; intros Hkn Hkm.
  - destruct (at_is_Some node_loops (Z.of_nat 0) ltac:(lia)) as [n Hn].
    destruct (at_is_Some master_loops (Z.of_nat 0) ltac:(lia)) as [m Hm].
    pose proof (extents_equal_at _ _ _ _ _ Hn Hm) as Hiff.
    rewrite attach_scan_unfold. unfold sbind, lift. cbv beta.
    rewrite Hn, Hm. cbv beta iota delta [orequire].
    destruct (loop_extent n =? loop_extent m) eqn:Hext; simpl negb; cbv iota.
    + split.
      * intros j Hj _ _. by replace j with (Z.of_nat 0) by lia.
      * intros Hnone. exfalso. apply (Hnone (Z.of_nat 0)); [lia|].
        apply Hiff. cmp_lia.
    + split; [|done]. intros j Hj Heq _.
      replace j with (Z.of_nat 0) in Heq by lia.
      apply Hiff in Heq. cmp_lia.
  - destruct (at_is_Some node_loops (Z.of_nat (S k)) ltac:(lia)) as [n Hn].
    destruct (at_is_Some master_loops (Z.of_nat (S k)) ltac:(lia)) as [m Hm].
    pose proof (extents_equal_at _ _ _ _ _ Hn Hm) as Hiff.
    destruct IH as [IHfound IHnone]; [lia|lia|].
    rewrite attach_scan_unfold. unfold sbind, lift. cbv beta.
    rewrite Hn, Hm. cbv beta iota delta [orequire].
    destruct (loop_extent n =? loop_extent m) eqn:Hext; simpl negb; cbv iota.
    + split.
      * intros j Hj Heq Hmax.
        destruct (decide (j = Z.of_nat (S k))) as [->|Hne]; [done|].
        exfalso. apply (Hmax (Z.of_nat (S k))); [lia|]. apply Hiff. cmp_lia.
      * intros Hnone. exfalso. apply (Hnone (Z.of_nat (S k))); [lia|].
        apply Hiff. cmp_lia.
    + split.
      * intros j Hj Heq Hmax.
        destruct (decide (j = Z.of_nat (S k))) as [->|Hne].
        { apply Hiff in Heq. cmp_lia. }
        apply IHfound; [lia|done|]. intros i Hi. apply Hmax. lia.
      * intros Hnone. apply IHnone. intros i Hi. apply Hnone. lia.
Qed.

(** C6 (as amended).  For a non-Reduction node with a distinct master,
    once the node's buffer scope is set (state [s1]), [LoopComputeAt] finds the master's
    loops and, scanning downward from
    [min(len(node_loops), len(master_loops)) - 1], merges the node's nest
    into the master's at the deepest index where the two extents agree;
    when they agree at no index, it merges nothing and leaves the schedule
    as it is. *)
Theorem LoopComputeAt_merge_depth (fuel : nat) (g : Graph)
    (node master : string) (output_nodes : gset string)
    (shape_dict : gmap string (list Z)) (tensor_map : gmap string Tensor)
    (s : list Cmd) :
  is_reduction g node = false -> node <> master ->
  (size tensor_map < fuel)%nat ->
  (is_reduction g master = true ->
   is_Some (tensor_map !! GetNodeData g master)) ->
  let s1 := (LoopComputeAt_scope g node output_nodes s).1 in
  let node_loops := GetLoops s1 (GetNodeData g node) in
  exists master_loops,
    LoopComputeAt_master_loops fuel g master tensor_map s1
      = (s1, Done master_loops) /\
    (node_loops <> [] -> master_loops <> [] ->
     Z.min (vsize node_loops) (vsize master_loops) <= int_max ->
     let top := Z.min (vsize node_loops) (vsize master_loops) - 1 in
     (forall k, 0 <= k <= top ->
        extents_equal node_loops master_loops k ->
        (forall j, k < j <= top -> ~ extents_equal node_loops master_loops j) ->
        LoopComputeAt fuel g node master output_nodes shape_dict tensor_map s
          = MergeLoops node_loops master_loops k s1) /\
     ((forall j, 0 <= j <= top -> ~ extents_equal node_loops master_loops j) ->
      LoopComputeAt fuel g node master output_nodes shape_dict tensor_map s
        = (s1, Done tt))).
Proof.
  intros Hnode Hne Hfuel Hentry s1 node_loops.
  destruct (LoopComputeAt_master_loops_returns fuel g master tensor_map s1
              Hfuel Hentry) as [master_loops Hml].
  exists master_loops. split; [exact Hml|].
  intros Hn Hm Hfit top.
  assert (1 <= vsize node_loops) as Hn1.
  { unfold vsize. destruct node_loops; [done|simpl; lia]. }
  assert (1 <= vsize master_loops) as Hm1.
  { unfold vsize. destruct master_loops; [done|simpl; lia]. }
  assert (LoopComputeAt fuel g node master output_nodes shape_dict tensor_map s
          = attach_scan (Z.to_nat top) node_loops master_loops s1) as ->.
  { unfold LoopComputeAt. unfold sbind at 1.
    assert (LoopComputeAt_scope g node output_nodes s = (s1, Done tt)) as ->.
    { unfold s1, LoopComputeAt_scope. by case_bool_decide. }
    rewrite Hnode. rewrite bool_decide_eq_false_2 by done.
    unfold sbind at 1. unfold get_loops at 1. fold node_loops.
    unfold sbind at 1. rewrite Hml.
    rewrite wrap_id by (unfold is_int, int_min, int_max in *; lia).
    fold top. destruct (top <? 0) eqn:Hneg; [unfold top in Hneg; cmp_lia|done]. }
  destruct (attach_scan_spec node_loops master_loops s1 (Z.to_nat top))
    as [Hfound Hnone]; [unfold top; lia|unfold top; lia|].
  rewrite Z2Nat.id in Hfound, Hnone by (unfold top; lia).
  split; [exact Hfound|exact Hnone].
Qed.
End attach.

Lemma LoopComputeAt_merge_depth_witness :
  let s1 := (LoopComputeAt_scope chain_graph "a" ∅ []).1 in
  let node_loops := @GetLoops match_oracle s1 (GetNodeData chain_graph "a") in
  exists master_loops,
    @LoopComputeAt_master_loops match_oracle 1 chain_graph "b" ∅ s1
      = (s1, Done master_loops) /\
    (node_loops <> [] -> master_loops <> [] ->
     Z.min (vsize node_loops) (vsize master_loops) <= int_max ->
     let top := Z.min (vsize node_loops) (vsize master_loops) - 1 in
     (forall k, 0 <= k <= top ->
        extents_equal node_loops master_loops k ->
        (forall j, k < j <= top -> ~ extents_equal node_loops master_loops j) ->
        @LoopComputeAt match_oracle 1 chain_graph "a" "b" ∅ ∅ ∅ []
          = MergeLoops node_loops master_loops k s1) /\
     ((forall j, 0 <= j <= top -> ~ extents_equal node_loops master_loops j) ->
      @LoopComputeAt match_oracle 1 chain_graph "a" "b" ∅ ∅ ∅ []
        = (s1, Done tt))).
Proof.
  apply (@LoopComputeAt_merge_depth match_oracle 1 chain_graph "a" "b" ∅ ∅ ∅ []).
  - reflexivity.
  - discriminate.
  - rewrite map_size_empty. lia.
  - intros Hred. vm_compute in Hred. discriminate.
Defined.

Example LoopComputeAt_merges_at_depth_0 :
  @LoopComputeAt match_oracle 1 chain_graph "a" "b" ∅ ∅ ∅ []
  = ([CSetBuffer "d_a" "local" true;
      CReplaceExpr (EBodyOf (mk_loop 1 4)) ["i1"] ["i3"];
      CPrependBody (mk_loop 3 4) (mk_loop 1 4);
      CRemoveExpr (mk_loop 1 4)], Done tt).
Proof. by vm_compute. Qed.

(** C6 (as stated) fails in its last part: with loop nests of extents [2]
    and [3] no index has equal extents, and [LoopComputeAt] returns without
    merging - which differs from a merge at index 0. *)
Lemma LoopComputeAt_no_match_no_merge :
  let s1 := [CSetBuffer "d_a" "local" true] in
  let node_loops := [mk_loop 1 2] in
  let master_loops := [mk_loop 2 3] in
  @GetLoops mismatch_oracle s1 "d_a" = node_loops /\
  @GetLoops mismatch_oracle s1 "d_b" = master_loops /\
  (forall j, ~ extents_equal node_loops master_loops j) /\
  @LoopComputeAt mismatch_oracle 1 chain_graph "a" "b" ∅ ∅ ∅ [] = (s1, Done tt) /\
  @LoopComputeAt mismatch_oracle 1 chain_graph "a" "b" ∅ ∅ ∅ []
    <> MergeLoops node_loops master_loops 0 s1.
Proof.
  cbv zeta. split; [reflexivity|]. split; [reflexivity|]. split.
  - intros j (n & m & Hn & Hm & Heq). unfold at_ in Hn, Hm.
    destruct (j <? 0); [done|].
    destruct (Z.to_nat j) as [|i]; simpl in Hn, Hm; [|done].
    inversion Hn; subst. inversion Hm; subst. vm_compute in Heq. discriminate.
  - split; [by vm_compute|]. vm_compute. discriminate.
Qed.

(* ===================================================================== *)
(** * Part III: further properties of the helpers                         *)
(* ===================================================================== *)

(** ** [FindGlobalReducer] *)

Lemma FindGlobalReducer_snoc g l x :
  FindGlobalReducer g (l ++ [x])
  = if is_reduction g x then Some x else FindGlobalReducer g l.
Proof. unfold FindGlobalReducer. by rewrite rev_app_distr. Qed.

(** X1.  [FindGlobalReducer] returns the last Reduction node of the
    sequence: the node it returns is a Reduction and no node after it is
    one; it returns nothing exactly when the sequence holds no Reduction. *)
Theorem FindGlobalReducer_last_reduction (g : Graph) (nodes_in_order : list string) :
  match FindGlobalReducer g nodes_in_order with
  | Some r =>
      exists i, nodes_in_order !! i = Some r /\
        op_pattern_dict g r = kReduction /\
        forall j x, (i < j)%nat -> nodes_in_order !! j = Some x ->
          op_pattern_dict g x <> kReduction
  | None =>
      forall x, x ∈ nodes_in_order -> op_pattern_dict g x <> kReduction
  end.
Proof.
  induction nodes_in_order as [|x l IH] using rev_ind.
  - simpl. intros x Hx. by apply elem_of_nil in Hx.
  - rewrite FindGlobalReducer_snoc. unfold is_reduction.
    case_bool_decide as Hred.
    + exists (length l). split; [by rewrite list_lookup_middle|].
      split; [done|]. intros j y Hj Hy.
      apply lookup_lt_Some in Hy. rewrite length_app in Hy. simpl in Hy. lia.
    + destruct (FindGlobalReducer g l) as [r|].
      * destruct IH as (i & Hi & Hr & Hafter). exists i.
        split; [rewrite lookup_app_l; [done|by apply lookup_lt_Some in Hi]|].
        split; [done|]. intros j y Hj Hy.
        destruct (decide (j < length l)%nat) as [Hlt|Hge].
        -- rewrite lookup_app_l in Hy by done. by apply (Hafter j).
        -- rewrite lookup_app_r in Hy by lia.
           apply list_lookup_singleton_Some in Hy as [_ <-]. done.
      * intros y [Hy|Hy%list_elem_of_singleton]%elem_of_app; [by apply IH|by subst].
Qed.

(** ** The factor searches of the loop planners *)

Lemma order_split_loop_spec (n : nat) (psize : Z) :
  (1 <= n)%nat ->
  exists idx, order_split_loop n psize = Done (Some idx) /\
    1 <= idx <= Z.of_nat n /\ Z.rem psize idx = 0 /\
    forall d, idx < d <= Z.of_nat n -> Z.rem psize d <> 0.
Proof.
  induction n as [|n IH]; intros Hn; [lia|].
  cbn [order_split_loop]. cbv zeta.
  destruct (Z.rem psize (Z.of_nat (S n)) =? 0) eqn:Hrem.
  - exists (Z.of_nat (S n)). split; [done|]. split; [lia|].
    split; [cmp_lia|]. intros d Hd. lia.
  - destruct (Z.of_nat (S n) >? 1) eqn:Hgt.
    + destruct IH as (idx & Hrun & Hidx & Hdiv & Hmax); [cmp_lia|].
      exists idx. split; [done|]. split; [lia|]. split; [done|].
      intros d Hd. destruct (decide (d = Z.of_nat (S n))) as [->|Hne].
      * cmp_lia.
      * apply Hmax. lia.
    + exfalso. assert (Z.of_nat (S n) = 1) as Hone by cmp_lia.
      rewrite Hone, Z.rem_1_r in Hrem. done.
Qed.

Lemma order_split_loop_check (n : nat) (psize : Z) :
  order_split_loop n psize <> Abort (CheckFailed "idx > 1").
Proof.
  destruct n as [|n]; [done|].
  destruct (order_split_loop_spec (S n) psize) as (idx & -> & _); [lia|done].
Qed.

Lemma orequire_Abort {A} what (o : option A) e :
  orequire what o = Abort e -> e = OutOfRange what.
Proof. destruct o; simpl; congruence. Qed.

Lemma repeat_sched_emit (n : nat) (c : Cmd) (s : list Cmd) :
  repeat_sched n (emit c) s = (s ++ replicate n c, Done tt).
Proof.
  revert s. induction n as [|n IH]; intros s; simpl.
  - by rewrite app_nil_r.
  - unfold sbind, emit at 1. rewrite IH. by rewrite <- app_assoc.
Qed.

(** X2.  The split search of [LoopOrderAssignReduce] always succeeds: for a
    thread limit of at least 1 it finds the greatest divisor of the extent
    that does not exceed the limit (1 at worst), and no run of
    [LoopOrderAssignReduce] stops at [CHECK_GT(idx, 1)]. *)
Theorem LoopOrderAssignReduce_split_factor `{ScheduleOracle}
    (block_name : string) (axes : list Z) (max_num_threads psize : Z)
    (just_reorder : bool) (s : list Cmd) :
  (1 <= max_num_threads ->
   exists idx,
     order_split_loop (Z.to_nat max_num_threads) psize = Done (Some idx) /\
     1 <= idx <= max_num_threads /\ Z.rem psize idx = 0 /\
     forall d, idx < d <= max_num_threads -> Z.rem psize d <> 0) /\
  (LoopOrderAssignReduce block_name axes max_num_threads just_reorder s).2
    <> Abort (CheckFailed "idx > 1").
Proof.
  split.
  - intros HT.
    destruct (order_split_loop_spec (Z.to_nat max_num_threads) psize)
      as (idx & Hrun & Hidx & Hdiv & Hmax); [lia|].
    exists idx. split; [done|]. split; [lia|]. split; [done|].
    intros d Hd. apply Hmax. lia.
  - unfold LoopOrderAssignReduce, sbind, get_loops, emit at 1.
    destruct just_reorder; [done|].
    unfold lift at 1. destruct (back _ axes) as [axes_back|e] eqn:Hback;
      [|apply orequire_Abort in Hback; by subst].
    rewrite repeat_sched_emit. unfold lift at 1.
    destruct (orequire _ (at_ _ _)) as [loop|e] eqn:Hloop;
      [|apply orequire_Abort in Hloop; by subst].
    destruct (loop_extent loop >? max_num_threads).
    + unfold lift.
      pose proof (order_split_loop_check (Z.to_nat max_num_threads)
                    (loop_extent loop)) as Hcheck.
      destruct (order_split_loop _ _) as [[idx|]|e'].
      * unfold emit at 1. by rewrite repeat_sched_emit.
      * unfold sret. by rewrite repeat_sched_emit.
      * simpl. congruence.
    + unfold sret. by rewrite repeat_sched_emit.
Qed.

Lemma LoopOrderAssignReduce_split_factor_witness :
  exists idx,
    order_split_loop (Z.to_nat 1024) 2053 = Done (Some idx) /\
    1 <= idx <= 1024 /\ Z.rem 2053 idx = 0 /\
    forall d, idx < d <= 1024 -> Z.rem 2053 d <> 0.
Proof.
  apply (proj1 (@LoopOrderAssignReduce_split_factor wide_oracle "B" [1] 1024
                  2053 false [])).
  lia.
Defined.

(** ** The loop order passed to [Reorder] *)

Lemma filter_StronglySorted {A} (R : relation A) (p : A -> bool) (l : list A) :
  StronglySorted R l -> StronglySorted R (List.filter p l).
Proof.
  induction 1 as [|x l Hl IH Hx]; simpl; [constructor|].
  destruct (p x); [|done]. constructor; [done|].
  apply Forall_forall. intros y Hy%list_elem_of_In%filter_In.
  destruct Hy as [Hy _]. rewrite Forall_forall in Hx. apply Hx.
  by apply list_elem_of_In.
Qed.

Lemma seqZ_StronglySorted (len : nat) : forall m,
  StronglySorted Z.lt (seqZ m (Z.of_nat len)).
Proof.
  induction len as [|len IH]; intros m.
  - rewrite seqZ_nil by lia. constructor.
  - rewrite seqZ_cons by lia. constructor.
    + replace (Z.pred (Z.of_nat (S len))) with (Z.of_nat len) by lia. apply IH.
    + apply Forall_forall. intros x Hx%elem_of_seqZ. lia.
Qed.

Lemma kept_axes_permutation (axes : list Z) (n : Z) :
  NoDup axes -> (forall a, a ∈ axes -> 0 <= a < n) ->
  List.filter (fun idx => negb (existsb (Z.eqb idx) axes)) (seqZ 0 n) ++ axes
    ≡ₚ seqZ 0 n.
Proof.
  intros Hnd Hin.
  assert (forall x, existsb (Z.eqb x) axes = true <-> x ∈ axes) as Hex.
  { intros x. rewrite existsb_exists. split.
    - intros (y & Hy & ->%Z.eqb_eq). by apply list_elem_of_In.
    - intros Hx. exists x. split; [by apply list_elem_of_In|apply Z.eqb_refl]. }
  apply NoDup_Permutation.
  - apply NoDup_app. split; [|split; [|done]].
    + apply NoDup_ListNoDup, List.NoDup_filter, NoDup_ListNoDup, NoDup_seqZ.
    + intros x Hx%list_elem_of_In%filter_In Hax. destruct Hx as [_ Hx].
      apply negb_true_iff in Hx. apply Hex in Hax. congruence.
  - apply NoDup_seqZ.
  - intros x. rewrite elem_of_app, elem_of_seqZ. split.
    + intros [Hx%list_elem_of_In%filter_In|Hx].
      * destruct Hx as [Hx%list_elem_of_In%elem_of_seqZ _]. lia.
      * specialize (Hin x Hx). lia.
    + intros Hx. destruct (existsb (Z.eqb x) axes) eqn:Hb.
      * right. by apply Hex.
      * left. apply list_elem_of_In, filter_In. split.
        -- apply list_elem_of_In, elem_of_seqZ. lia.
        -- by rewrite Hb.
Qed.

(** X3.  When the reduce axes are pairwise different positions of the loop
    nest, the order that [LoopOrderAssignReduce] hands to [Reorder] is a
    permutation of all loop positions: the positions that are not reduced,
    in increasing order, followed by the reduce axes as given.  It is the
    first call of every run, and the only one when [just_reorder] is set. *)
Theorem LoopOrderAssignReduce_reorder_permutation `{ScheduleOracle}
    (block_name : string) (axes : list Z) (max_num_threads : Z)
    (just_reorder : bool) (s : list Cmd) :
  let n := vsize (GetLoops s block_name) in
  n <= int_max -> NoDup axes -> (forall a, a ∈ axes -> 0 <= a < n) ->
  exists kept,
    kept ++ axes ≡ₚ seqZ 0 n /\
    StronglySorted Z.lt kept /\
    (forall k, k ∈ kept -> k ∉ axes) /\
    (exists rest,
       (LoopOrderAssignReduce block_name axes max_num_threads just_reorder s).1
         = s ++ CReorder block_name (kept ++ axes) :: rest) /\
    LoopOrderAssignReduce block_name axes max_num_threads true s
      = (s ++ [CReorder block_name (kept ++ axes)], Done tt).
Proof.
  intros n Hn Hnd Hin.
  assert (wrap n = n) as Hwrap.
  { apply wrap_id. unfold is_int, int_min, int_max, n, vsize in *. lia. }
  exists (List.filter (fun idx => negb (existsb (Z.eqb idx) axes)) (seqZ 0 n)).
  split; [by apply kept_axes_permutation|]. split.
  { apply filter_StronglySorted. unfold n, vsize. apply seqZ_StronglySorted. }
  split.
  { intros k Hk%list_elem_of_In%filter_In Hax. destruct Hk as [_ Hk].
    apply negb_true_iff in Hk.
    assert (existsb (Z.eqb k) axes = true); [|congruence].
    apply existsb_exists. exists k.
    split; [by apply list_elem_of_In|apply Z.eqb_refl]. }
  split.
  - unfold LoopOrderAssignReduce, sbind, get_loops, emit at 1.
    fold n. rewrite Hwrap.
    destruct just_reorder; [by exists []|].
    unfold lift at 1. destruct (back _ axes) as [axes_back|e]; [|by exists []].
    rewrite repeat_sched_emit. unfold lift at 1.
    destruct (orequire _ (at_ _ _)) as [loop|e];
      [|eexists; by rewrite <- app_assoc].
    destruct (loop_extent loop >? max_num_threads).
    + unfold lift. destruct (order_split_loop _ _) as [[idx|]|e'].
      * unfold emit at 1. rewrite repeat_sched_emit. simpl.
        eexists. by rewrite <- !app_assoc.
      * unfold sret. rewrite repeat_sched_emit. simpl.
        eexists. by rewrite <- !app_assoc.
      * simpl. eexists. by rewrite <- !app_assoc.
    + unfold sret. rewrite repeat_sched_emit. simpl.
      eexists. by rewrite <- !app_assoc.
  - unfold LoopOrderAssignReduce, sbind, get_loops, emit, sret.
    fold n. by rewrite Hwrap.
Qed.

Lemma LoopOrderAssignReduce_reorder_permutation_witness :
  exists kept,
    kept ++ [1] ≡ₚ seqZ 0 (vsize (@GetLoops wide_oracle [] "B")) /\
    StronglySorted Z.lt kept /\
    (forall k, k ∈ kept -> k ∉ [1]) /\
    (exists rest,
       (@LoopOrderAssignReduce wide_oracle "B" [1] 1024 false []).1
         = [] ++ CReorder "B" (kept ++ [1]) :: rest) /\
    @LoopOrderAssignReduce wide_oracle "B" [1] 1024 true []
      = ([] ++ [CReorder "B" (kept ++ [1])], Done tt).
Proof.
  apply (@LoopOrderAssignReduce_reorder_permutation wide_oracle "B" [1] 1024
           false []).
  - by vm_compute.
  - apply NoDup_singleton.
  - intros a Ha%list_elem_of_singleton. subst a. vm_compute. split; [discriminate|done].
Defined.

(** ** The factor search shared by the two planners *)

Lemma factor_loop_spec (strict : bool) (prefix lo : Z) (n : nat) :
  0 <= lo ->
  (exists d, lo < d <= lo + Z.of_nat n /\ Z.rem prefix d = 0 /\
     (forall d', d < d' <= lo + Z.of_nat n -> Z.rem prefix d' <> 0) /\
     factor_loop strict n prefix (lo + Z.of_nat n) lo = Done (Some d))
  \/
  ((forall d, lo < d <= lo + Z.of_nat n -> Z.rem prefix d <> 0) /\
   factor_loop strict n prefix (lo + Z.of_nat n) lo
     = if strict && (0 <? Z.of_nat n)
       then Abort (CheckFailed "idx - 1 > (max_num_threads / 2) / tail")
       else Done None).
Proof.
  intros Hlo. induction n as [|n IH].
  - right. split; [intros d Hd; lia|]. simpl. by rewrite andb_false_r.
  - cbn [factor_loop]. unfold int_rem.
    destruct (lo + Z.of_nat (S n) =? 0) eqn:Hz; [cmp_lia|]. simpl.
    destruct (Z.rem prefix (lo + Z.of_nat (S n)) =? 0) eqn:Hrem.
    { left. exists (lo + Z.of_nat (S n)). split; [lia|]. split; [cmp_lia|].
      split; [intros d' Hd'; lia|done]. }
    replace (lo + Z.of_nat (S n) - 1) with (lo + Z.of_nat n) by lia.
    destruct (strict && negb (lo + Z.of_nat n >? lo)) eqn:Hstop.
    + right. apply andb_true_iff in Hstop as [-> Hstop].
      apply negb_true_iff in Hstop. assert (n = 0%nat) as -> by cmp_lia.
      split; [|done]. intros d Hd.
      replace d with (lo + Z.of_nat 1) by lia. cmp_lia.
    + destruct IH as [(d & Hd & Hdiv & Hmax & Hrun)|[Hnone Hrun]].
      * left. exists d. split; [lia|]. split; [done|]. split; [|done].
        intros d' Hd'.
        destruct (decide (d' = lo + Z.of_nat (S n))) as [->|Hne]; [cmp_lia|].
        apply Hmax. lia.
      * right. split.
        -- intros d Hd.
           destruct (decide (d = lo + Z.of_nat (S n))) as [->|Hne]; [cmp_lia|].
           apply Hnone. lia.
        -- rewrite Hrun. destruct strict; [|done]. simpl in *.
           apply negb_false_iff in Hstop.
           destruct (0 <? Z.of_nat n) eqn:Hn; [|cmp_lia].
           by destruct (0 <? Z.of_nat (S n)) eqn:Hn'; [|cmp_lia].
Qed.



(** ** Searches that do not end *)

Lemma topo_sweep_keeps_cycle g vc (C : gset string) tmp :
  (forall n, n ∈ C -> exists c, c ∈ C /\ edge g vc n c) ->
  forall ns order ns' order',
  C ⊆ ns -> topo_sweep g vc tmp ns order = (ns', order') -> C ⊆ ns'.
Proof.
  intros Hcycle. induction tmp as [|node rest IH];
    intros ns order ns' order' Hsub Hsw; simpl in Hsw.
  - by inversion Hsw; subst.
  - destruct (existsb _ (FindConsumers g node ns vc)) eqn:Hex; [by eapply IH|].
    eapply IH; [|exact Hsw].
    assert (node ∉ C) as Hnode.
    { intros Hin. destruct (Hcycle node Hin) as (c & Hc & Hedge).
      apply (erasable_no_consumer _ _ _ _ _ Hex Hedge). by apply Hsub. }
    set_solver.
Qed.

(** X5.  [TopologicalOrder] has no exit for a group with a cycle: when some
    non-empty part of the group is such that each of its nodes has a (real
    or virtual) consumer in that part, none of these nodes is ever erased
    from [nodes_set] and the [while] loop runs on, whatever the number of
    sweeps allowed. *)
Theorem TopologicalOrder_cycle_never_returns (g : Graph) (group : gset string)
    (vc : gmap string string) (C : gset string) :
  C <> ∅ -> C ⊆ group ->
  (forall n, n ∈ C -> exists c, c ∈ C /\ edge g vc n c) ->
  forall fuel, TopologicalOrder fuel g group vc = None.
Proof.
  intros Hne Hsub Hcycle fuel. unfold TopologicalOrder.
  generalize (@nil string) as order. revert Hsub. generalize group as ns.
  induction fuel as [|fuel IH]; intros ns Hsub order; simpl.
  - destruct (decide (ns = ∅)) as [->|_]; [|done]. set_solver.
  - destruct (decide (ns = ∅)) as [->|_]; [set_solver|].
    destruct (topo_sweep _ _ _ _ _) as [ns' order'] eqn:Hsw.
    apply IH. by eapply topo_sweep_keeps_cycle.
Qed.

Lemma ring_graph_edges :
  forall n, n ∈ chain_group ->
    exists c, c ∈ chain_group /\ edge ring_graph ∅ n c.
Proof.
  intros n Hn. unfold chain_group in Hn.
  apply elem_of_union in Hn as [Hn%elem_of_singleton|Hn%elem_of_singleton];
    subst n.
  - exists "b". split; [set_solver|]. left. vm_compute. by left.
  - exists "a". split; [set_solver|]. left. vm_compute. by left.
Qed.

Lemma TopologicalOrder_cycle_never_returns_witness :
  TopologicalOrder 1000 ring_graph chain_group ∅ = None.
Proof.
  apply (TopologicalOrder_cycle_never_returns ring_graph chain_group ∅
           chain_group).
  - unfold chain_group. set_solver.
  - done.
  - exact ring_graph_edges.
Defined.

Lemma route_visit_no_reducer g cs : forall q,
  (forall c, c ∈ cs -> op_pattern_dict g c <> kReduction) ->
  route_visit g cs q = inr (q ++ cs).
Proof.
  induction cs as [|c cs IH]; intros q Hcs; simpl.
  - by rewrite app_nil_r.
  - unfold is_reduction. rewrite bool_decide_eq_false_2 by (apply Hcs; by left).
    rewrite IH by (intros x Hx; apply Hcs; by right).
    by rewrite <- app_assoc.
Qed.

(** X6.  [FindReducerInRoute] keeps no record of the nodes it has searched:
    started inside a part of the graph that the visitor never leaves, where
    every node has a neighbour and none is a Reduction, its queue never
    empties and the search does not return, whatever the number of steps
    allowed. *)
Theorem FindReducerInRoute_cycle_never_returns (g : Graph)
    (nodes_set : gset string) (visitor : Visitor) (C : gset string)
    (node : string) :
  node ∈ C ->
  (forall n, n ∈ C ->
     visitor g n nodes_set <> [] /\
     forall c, c ∈ visitor g n nodes_set ->
       c ∈ C /\ op_pattern_dict g c <> kReduction) ->
  forall fuel,
    FindReducerInRoute fuel g node nodes_set visitor = Abort OutOfFuel.
Proof.
  intros Hnode Hcycle fuel. unfold FindReducerInRoute.
  assert (forall q, q <> [] -> Forall (fun x => x ∈ C) q ->
            route_loop fuel g nodes_set visitor q = None) as Hloop.
  { induction fuel as [|fuel IH]; intros q Hq HC; simpl; [done|].
    destruct q as [|x rest]; [done|].
    apply Forall_cons in HC as [Hx Hrest].
    destruct (Hcycle x Hx) as [Hne Hall].
    rewrite route_visit_no_reducer by (intros c Hc; by apply Hall).
    apply IH.
    - destruct (visitor g x nodes_set); [done|]. by destruct rest.
    - apply Forall_app. split; [done|]. apply Forall_forall.
      intros c Hc. by apply Hall. }
  rewrite Hloop; [done|done|]. by constructor.
Qed.

Lemma FindReducerInRoute_cycle_never_returns_witness :
  FindReducerInRoute 1000 ring_graph "a" chain_group GetConsumersInSet
  = Abort OutOfFuel.
Proof.
  apply (FindReducerInRoute_cycle_never_returns ring_graph chain_group
           GetConsumersInSet chain_group "a").
  - unfold chain_group. set_solver.
  - intros n Hn. unfold chain_group in Hn.
    apply elem_of_union in Hn as [Hn%elem_of_singleton|Hn%elem_of_singleton];
      subst n; (split; [by vm_compute|]); intros c Hc; vm_compute in Hc;
      apply list_elem_of_singleton in Hc; subst c;
      (split; [unfold chain_group; set_solver|by vm_compute]).
Defined.

(** ** [InsertSyncThread] *)

Section barrier.
Context `{ScheduleOracle}.

(** X7.  [InsertSyncThread] adds one barrier, after the last loop of the
    node's own block, exactly when the reduction leaves the last dimension
    out and both the node's tensor and its first staged tensor (key
    [id + "_0"]) are in [tensor_map] with their blocks in the schedule;
    in every other case it leaves the schedule as it is. *)
Theorem InsertSyncThread_barrier_condition (g : Graph) (node : string)
    (shape_dict : gmap string (list Z)) (tensor_map : gmap string Tensor)
    (shape : list Z) (s : list Cmd) :
  input_shape_checked g node shape_dict = Done shape ->
  let id := GetNodeData g node in
  let staged key :=
    match tensor_map !! key with
    | Some tensor => HasBlock s (tensor_name tensor)
    | None => false
    end in
  InsertSyncThread g node shape_dict tensor_map s
  = if WithoutLastDimInReduce shape (reduce_axes g node shape)
       && staged id && staged (id +:+ "_0")
    then
      match last (GetLoops s id) with
      | Some loop => (s ++ [CSyncThreads id loop false], Done tt)
      | None => (s, Abort (OutOfRange "loops.back()"))
      end
    else (s, Done tt).
Proof.
  intros Hshape id staged. unfold InsertSyncThread, sbind, lift.
  rewrite Hshape. fold id.
  destruct (WithoutLastDimInReduce shape (reduce_axes g node shape)); [|done].
  simpl. rewrite append_empty_r. unfold staged.
  destruct (tensor_map !! id) as [tensor|]; [|done].
  unfold sbind, has_block.
  destruct (HasBlock s (tensor_name tensor)); [|done]. simpl.
  change ("_" +:+ pretty 0) with "_0".
  destruct (tensor_map !! (id +:+ "_0")) as [tensor0|]; [|done].
  destruct (HasBlock s (tensor_name tensor0)); [|done]. simpl.
  unfold SyncThreadsAtBack, sbind, get_loops, lift, back, emit.
  by destruct (last (GetLoops s id)).
Qed.
End barrier.

Lemma InsertSyncThread_barrier_condition_witness :
  let id := GetNodeData reduce_graph "r" in
  let staged key :=
    match staged_tensors !! key with
    | Some tensor => @HasBlock staged_oracle [] (tensor_name tensor)
    | None => false
    end in
  @InsertSyncThread staged_oracle reduce_graph "r" reduce_shapes staged_tensors []
  = if WithoutLastDimInReduce [4; 8] (reduce_axes reduce_graph "r" [4; 8])
       && staged id && staged (id +:+ "_0")
    then
      match last (@GetLoops staged_oracle [] id) with
      | Some loop => ([] ++ [CSyncThreads id loop false], Done tt)
      | None => ([], Abort (OutOfRange "loops.back()"))
      end
    else ([], Done tt).
Proof.
  apply (@InsertSyncThread_barrier_condition staged_oracle reduce_graph "r"
           reduce_shapes staged_tensors [4; 8] []).
  reflexivity.
Defined.

Example InsertSyncThread_staged_reducer :
  @InsertSyncThread staged_oracle reduce_graph "r" reduce_shapes staged_tensors []
  = ([CSyncThreads "d_r" (mk_loop 1 8) false], Done tt).
Proof. by vm_compute. Qed.

(** ** [SyncThreadWithShared] on short block lists *)

(** X8.  The main loop of [SyncThreadWithShared] runs while
    [idx < exprs_inorder.size() - 1], a comparison of unsigned numbers: on a
    schedule without blocks the bound wraps around and the first read,
    [exprs_inorder[0]], is outside the list; on a schedule with one block the
    loop body never runs and the schedule is left as it is. *)
Theorem SyncThreadWithShared_short_block_list `{ScheduleOracle}
    (fuel : nat) (g : Graph) (nodes_inline nodes_set : gset string)
    (shape_dict : gmap string (list Z)) (tensor_map : gmap string Tensor)
    (s : list Cmd) :
  (GetAllBlocks s = [] ->
   SyncThreadWithShared fuel g nodes_inline nodes_set shape_dict tensor_map s
     = (s, Abort (OutOfRange "exprs_inorder[idx]"))) /\
  (forall block, GetAllBlocks s = [block] ->
   SyncThreadWithShared fuel g nodes_inline nodes_set shape_dict tensor_map s
     = (s, Done tt)).
Proof.
  split.
  - intros Hnone. unfold SyncThreadWithShared. by rewrite Hnone.
  - intros block Hone. unfold SyncThreadWithShared. by rewrite Hone.
Qed.

Lemma SyncThreadWithShared_short_block_list_witness :
  @SyncThreadWithShared empty_oracle 3 chain_graph ∅ chain_group chain_shapes ∅ []
    = ([], Abort (OutOfRange "exprs_inorder[idx]")) /\
  @SyncThreadWithShared single_oracle 3 chain_graph ∅ chain_group chain_shapes ∅ []
    = ([], Done tt).
Proof.
  split.
  - apply (proj1 (@SyncThreadWithShared_short_block_list empty_oracle 3
                    chain_graph ∅ chain_group chain_shapes ∅ [])).
    reflexivity.
  - apply (proj2 (@SyncThreadWithShared_short_block_list single_oracle 3
                    chain_graph ∅ chain_group chain_shapes ∅ []) "d_a").
    reflexivity.
Defined.

(** ** The staged-tensor loops end *)

Section termination.
Context `{ScheduleOracle}.

Lemma terminates_sret {A} (a : A) : terminates (sret a).
Proof. intros s. discriminate. Qed.

Lemma terminates_emit c : terminates (emit c).
Proof. intros s. discriminate. Qed.

Lemma terminates_abort {A} e : e <> OutOfFuel -> terminates (@abort A e).
Proof. intros He s [=]. done. Qed.

Lemma terminates_get_loops name : terminates (get_loops name).
Proof. intros s. discriminate. Qed.

Lemma terminates_has_block name : terminates (has_block name).
Proof. intros s. discriminate. Qed.

Lemma terminates_bind {A B} (m : Sched A) (k : A -> Sched B) :
  terminates m -> (forall a, terminates (k a)) -> terminates (sbind m k).
Proof.
  intros Hm Hk s. unfold sbind. specialize (Hm s).
  destruct (m s) as [s' [a|e]]; simpl in *; [apply Hk|congruence].
Qed.

Lemma terminates_bind_lift {A B} (o : Outcome A) (k : A -> Sched B) :
  o <> Abort OutOfFuel -> (forall a, o = Done a -> terminates (k a)) ->
  terminates (sbind (lift o) k).
Proof.
  intros Ho Hk s. unfold sbind, lift. destruct o as [a|e]; simpl.
  - by apply Hk.
  - congruence.
Qed.

Lemma orequire_terminates {A} what (o : option A) :
  orequire what o <> Abort OutOfFuel.
Proof. by destruct o. Qed.

Lemma terminates_SimpleComputeAtBack block_name loops_of :
  terminates (SimpleComputeAtBack block_name loops_of).
Proof.
  unfold SimpleComputeAtBack.
  apply terminates_bind; [apply terminates_get_loops|]. intros loops.
  apply terminates_bind_lift; [apply orequire_terminates|].
  intros loop _. apply terminates_emit.
Qed.

Lemma terminates_SyncThreadsAtBack id : terminates (SyncThreadsAtBack id).
Proof.
  unfold SyncThreadsAtBack.
  apply terminates_bind; [apply terminates_get_loops|]. intros loops.
  apply terminates_bind_lift; [apply orequire_terminates|].
  intros loop _. apply terminates_emit.
Qed.

Lemma terminates_MergeLoops src dst index : terminates (MergeLoops src dst index).
Proof.
  unfold MergeLoops.
  destruct (index <? 0); [apply terminates_sret|].
  destruct (negb _); [by apply terminates_abort|].
  destruct (negb _); [by apply terminates_abort|].
  apply terminates_bind_lift; [apply orequire_terminates|]. intros src0 _.
  apply terminates_bind_lift; [apply orequire_terminates|]. intros dst0 _.
  case_bool_decide; [apply terminates_sret|].
  apply terminates_bind_lift; [apply orequire_terminates|]. intros src_at _.
  apply terminates_bind_lift; [apply orequire_terminates|]. intros dst_at _.
  apply terminates_bind; [apply terminates_emit|]. intros _.
  apply terminates_bind; [apply terminates_emit|]. intros _.
  apply terminates_emit.
Qed.

(** The [while] of [stage_match] advances [index] and stops at the end of
    [src_loops] at the latest. *)
Lemma stage_match_terminates n : forall src dst index,
  vsize src - index - 2 <= Z.of_nat n ->
  stage_match n src dst index <> Abort OutOfFuel.
Proof.
  induction n as [|n IH]; intros src dst index Hn; simpl;
    (destruct (at_ src (index + 1)) as [sl|] eqn:Hsl; simpl; [|done]);
    (destruct (at_ dst (index + 1)) as [dl|] eqn:Hdl; simpl; [|done]);
    apply at_Some_bound in Hsl;
    (destruct (loop_extent sl =? loop_extent dl); [|done]);
    (destruct (vsize src =? index + 1 + 1) eqn:Hend; simpl; [done|]);
    (destruct (vsize dst =? index + 1 + 1); [done|]).
  - cmp_lia.
  - apply IH. cmp_lia.
Qed.

Lemma merge_stages_terminates node_id (tensor_map : gmap string Tensor) fuel :
  forall idx post_ min_index_loop (seen : gset string),
  seen ⊆ dom tensor_map ->
  (size tensor_map < fuel + size seen)%nat ->
  (forall j, idx <= j -> node_id +:+ "_" +:+ pretty j ∉ seen) ->
  terminates (merge_stages fuel node_id tensor_map idx post_
                ("_" +:+ pretty idx) min_index_loop).
Proof.
  induction fuel as [|fuel IH]; intros idx post_ min_index_loop seen Hsub Hsize Hfut.
  - apply subseteq_size in Hsub. rewrite size_dom in Hsub. lia.
  - simpl.
    destruct (tensor_map !! (node_id +:+ "_" +:+ pretty idx)) as [tensor__|] eqn:Hlook;
      [|apply terminates_sret].
    unfold find_tensor.
    apply terminates_bind_lift; [apply orequire_terminates|]. intros tensor_ _.
    apply terminates_bind; [apply terminates_has_block|]. intros present.
    destruct (negb present); [apply terminates_sret|].
    apply terminates_bind; [apply terminates_get_loops|]. intros dst_loops.
    apply terminates_bind; [apply terminates_get_loops|]. intros src_loops.
    apply terminates_bind_lift.
    { apply stage_match_terminates. unfold vsize. lia. }
    intros index _.
    apply terminates_bind; [apply terminates_MergeLoops|]. intros _.
    apply (IH (idx + 1) _ _ ({[node_id +:+ "_" +:+ pretty idx]} ∪ seen)).
    + apply union_least; [|done]. apply singleton_subseteq_l.
      apply elem_of_dom. eauto.
    + rewrite size_union.
      * rewrite size_singleton. lia.
      * apply disjoint_singleton_l. apply Hfut. lia.
    + intros j Hj [Hin%elem_of_singleton|Hin]%elem_of_union.
      * apply (inj (String.app node_id)) in Hin.
        apply (inj (String.app "_")) in Hin. apply (inj pretty) in Hin. lia.
      * apply (Hfut j); [lia|done].
Qed.

Lemma terminates_InsertSyncThread g node shape_dict tensor_map :
  terminates (InsertSyncThread g node shape_dict tensor_map).
Proof.
  unfold InsertSyncThread.
  apply terminates_bind_lift.
  { unfold input_shape_checked.
    destruct (inlinks_in_order g node !! 0%nat); simpl; [|done].
    by destruct (shape_dict !! _). }
  intros shape _. destruct (negb _); [apply terminates_sret|].
  simpl.
  destruct (tensor_map !! _); [|apply terminates_sret].
  apply terminates_bind; [apply terminates_has_block|]. intros present.
  destruct (negb present); [apply terminates_sret|]. simpl.
  destruct (tensor_map !! _); [|apply terminates_sret].
  apply terminates_bind; [apply terminates_has_block|]. intros present'.
  destruct (negb present'); [apply terminates_sret|]. simpl.
  apply terminates_SyncThreadsAtBack.
Qed.

Lemma terminates_reduce_attach_scan node_id master_id node_loops master_loops
    min_index_loop k :
  terminates (reduce_attach_scan k node_id master_id node_loops master_loops
                min_index_loop).
Proof.
  induction k as [|k IH]; simpl reduce_attach_scan;
    (apply terminates_bind_lift; [apply orequire_terminates|]; intros n _);
    (apply terminates_bind_lift; [apply orequire_terminates|]; intros m _);
    (destruct (negb _);
     [|apply terminates_bind;
       [apply terminates_MergeLoops
       |intros _; destruct (_ >? _);
        [apply terminates_SimpleComputeAtBack|apply terminates_sret]]]).
  - apply terminates_sret.
  - apply IH.
Qed.

Lemma terminates_attach_scan node_loops master_loops k :
  terminates (attach_scan k node_loops master_loops).
Proof.
  induction k as [|k IH]; simpl attach_scan;
    (apply terminates_bind_lift; [apply orequire_terminates|]; intros n _);
    (apply terminates_bind_lift; [apply orequire_terminates|]; intros m _);
    (destruct (negb _); [|apply terminates_MergeLoops]).
  - apply terminates_sret.
  - apply IH.
Qed.

Lemma real_master_prefix_terminates master_id (tensor_map : gmap string Tensor)
    fuel : forall idx prefix post (seen : gset string),
  seen ⊆ dom tensor_map ->
  (size tensor_map < fuel + size seen)%nat ->
  master_id +:+ post ∉ seen ->
  (forall j, idx <= j -> master_id +:+ "_" +:+ pretty j ∉ seen) ->
  (post = "" /\ idx = 0) \/ (post = "_" +:+ pretty (idx - 1) /\ 1 <= idx) ->
  terminates (real_master_prefix fuel master_id tensor_map idx prefix post).
Proof.
  intros idx prefix post seen Hsub Hsize Hkey Hfut Hpost s.
  destruct (real_master_prefix_returns master_id tensor_map fuel idx prefix post
              seen s Hsub Hsize Hkey Hfut Hpost) as (p & -> & _).
  done.
Qed.

Lemma collect_vars_terminates idxs n_loops m_loops :
  collect_vars idxs n_loops m_loops <> Abort OutOfFuel.
Proof.
  induction idxs as [|idx rest IH]; simpl; [done|].
  destruct (at_ n_loops idx); simpl; [|done].
  destruct (at_ m_loops idx); simpl; [|done].
  by destruct (collect_vars rest n_loops m_loops).
Qed.

Lemma first_mismatch_terminates idxs nloops mloops :
  first_mismatch idxs nloops mloops <> Abort OutOfFuel.
Proof.
  induction idxs as [|idx rest IH]; simpl; [done|].
  destruct (at_ nloops idx) as [n|]; simpl; [|done].
  destruct (at_ mloops idx) as [m|]; simpl; [|done].
  destruct (loop_extent n =? loop_extent m); [done|].
  by destruct (at_ mloops (idx - 1)).
Qed.

Lemma input_shape_checked_terminates g node shape_dict :
  input_shape_checked g node shape_dict <> Abort OutOfFuel.
Proof.
  unfold input_shape_checked.
  destruct (inlinks_in_order g node !! 0%nat); simpl; [|done].
  by destruct (shape_dict !! _).
Qed.

Lemma input_shape_at_terminates g node shape_dict :
  input_shape_at g node shape_dict <> Abort OutOfFuel.
Proof.
  unfold input_shape_at.
  destruct (inlinks_in_order g node !! 0%nat); simpl; [|done].
  apply orequire_terminates.
Qed.

Ltac terminates_pure :=
  first [ apply orequire_terminates
        | apply input_shape_checked_terminates
        | apply input_shape_at_terminates
        | apply collect_vars_terminates
        | apply first_mismatch_terminates ].

Ltac terminates_step :=
  first [ apply terminates_sret
        | apply terminates_emit
        | apply terminates_SimpleComputeAtBack
        | apply terminates_MergeLoops
        | apply terminates_get_loops
        | apply terminates_bind_lift; [terminates_pure|intros ? _]
        | apply terminates_bind; [|intros ?] ].

Ltac terminates_auto :=
  repeat first
    [ progress cbv zeta
    | terminates_step
    | match goal with
      | |- terminates (if ?b then _ else _) => destruct b
      | |- terminates (match ?t with Some _ => _ | None => _ end) => destruct t
      | |- terminates (abort _) => by apply terminates_abort
      end ].

Lemma terminates_MergeReduceToReduce g node master shape_dict tensor_map :
  terminates (MergeReduceToReduce g node master shape_dict tensor_map).
Proof.
  unfold MergeReduceToReduce, find_tensor, back. terminates_auto.
Qed.

(** X9.  The loops of [MergeReduceLoop] and [LoopComputeAt] over the staged
    tensors [id], [id_0], [id_1], ... end, because the keys they look up are
    pairwise different and [tensor_map] is finite, and so does the [while]
    that compares the loop extents of two staged tensors: given more steps
    than [tensor_map] has entries, no run of either function is cut short. *)
Theorem LoopComputeAt_terminates (fuel : nat) (g : Graph)
    (node master : string) (output_nodes : gset string)
    (shape_dict : gmap string (list Z)) (tensor_map : gmap string Tensor)
    (s : list Cmd) :
  (size tensor_map < fuel)%nat ->
  (MergeReduceLoop fuel g node master shape_dict tensor_map s).2
    <> Abort OutOfFuel /\
  (LoopComputeAt fuel g node master output_nodes shape_dict tensor_map s).2
    <> Abort OutOfFuel.
Proof.
  intros Hfuel.
  assert (terminates (MergeReduceLoop fuel g node master shape_dict tensor_map))
    as Hreduce.
  { unfold MergeReduceLoop.
    destruct (is_reduction g master && _); [apply terminates_MergeReduceToReduce|].
    apply terminates_bind.
    { apply (merge_stages_terminates _ _ _ 0 "" int_max ∅).
      - set_solver.
      - rewrite size_empty. lia.
      - set_solver. }
    intros min_index_loop.
    apply terminates_bind; [apply terminates_InsertSyncThread|]. intros _.
    case_bool_decide; [apply terminates_sret|].
    apply terminates_bind; [apply terminates_get_loops|]. intros node_loops.
    apply terminates_bind; [apply terminates_get_loops|]. intros master_loops.
    destruct (_ <? 0); [by apply terminates_abort|].
    apply terminates_reduce_attach_scan. }
  split; [apply Hreduce|].
  revert s. fold (terminates
    (LoopComputeAt fuel g node master output_nodes shape_dict tensor_map)).
  unfold LoopComputeAt.
  apply terminates_bind.
  { unfold LoopComputeAt_scope.
    case_bool_decide; [apply terminates_sret|apply terminates_emit]. }
  intros _. destruct (is_reduction g node); [apply Hreduce|].
  case_bool_decide; [apply terminates_sret|].
  apply terminates_bind; [apply terminates_get_loops|]. intros node_loops.
  apply terminates_bind.
  { unfold LoopComputeAt_master_loops.
    apply terminates_bind; [apply terminates_get_loops|]. intros master_loops.
    destruct (is_reduction g master); [|apply terminates_sret].
    apply terminates_bind.
    { apply (real_master_prefix_terminates _ _ _ 0 "" "" ∅).
      - set_solver.
      - rewrite size_empty. lia.
      - set_solver.
      - set_solver.
      - by left. }
    intros prefix. unfold find_tensor.
    apply terminates_bind_lift; [apply orequire_terminates|]. intros tensor _.
    apply terminates_get_loops. }
  intros master_loops.
  destruct (_ <? 0); [by apply terminates_abort|].
  apply terminates_attach_scan.
Qed.
End termination.

Lemma LoopComputeAt_terminates_witness :
  (@MergeReduceLoop staged_oracle 3 reduce_graph "r" "r" reduce_shapes
     staged_tensors []).2 <> Abort OutOfFuel /\
  (@LoopComputeAt staged_oracle 3 reduce_graph "r" "r" reduce_outputs
     reduce_shapes staged_tensors []).2 <> Abort OutOfFuel.
Proof.
  apply (@LoopComputeAt_terminates staged_oracle 3 reduce_graph "r" "r"
           reduce_outputs reduce_shapes staged_tensors []).
  vm_compute. lia.
Defined.

(** ** Searches with a visited set *)

(** Marking fresh nodes of [U] as visited lowers the number of nodes of [U]
    still to visit by their count. *)
Lemma size_difference_pushed (U visited : gset string) (pushed : list string) :
  NoDup pushed -> (forall x, x ∈ pushed -> x ∈ U /\ x ∉ visited) ->
  (size (U ∖ (list_to_set pushed ∪ visited)) + length pushed
   = size (U ∖ visited))%nat.
Proof.
  induction 1 as [|x pushed Hx Hnd IH]; intros Hin; simpl.
  - replace (∅ ∪ visited) with visited by set_solver. lia.
  - destruct (Hin x ltac:(by left)) as [HxU Hxv].
    rewrite <- IH by (intros y Hy; apply Hin; by right).
    replace (U ∖ ({[x]} ∪ list_to_set pushed ∪ visited))
      with ((U ∖ (list_to_set pushed ∪ visited)) ∖ {[x]}) by set_solver.
    rewrite size_difference.
    + rewrite size_singleton.
      assert (size (U ∖ (list_to_set pushed ∪ visited)) <> 0)%nat; [|lia].
      intros Hz. apply size_empty_inv in Hz.
      assert (x ∈ U ∖ (list_to_set pushed ∪ visited)) as Hmem; [|set_solver].
      apply elem_of_difference. split; [done|].
      rewrite elem_of_union, elem_of_list_to_set. tauto.
    + apply singleton_subseteq_l, elem_of_difference. split; [done|].
      rewrite elem_of_union, elem_of_list_to_set. tauto.
Qed.

Lemma GetMaster_visit_inl consumers nodes_inline : forall visited q m,
  GetMaster_visit consumers nodes_inline visited q = inl m ->
  m ∈ consumers /\ m ∉ nodes_inline.
Proof.
  induction consumers as [|c cs IH]; intros visited q m Hv; simpl in Hv; [done|].
  case_bool_decide as Hvis.
  { apply IH in Hv as [? ?]. split; [by right|done]. }
  case_bool_decide as Hinl.
  { apply IH in Hv as [? ?]. split; [by right|done]. }
  inversion Hv; subst. split; [by left|done].
Qed.

Lemma GetMaster_visit_inr consumers nodes_inline : forall visited q visited' q',
  GetMaster_visit consumers nodes_inline visited q = inr (visited', q') ->
  exists pushed,
    q' = q ++ pushed /\ visited' = list_to_set pushed ∪ visited /\
    NoDup pushed /\
    (forall x, x ∈ pushed ->
       x ∈ consumers /\ x ∈ nodes_inline /\ x ∉ visited) /\
    (forall c, c ∈ consumers -> c ∈ visited').
Proof.
  induction consumers as [|c cs IH]; intros visited q visited' q' Hv; simpl in Hv.
  - inversion Hv; subst. exists []. rewrite app_nil_r.
    split; [done|]. split; [set_solver|]. split; [constructor|].
    split; intros x Hx; by apply elem_of_nil in Hx.
  - case_bool_decide as Hvis.
    + apply IH in Hv as (pushed & -> & -> & Hnd & Hpushed & Hall).
      exists pushed. split; [done|]. split; [done|]. split; [done|]. split.
      * intros x Hx. destruct (Hpushed x Hx) as (? & ? & ?).
        split; [by right|done].
      * intros y [->|Hy]%elem_of_cons; [set_solver|by apply Hall].
    + case_bool_decide as Hinl; [|done].
      apply IH in Hv as (pushed & -> & -> & Hnd & Hpushed & Hall).
      exists (c :: pushed). split; [by rewrite <- app_assoc|].
      split; [set_solver|]. split.
      * apply NoDup_cons. split; [|done]. intros Hc.
        destruct (Hpushed c Hc) as (_ & _ & Hnot). set_solver.
      * split.
        -- intros x [->|Hx]%elem_of_cons; [split; [by left|done]|].
           destruct (Hpushed x Hx) as (? & ? & ?).
           split; [by right|]. split; [done|set_solver].
        -- intros y [->|Hy]%elem_of_cons; [set_solver|by apply Hall].
Qed.

Section master.
Context (g : Graph) (node : string) (nodes_inline nodes_set : gset string).
Let visit := fun n => GetConsumersInSet g n nodes_set.

Lemma GetMaster_loop_spec fuel : forall visited q,
  (size (nodes_inline ∖ visited) + length q < fuel)%nat ->
  (forall y, y ∈ q ->
     y = node \/ (through_inlined visit nodes_inline node y /\ y ∈ nodes_inline)) ->
  (forall y, y ∈ visited ->
     through_inlined visit nodes_inline node y /\ y ∈ nodes_inline) ->
  (forall y, y = node \/ y ∈ visited ->
     y ∈ q \/ forall c, c ∈ visit y -> c ∈ visited) ->
  exists r,
    GetMaster_loop fuel g nodes_inline nodes_set visited q = Done r /\
    (forall m, r = Some m ->
       (m ∉ nodes_inline) /\ m ∈ nodes_set /\
       through_inlined visit nodes_inline node m) /\
    (r = None ->
     forall x, through_inlined visit nodes_inline node x -> x ∈ nodes_inline).
Proof.
  induction fuel as [|fuel IH]; intros visited q Hfuel Hq Hvis Hclosed; [lia|].
  simpl. destruct q as [|x rest].
  - exists None. split; [done|]. split; [done|]. intros _.
    assert (forall y, through_inlined visit nodes_inline node y -> y ∈ visited)
      as Hreach.
    { induction 1 as [c Hc|y c _ IHy _ Hc].
      - destruct (Hclosed node ltac:(by left)) as [Hin|Hall];
          [by apply elem_of_nil in Hin|by apply Hall].
      - destruct (Hclosed y ltac:(by right)) as [Hin|Hall];
          [by apply elem_of_nil in Hin|by apply Hall]. }
    intros y Hy. by apply Hvis, Hreach.
  - assert (forall c, c ∈ visit x -> through_inlined visit nodes_inline node c)
      as Hstep.
    { intros c Hc. destruct (Hq x ltac:(by left)) as [->|[Hx Hinl]].
      - by apply through_direct.
      - by eapply through_step. }
    fold (visit x).
    destruct (GetMaster_visit (visit x) nodes_inline visited rest)
      as [m|[visited' q']] eqn:Hv.
    + apply GetMaster_visit_inl in Hv as [Hm Hnot].
      exists (Some m). split; [done|]. split; [|done].
      intros m' [= <-]. split; [done|]. split; [|by apply Hstep].
      by apply (GetConsumersInSet_in g x nodes_set).
    + apply GetMaster_visit_inr in Hv as (pushed & -> & -> & Hnd & Hpushed & Hall).
      apply IH.
      * pose proof (size_difference_pushed nodes_inline visited pushed Hnd) as Hsz.
        rewrite length_app. simpl in Hfuel.
        rewrite <- Hsz in Hfuel; [lia|].
        intros y Hy. destruct (Hpushed y Hy) as (_ & ? & ?). done.
      * intros y [Hy|Hy]%elem_of_app; [apply Hq; by right|].
        right. destruct (Hpushed y Hy) as (Hc & Hinl & _).
        split; [by apply Hstep|done].
      * intros y [Hy%elem_of_list_to_set|Hy]%elem_of_union; [|by apply Hvis].
        destruct (Hpushed y Hy) as (Hc & Hinl & _).
        split; [by apply Hstep|done].
      * intros y Hy. destruct (decide (y = x)) as [->|Hne]; [by right|].
        assert (y ∈ pushed \/ y = node \/ y ∈ visited) as [Hp|Hold].
        { destruct Hy as [->|[Hy%elem_of_list_to_set|Hy]%elem_of_union]; tauto. }
        -- left. apply elem_of_app. by right.
        -- destruct (Hclosed y Hold) as [[->|Hin]%elem_of_cons|Hcl]; [done| |].
           ++ left. apply elem_of_app. by left.
           ++ right. intros c Hc. apply elem_of_union. right. by apply Hcl.
Qed.

(** X10.  [GetMaster] always returns (its search marks the inlined nodes it
    queues, so it ends on any graph, within [size nodes_inline + 2] steps).
    The node it returns is a node of the group that is not inlined and is
    reached from [node] through consumers inside the group, every node
    passed on the way being inlined; it returns nothing exactly when every
    node reached in this way is inlined. *)
Theorem GetMaster_first_uninlined_consumer (fuel : nat) :
  (size nodes_inline + 1 < fuel)%nat ->
  exists r,
    GetMaster fuel g node nodes_inline nodes_set = Done r /\
    (forall m, r = Some m ->
       (m ∉ nodes_inline) /\ m ∈ nodes_set /\
       through_inlined (fun n => GetConsumersInSet g n nodes_set)
         nodes_inline node m) /\
    (r = None ->
     forall x,
       through_inlined (fun n => GetConsumersInSet g n nodes_set)
         nodes_inline node x -> x ∈ nodes_inline).
Proof.
  intros Hfuel. unfold GetMaster. apply GetMaster_loop_spec.
  - replace (nodes_inline ∖ ∅) with nodes_inline by set_solver. simpl. lia.
  - intros y Hy%list_elem_of_singleton. by left.
  - intros y Hy. by apply not_elem_of_empty in Hy.
  - intros y [->|Hy]; [left; by left|by apply not_elem_of_empty in Hy].
Qed.
End master.

Lemma GetMaster_first_uninlined_consumer_witness :
  exists r,
    GetMaster 3 reduce_graph "a" {["b"]} reduce_group = Done r /\
    (forall m, r = Some m ->
       (m ∉ ({["b"]} : gset string)) /\ m ∈ reduce_group /\
       through_inlined (fun n => GetConsumersInSet reduce_graph n reduce_group)
         {["b"]} "a" m) /\
    (r = None ->
     forall x,
       through_inlined (fun n => GetConsumersInSet reduce_graph n reduce_group)
         {["b"]} "a" x -> x ∈ ({["b"]} : gset string)).
Proof.
  apply (GetMaster_first_uninlined_consumer reduce_graph "a" {["b"]}
           reduce_group 3).
  rewrite size_singleton. lia.
Defined.

Example GetMaster_skips_inlined :
  GetMaster 4 reduce_graph "a" {["b"; "c"]} reduce_group = Done (Some "r").
Proof. by vm_compute. Qed.

(** ** [FindReducerInRoute] finds a nearest reducer *)

Lemma walk_snoc visit k : forall n x r,
  walk visit k n x -> r ∈ visit x -> walk visit (S k) n r.
Proof.
  induction k as [|k IH]; intros n x r Hw Hr; simpl in *.
  - exists x. done.
  - destruct Hw as (c & Hc & Hw). exists c. split; [done|]. by eapply IH.
Qed.

Lemma walk_last visit k : forall n r,
  walk visit (S k) n r -> exists x, walk visit k n x /\ r ∈ visit x.
Proof.
  induction k as [|k IH]; intros n r Hw.
  - destruct Hw as (c & Hc & Hr). exists c. done.
  - destruct Hw as (c & Hc & Hw). apply IH in Hw as (x & Hx & Hr).
    exists x. split; [|done]. exists c. done.
Qed.

Lemma walk_reaches_reducer g visit k : forall n r,
  walk visit k n r -> op_pattern_dict g r = kReduction ->
  reaches_reducer g visit n.
Proof.
  induction k as [|k IH]; intros n r Hw Hred; simpl in Hw.
  - by eapply reaches_here.
  - destruct Hw as (c & Hc & Hw). eapply reaches_step; [exact Hc|]. by eapply IH.
Qed.

Lemma reaches_reducer_walk g visit n :
  reaches_reducer g visit n ->
  exists k r, walk visit k n r /\ op_pattern_dict g r = kReduction.
Proof.
  induction 1 as [n c Hc Hred|n c Hc _ (k & r & Hw & Hred)].
  - exists 0%nat, c. done.
  - exists (S k), r. split; [|done]. exists c. done.
Qed.

Section nearest.
Context (g : Graph) (nodes_set : gset string) (visitor : Visitor) (node : string).
Let visit := fun n => visitor g n nodes_set.

(** [x] lies [d] steps away from [node]. *)
Let at_depth (d : nat) (x : string) : Prop :=
  match d with
  | O => x = node
  | S k => walk visit k node x
  end.

Lemma at_depth_child d x c : at_depth d x -> c ∈ visit x -> at_depth (S d) c.
Proof.
  destruct d as [|k]; simpl; intros Hx Hc.
  - by subst.
  - by eapply walk_snoc.
Qed.

Lemma at_depth_parent d c :
  at_depth (S d) c -> exists x, at_depth d x /\ c ∈ visit x.
Proof.
  destruct d as [|k]; simpl; intros Hc.
  - exists node. done.
  - by apply walk_last.
Qed.

(** The queue holds the rest of depth [d], then the nodes of depth [d + 1]
    found so far; no Reduction lies within depth [d], nor among the latter. *)
Let level_inv (d : nat) (todo next : list string) : Prop :=
  (forall j r, (j < d)%nat -> walk visit j node r ->
     op_pattern_dict g r <> kReduction) /\
  (forall x, x ∈ todo -> at_depth d x) /\
  (forall y, y ∈ next ->
     at_depth (S d) y /\ op_pattern_dict g y <> kReduction) /\
  (forall y, at_depth (S d) y ->
     y ∈ next \/ exists x, x ∈ todo /\ y ∈ visit x).

Lemma level_inv_next d next :
  level_inv d [] next -> level_inv (S d) next [].
Proof.
  intros (Hnone & _ & Hnext & Hall). split; [|split; [|split]].
  - intros j r Hj Hw. destruct (decide (j < d)%nat) as [Hlt|Hge].
    + by apply (Hnone j).
    + assert (j = d) as -> by lia.
      destruct (Hall r Hw) as [Hr|(x & Hx & _)]; [by apply Hnext|].
      by apply elem_of_nil in Hx.
  - intros x Hx. by apply Hnext.
  - intros y Hy. by apply elem_of_nil in Hy.
  - intros y Hy. right. apply at_depth_parent in Hy as (x & Hx & Hc).
    exists x. split; [|done].
    destruct (Hall x Hx) as [Hin|(x' & Hx' & _)]; [done|].
    by apply elem_of_nil in Hx'.
Qed.

Lemma level_inv_found d x todo next r :
  level_inv d (x :: todo) next -> r ∈ visit x ->
  walk visit d node r /\
  forall j r', walk visit j node r' -> op_pattern_dict g r' = kReduction ->
    (d <= j)%nat.
Proof.
  intros (Hnone & Htodo & _ & _) Hr. split.
  - apply (at_depth_child d x r); [|done]. apply Htodo. by left.
  - intros j r' Hw Hred. destruct (decide (d <= j)%nat) as [|Hlt]; [done|].
    exfalso. apply (Hnone j r'); [lia|done|done].
Qed.

Lemma level_inv_step d x todo next :
  level_inv d (x :: todo) next ->
  Forall (fun c => op_pattern_dict g c <> kReduction) (visit x) ->
  level_inv d todo (next ++ visit x).
Proof.
  intros (Hnone & Htodo & Hnext & Hall) Hcs. rewrite Forall_forall in Hcs.
  split; [done|]. split; [|split].
  - intros y Hy. apply Htodo. by right.
  - intros y [Hy|Hy]%elem_of_app; [by apply Hnext|]. split; [|by apply Hcs].
    apply (at_depth_child d x y); [|done]. apply Htodo. by left.
  - intros y Hy. destruct (Hall y Hy) as [Hin|(x' & [->|Hx']%elem_of_cons & Hc)].
    + left. apply elem_of_app. by left.
    + left. apply elem_of_app. by right.
    + right. exists x'. done.
Qed.

Lemma route_loop_nearest fuel : forall d todo next r,
  level_inv d todo next ->
  route_loop fuel g nodes_set visitor (todo ++ next) = Some (Some r) ->
  exists k, walk visit k node r /\ op_pattern_dict g r = kReduction /\
    forall j r', walk visit j node r' -> op_pattern_dict g r' = kReduction ->
      (k <= j)%nat.
Proof.
  induction fuel as [|fuel IH]; intros d todo next r Hinv Hrun; [done|].
  assert (exists d' x todo' next',
            todo ++ next = x :: todo' ++ next' /\
            level_inv d' (x :: todo') next') as (d' & x & todo' & next' & Hq & Hinv').
  { destruct todo as [|x todo'].
    - destruct next as [|x next']; [done|].
      exists (S d), x, next', []. split; [by rewrite app_nil_r|].
      by apply level_inv_next.
    - exists d, x, todo', next. done. }
  rewrite Hq in Hrun. simpl in Hrun. fold (visit x) in Hrun.
  destruct (route_visit g (visit x) (todo' ++ next')) as [r'|q'] eqn:Hv.
  - apply route_visit_inl in Hv as [Hin Hred]. inversion Hrun; subst r'.
    destruct (level_inv_found _ _ _ _ _ Hinv' Hin) as [Hw Hmin].
    exists d'. done.
  - apply route_visit_inr in Hv as [-> Hall].
    rewrite <- app_assoc in Hrun.
    apply (IH d' todo' (next' ++ visit x)); [|done].
    by apply level_inv_step.
Qed.

Lemma FindReducerInRoute_found (fuel : nat) (r : string) :
  FindReducerInRoute fuel g node nodes_set visitor = Done (Some r) ->
  exists k, walk visit k node r /\ op_pattern_dict g r = kReduction /\
    forall j r', walk visit j node r' -> op_pattern_dict g r' = kReduction ->
      (k <= j)%nat.
Proof.
  unfold FindReducerInRoute. intros Hrun.
  destruct (route_loop fuel g nodes_set visitor [node]) as [res|] eqn:Hloop;
    [|done].
  inversion Hrun; subst res.
  apply (route_loop_nearest fuel 0 [node] [] r); [|done].
  split; [intros j r' Hj; lia|]. split; [|split].
  - intros x Hx%list_elem_of_singleton. done.
  - intros y Hy. by apply elem_of_nil in Hy.
  - intros y Hy. right. exists node. split; [by left|done].
Qed.

(** X11.  The reducer that [FindReducerInRoute] returns is a nearest one:
    it is a Reduction node reached from the start node in some number of
    steps of the visitor, and no Reduction node is reached in fewer; when
    the search returns nothing, no Reduction node is reached at all. *)
Theorem FindReducerInRoute_nearest (fuel : nat) (found : option string) :
  FindReducerInRoute fuel g node nodes_set visitor = Done found ->
  match found with
  | Some r =>
      exists k,
        walk (fun n => visitor g n nodes_set) k node r /\
        op_pattern_dict g r = kReduction /\
        forall j r',
          walk (fun n => visitor g n nodes_set) j node r' ->
          op_pattern_dict g r' = kReduction -> (k <= j)%nat
  | None =>
      forall j r', walk (fun n => visitor g n nodes_set) j node r' ->
        op_pattern_dict g r' <> kReduction
  end.
Proof.
  intros Hrun. destruct found as [r|]; [by apply (FindReducerInRoute_found fuel)|].
  unfold FindReducerInRoute in Hrun.
  destruct (route_loop fuel g nodes_set visitor [node]) as [res|] eqn:Hloop;
    [|done].
  inversion Hrun; subst res.
  intros j r' Hw Hred.
  apply (route_loop_absent g nodes_set visitor fuel [node] Hloop node);
    [by left|].
  by eapply walk_reaches_reducer.
Qed.
End nearest.

Lemma FindReducerInRoute_nearest_witness :
  exists k,
    walk (fun n => GetConsumersInSet reduce_graph n reduce_group) k "a" "r" /\
    op_pattern_dict reduce_graph "r" = kReduction /\
    forall j r',
      walk (fun n => GetConsumersInSet reduce_graph n reduce_group) j "a" r' ->
      op_pattern_dict reduce_graph r' = kReduction -> (k <= j)%nat.
Proof.
  apply (FindReducerInRoute_nearest reduce_graph reduce_group GetConsumersInSet
           "a" 5 (Some "r")).
  reflexivity.
Defined.

(** ** [FindNearestReducer] *)

Lemma walk_in_set visit (S : gset string) k : forall n r,
  (forall n c, c ∈ visit n -> c ∈ S) -> walk visit k n r -> r ∈ S.
Proof.
  induction k as [|k IH]; intros n r Hsub Hw; simpl in Hw.
  - by eapply Hsub.
  - destruct Hw as (c & _ & Hw). by eapply IH.
Qed.

Lemma sum_list_with_elem (f : string -> nat) (l : list string) (x : string) :
  x ∈ l -> (f x <= sum_list_with f l)%nat.
Proof.
  induction l as [|y l IH]; intros Hx; [by apply elem_of_nil in Hx|].
  simpl. apply elem_of_cons in Hx as [->|Hx]; [lia|].
  specialize (IH Hx). lia.
Qed.

Section searches.
Context (g : Graph) (nodes_set : gset string) (rank_c rank_p : string -> nat).
Hypothesis consumers_lower : forall n c,
  n ∈ nodes_set -> c ∈ GetConsumersInSet g n nodes_set ->
  (rank_c c < rank_c n)%nat.
Hypothesis producers_lower : forall n p,
  n ∈ nodes_set -> p ∈ GetProducersInSet g n nodes_set ->
  (rank_p p < rank_p n)%nat.
Let vc := fun n => GetConsumersInSet g n nodes_set.
Let vp := fun n => GetProducersInSet g n nodes_set.

Lemma route_consumers fuel node :
  node ∈ nodes_set -> (route_fuel g nodes_set rank_c rank_p <= fuel)%nat ->
  exists r, FindReducerInRoute fuel g node nodes_set GetConsumersInSet = Done r /\
            (r <> None <-> reaches_reducer g vc node).
Proof.
  intros Hnode Hfuel.
  apply (FindReducerInRoute_spec g nodes_set GetConsumersInSet
           (fun n => n ∈ nodes_set) rank_c
           (fun n c _ Hc => GetConsumersInSet_in g n nodes_set c Hc)
           consumers_lower fuel node Hnode).
  unfold route_fuel in Hfuel. unfold queue_cost in *. simpl.
  pose proof (sum_list_with_elem
                (fun x => route_cost (fun n => GetConsumersInSet g n nodes_set)
                            (rank_c x) x) (elements nodes_set) node) as Hle.
  rewrite elem_of_elements in Hle. specialize (Hle Hnode). simpl in Hle. lia.
Qed.

Lemma route_producers fuel node :
  node ∈ nodes_set -> (route_fuel g nodes_set rank_c rank_p <= fuel)%nat ->
  exists r, FindReducerInRoute fuel g node nodes_set GetProducersInSet = Done r /\
            (r <> None <-> reaches_reducer g vp node).
Proof.
  intros Hnode Hfuel.
  apply (FindReducerInRoute_spec g nodes_set GetProducersInSet
           (fun n => n ∈ nodes_set) rank_p
           (fun n c _ Hc => GetProducersInSet_in g n nodes_set c Hc)
           producers_lower fuel node Hnode).
  unfold route_fuel in Hfuel. unfold queue_cost in *. simpl.
  pose proof (sum_list_with_elem
                (fun x => route_cost (fun n => GetProducersInSet g n nodes_set)
                            (rank_p x) x) (elements nodes_set) node) as Hle.
  rewrite elem_of_elements in Hle. specialize (Hle Hnode). simpl in Hle. lia.
Qed.

Lemma FindNearestReducer_returns fuel node :
  node ∈ nodes_set -> (route_fuel g nodes_set rank_c rank_p <= fuel)%nat ->
  exists found,
    FindNearestReducer fuel g node nodes_set = Done found /\
    (found = None <->
     ~ reaches_reducer g vc node /\ ~ reaches_reducer g vp node).
Proof.
  intros Hnode Hfuel. unfold FindNearestReducer.
  destruct (route_consumers fuel node Hnode Hfuel) as (rc & -> & Hiff_c).
  simpl. destruct rc as [rc|].
  - exists (Some rc). split; [done|]. split; [done|].
    intros [Hc _]. exfalso. apply Hc, Hiff_c. done.
  - destruct (route_producers fuel node Hnode Hfuel) as (rp & -> & Hiff_p).
    exists rp. split; [done|]. split.
    + intros ->. split; intros Hr; [by apply Hiff_c in Hr|by apply Hiff_p in Hr].
    + intros [_ Hp]. destruct rp as [rp|]; [|done].
      exfalso. apply Hp, Hiff_p. done.
Qed.

(** X12.  In a group that is acyclic along consumers and along producers,
    [FindNearestReducer] returns for every node of the group, given enough
    steps.  It returns a node exactly when a Reduction node of the group is
    reached through consumers or through producers; the node returned is a
    Reduction node of the group, a nearest one through consumers when there
    is one, and otherwise a nearest one through producers. *)
Theorem FindNearestReducer_consumers_first (node : string) :
  node ∈ nodes_set ->
  exists fuel0, forall fuel, (fuel0 <= fuel)%nat ->
    exists found,
      FindNearestReducer fuel g node nodes_set = Done found /\
      (found <> None <->
       reaches_reducer g (fun n => GetConsumersInSet g n nodes_set) node \/
       reaches_reducer g (fun n => GetProducersInSet g n nodes_set) node) /\
      forall r, found = Some r ->
        r ∈ nodes_set /\ op_pattern_dict g r = kReduction /\
        exists k,
          (walk (fun n => GetConsumersInSet g n nodes_set) k node r /\
           forall j r',
             walk (fun n => GetConsumersInSet g n nodes_set) j node r' ->
             op_pattern_dict g r' = kReduction -> (k <= j)%nat)
          \/
          (~ reaches_reducer g (fun n => GetConsumersInSet g n nodes_set) node /\
           walk (fun n => GetProducersInSet g n nodes_set) k node r /\
           forall j r',
             walk (fun n => GetProducersInSet g n nodes_set) j node r' ->
             op_pattern_dict g r' = kReduction -> (k <= j)%nat).
Proof.
  intros Hnode. exists (route_fuel g nodes_set rank_c rank_p). intros fuel Hfuel.
  destruct (FindNearestReducer_returns fuel node Hnode Hfuel)
    as (found & Hrun & Hnone).
  exists found. split; [done|]. split.
  - split.
    + intros Hsome.
      destruct (route_consumers fuel node Hnode Hfuel) as (rc & Hrc & Hiff_c).
      destruct (route_producers fuel node Hnode Hfuel) as (rp & Hrp & Hiff_p).
      unfold FindNearestReducer in Hrun. rewrite Hrc in Hrun. simpl in Hrun.
      destruct rc as [rc|]; [left; by apply Hiff_c|].
      rewrite Hrp in Hrun. inversion Hrun; subst found.
      right. by apply Hiff_p.
    + intros Hreach Hfound. apply Hnone in Hfound as [Hc Hp]. tauto.
  - intros r ->. unfold FindNearestReducer in Hrun.
    destruct (route_consumers fuel node Hnode Hfuel) as (rc & Hrc & Hiff_c).
    rewrite Hrc in Hrun. simpl in Hrun. destruct rc as [rc|].
    + inversion Hrun; subst rc.
      apply FindReducerInRoute_found in Hrc as (k & Hw & Hred & Hmin).
      split; [|split; [done|]].
      * eapply (walk_in_set _ nodes_set); [|exact Hw].
        intros n c Hc. by apply (GetConsumersInSet_in g n).
      * exists k. left. done.
    + assert (~ reaches_reducer g vc node) as Hnc.
      { intros Hr. by apply Hiff_c in Hr. }
      apply FindReducerInRoute_found in Hrun as (k & Hw & Hred & Hmin).
      split; [|split; [done|]].
      * eapply (walk_in_set _ nodes_set); [|exact Hw].
        intros n c Hc. by apply (GetProducersInSet_in g n).
      * exists k. right. done.
Qed.
End searches.

Lemma FindNearestReducer_consumers_first_witness :
  exists fuel0, forall fuel, (fuel0 <= fuel)%nat ->
    exists found,
      FindNearestReducer fuel reduce_graph "a" reduce_group = Done found /\
      (found <> None <->
       reaches_reducer reduce_graph
         (fun n => GetConsumersInSet reduce_graph n reduce_group) "a" \/
       reaches_reducer reduce_graph
         (fun n => GetProducersInSet reduce_graph n reduce_group) "a") /\
      forall r, found = Some r ->
        r ∈ reduce_group /\ op_pattern_dict reduce_graph r = kReduction /\
        exists k,
          (walk (fun n => GetConsumersInSet reduce_graph n reduce_group) k "a" r /\
           forall j r',
             walk (fun n => GetConsumersInSet reduce_graph n reduce_group) j "a" r' ->
             op_pattern_dict reduce_graph r' = kReduction -> (k <= j)%nat)
          \/
          (~ reaches_reducer reduce_graph
               (fun n => GetConsumersInSet reduce_graph n reduce_group) "a" /\
           walk (fun n => GetProducersInSet reduce_graph n reduce_group) k "a" r /\
           forall j r',
             walk (fun n => GetProducersInSet reduce_graph n reduce_group) j "a" r' ->
             op_pattern_dict reduce_graph r' = kReduction -> (k <= j)%nat).
Proof.
  apply (FindNearestReducer_consumers_first reduce_graph reduce_group
           reduce_rank_c reduce_rank_p reduce_graph_rank_c reduce_graph_rank_p "a").
  unfold reduce_group. set_solver.
Defined.

(** ** [BuildVirtualConsumer] *)

Section virtual.
Context (g : Graph) (nodes_set : gset string).
Let vc := fun n => GetConsumersInSet g n nodes_set.
Let vp := fun n => GetProducersInSet g n nodes_set.

Lemma find_g_node_some fuel output_nodes g_node :
  find_g_node fuel g nodes_set output_nodes = Done (Some g_node) ->
  g_node ∈ output_nodes /\ is_reduction g g_node = false /\
  (exists r, FindReducerInRoute fuel g g_node nodes_set GetProducersInSet
             = Done (Some r)) /\
  GetConsumersInSet g g_node nodes_set = [].
Proof.
  induction output_nodes as [|t_node rest IH]; simpl; [done|].
  destruct (is_reduction g t_node) eqn:Hred.
  { intros Hrun. destruct (IH Hrun) as (? & ? & ? & ?). split; [by right|done]. }
  destruct (FindReducerInRoute fuel g t_node nodes_set GetProducersInSet)
    as [reducer|e] eqn:Hroute; simpl; [|done].
  destruct (bool_decide (is_Some reducer)
            && (vsize (GetConsumersInSet g t_node nodes_set) =? 0)) eqn:Hcond.
  - intros [= <-]. apply andb_true_iff in Hcond as [Hsome Hnone].
    apply bool_decide_eq_true in Hsome as [r ->].
    split; [by left|]. split; [done|]. split; [by exists r|].
    unfold vsize in Hnone. destruct (GetConsumersInSet g t_node nodes_set);
      [done|simpl in Hnone; cmp_lia].
  - intros Hrun. destruct (IH Hrun) as (? & ? & ? & ?). split; [by right|done].
Qed.

Lemma horizontal_visit_inl fuel producers : forall visited q r,
  horizontal_visit fuel g nodes_set producers visited q = Done (inl r) ->
  op_pattern_dict g r = kReduction /\ r ∈ nodes_set.
Proof.
  induction producers as [|producer rest IH]; intros visited q r; simpl; [done|].
  case_bool_decide; [apply IH|].
  destruct (FindReducerInRoute fuel g producer nodes_set GetConsumersInSet)
    as [[reducer|]|e] eqn:Hroute; simpl; [|apply IH|done].
  intros [= <-].
  apply FindReducerInRoute_found in Hroute as (k & Hw & Hred & _).
  split; [done|]. eapply (walk_in_set _ nodes_set); [|exact Hw].
  intros n c Hc. by apply (GetConsumersInSet_in g n).
Qed.

Lemma horizontal_loop_entry steps fuel t_node : forall vcm visited q vcm',
  horizontal_loop steps fuel g nodes_set t_node vcm visited q = Done vcm' ->
  vcm' = vcm \/
  exists r, vcm' = <[t_node := r]> vcm /\
            op_pattern_dict g r = kReduction /\ r ∈ nodes_set.
Proof.
  induction steps as [|steps IH]; intros vcm visited q vcm'; simpl; [done|].
  destruct q as [|candidate rest]; [intros [= <-]; by left|].
  destruct (horizontal_visit _ _ _ _ _ _) as [[r|[visited' q']]|e] eqn:Hv;
    simpl; [| |done].
  - intros [= <-]. right. exists r. split; [done|].
    by apply horizontal_visit_inl in Hv.
  - case_bool_decide; [intros [= <-]; by left|apply IH].
Qed.

(** What an entry [t -> c] of the result is: either [c] is the output node
    chosen by the first loop, or [t] is a node with no reducer up- or
    downstream and [c] a Reduction node of the group. *)
Let entry_ok (fuel : nat) (g_node : option string) (t c : string) : Prop :=
  (g_node = Some c /\ t <> c) \/
  (is_reduction g t = false /\
   FindNearestReducer fuel g t nodes_set = Done None /\
   op_pattern_dict g c = kReduction /\ c ∈ nodes_set).

Lemma assign_virtual_consumers_entries fuel g_node (all : list string)
    output_nodes : forall vcm vcm',
  (forall x, g_node = Some x -> is_reduction g x = false) ->
  (forall t, t ∈ output_nodes -> t ∈ all) ->
  assign_virtual_consumers fuel g nodes_set g_node output_nodes vcm = Done vcm' ->
  (forall t c, vcm !! t = Some c -> t ∈ all /\ entry_ok fuel g_node t c) ->
  forall t c, vcm' !! t = Some c -> t ∈ all /\ entry_ok fuel g_node t c.
Proof.
  induction output_nodes as [|t_node rest IH]; intros vcm vcm' Hg Hall Hrun Hinv.
  { simpl in Hrun. by inversion Hrun; subst. }
  assert (forall t, t ∈ rest -> t ∈ all) as Hrest
    by (intros t Ht; apply Hall; by right).
  assert (t_node ∈ all) as Ht by (apply Hall; by left).
  simpl in Hrun. destruct (is_reduction g t_node) eqn:Hred.
  { eapply IH; [done|done|exact Hrun|]. destruct g_node as [gn|]; [|done].
    intros t c [[<- <-]|[Hne Hold]]%lookup_insert_Some; [|by apply Hinv].
    split; [done|]. left. split; [done|]. intros ->.
    rewrite (Hg gn eq_refl) in Hred. done. }
  destruct (FindNearestReducer fuel g t_node nodes_set) as [[nearest|]|e]
    eqn:Hnear; simpl in Hrun; [by eapply IH| |done].
  destruct (horizontal_loop fuel fuel g nodes_set t_node vcm {[t_node]} [t_node])
    as [vc1|e] eqn:Hloop; simpl in Hrun; [|done].
  assert (forall t c, vc1 !! t = Some c -> t ∈ all /\ entry_ok fuel g_node t c)
    as Hinv1.
  { apply horizontal_loop_entry in Hloop as [->|(r & -> & Hr & Hin)]; [done|].
    intros t c [[<- <-]|[Hne Hold]]%lookup_insert_Some; [|by apply Hinv].
    split; [done|]. right. done. }
  case_bool_decide as Hhas; [by eapply IH|].
  eapply IH; [done|done|exact Hrun|]. destruct g_node as [gn|]; [|done].
  case_bool_decide as Hne; [|done].
  intros t c [[<- <-]|[Hne' Hold]]%lookup_insert_Some; [|by apply Hinv1].
  split; [done|]. left. done.
Qed.

(** X13.  Every entry [t -> c] that [BuildVirtualConsumer] returns gives an
    output node [t] a virtual consumer [c] other than itself, and [c] is
    either a Reduction node of the group, [t] then not being one, or the one
    output node [g_node] that is not a Reduction and has no consumer in the
    group; for a group whose pattern is not Reduction the result is empty. *)
Theorem BuildVirtualConsumer_entries (fuel : nat)
    (op_pattern_kind : OpPatternKind) (output_nodes : list string)
    (virtual_consumers : gmap string string) :
  BuildVirtualConsumer fuel g op_pattern_kind nodes_set output_nodes
    = Done virtual_consumers ->
  (op_pattern_kind <> kReduction -> virtual_consumers = ∅) /\
  exists g_node : option string,
    (forall x, g_node = Some x ->
       x ∈ output_nodes /\ op_pattern_dict g x <> kReduction /\
       GetConsumersInSet g x nodes_set = []) /\
    forall t c, virtual_consumers !! t = Some c ->
      t ∈ output_nodes /\ t <> c /\
      (g_node = Some c \/
       (op_pattern_dict g c = kReduction /\ c ∈ nodes_set /\
        op_pattern_dict g t <> kReduction)).
Proof.
  unfold BuildVirtualConsumer. intros Hrun.
  case_bool_decide as Hkind; simpl in Hrun.
  2:{ inversion Hrun; subst. split; [done|]. exists None. split; [done|].
      intros t c Hlook. by rewrite lookup_empty in Hlook. }
  split; [done|].
  destruct (find_g_node fuel g nodes_set output_nodes) as [g_node|e] eqn:Hg;
    simpl in Hrun; [|done].
  assert (forall x, g_node = Some x ->
            x ∈ output_nodes /\ is_reduction g x = false /\
            GetConsumersInSet g x nodes_set = []) as Hgn.
  { intros x ->. apply find_g_node_some in Hg as (? & ? & _ & ?). done. }
  exists g_node. split.
  { intros x Hx. destruct (Hgn x Hx) as (? & Hred & ?).
    split; [done|]. split; [|done].
    unfold is_reduction in Hred. by apply bool_decide_eq_false in Hred. }
  intros t c Hlook.
  destruct (assign_virtual_consumers_entries fuel g_node output_nodes
              output_nodes ∅ virtual_consumers) with (t := t) (c := c)
    as [Hin [[Hgc Hne]|(Hnred & _ & Hred & Hc)]]; try done.
  - intros x Hx. by destruct (Hgn x Hx) as (_ & ? & _).
  - split; [done|]. split; [done|]. by left.
  - unfold is_reduction in Hnred. apply bool_decide_eq_false in Hnred.
    split; [done|]. split; [intros ->; done|]. right. done.
Qed.

Context (rank_c rank_p : string -> nat).
Hypothesis consumers_lower : forall n c,
  n ∈ nodes_set -> c ∈ GetConsumersInSet g n nodes_set ->
  (rank_c c < rank_c n)%nat.
Hypothesis producers_lower : forall n p,
  n ∈ nodes_set -> p ∈ GetProducersInSet g n nodes_set ->
  (rank_p p < rank_p n)%nat.
Let search_fuel := route_fuel g nodes_set rank_c rank_p.

Lemma find_g_node_returns fuel output_nodes :
  (search_fuel <= fuel)%nat -> (forall t, t ∈ output_nodes -> t ∈ nodes_set) ->
  exists g_node, find_g_node fuel g nodes_set output_nodes = Done g_node.
Proof.
  intros Hfuel. induction output_nodes as [|t_node rest IH]; intros Hin; simpl;
    [eauto|].
  assert (forall t, t ∈ rest -> t ∈ nodes_set) as Hrest
    by (intros t Ht; apply Hin; by right).
  destruct (is_reduction g t_node); [by apply IH|].
  destruct (route_producers g nodes_set rank_c rank_p producers_lower fuel t_node)
    as (r & -> & _); [apply Hin; by left|done|].
  simpl. destruct (_ && _); [eauto|by apply IH].
Qed.

Lemma horizontal_visit_returns fuel producers : forall visited q,
  (search_fuel <= fuel)%nat -> (forall p, p ∈ producers -> p ∈ nodes_set) ->
  exists found,
    horizontal_visit fuel g nodes_set producers visited q = Done found /\
    match found with
    | inl _ => True
    | inr (visited', q') =>
        exists pushed,
          q' = q ++ pushed /\ visited' = list_to_set pushed ∪ visited /\
          NoDup pushed /\
          forall x, x ∈ pushed -> x ∈ nodes_set /\ x ∉ visited
    end.
Proof.
  induction producers as [|producer rest IH]; intros visited q Hfuel Hin; simpl.
  - exists (inr (visited, q)). split; [done|]. exists [].
    rewrite app_nil_r. split; [done|]. split; [set_solver|].
    split; [constructor|]. intros x Hx. by apply elem_of_nil in Hx.
  - assert (forall p, p ∈ rest -> p ∈ nodes_set) as Hrest
      by (intros p Hp; apply Hin; by right).
    case_bool_decide as Hvis; [by apply IH|].
    destruct (route_consumers g nodes_set rank_c rank_p consumers_lower fuel
                producer) as (r & -> & _); [apply Hin; by left|done|].
    simpl. destruct r as [r|]; [by exists (inl r)|].
    destruct (IH ({[producer]} ∪ visited) (q ++ [producer]) Hfuel Hrest)
      as (found & -> & Hfound).
    exists found. split; [done|]. destruct found as [r|[visited' q']]; [done|].
    destruct Hfound as (pushed & -> & -> & Hnd & Hpushed).
    exists (producer :: pushed). split; [by rewrite <- app_assoc|].
    split; [set_solver|]. split.
    + apply NoDup_cons. split; [|done]. intros Hp.
      destruct (Hpushed producer Hp) as [_ Hnot]. set_solver.
    + intros x [->|Hx]%elem_of_cons; [split; [apply Hin; by left|done]|].
      destruct (Hpushed x Hx) as [? ?]. split; [done|set_solver].
Qed.

Lemma horizontal_loop_returns steps fuel t_node : forall vcm visited q,
  (search_fuel <= fuel)%nat ->
  (size (nodes_set ∖ visited) + length q < steps)%nat ->
  (forall x, x ∈ q -> x ∈ nodes_set) ->
  exists vcm',
    horizontal_loop steps fuel g nodes_set t_node vcm visited q = Done vcm'.
Proof.
  induction steps as [|steps IH]; intros vcm visited q Hfuel Hsteps Hq; [lia|].
  simpl. destruct q as [|candidate rest]; [eauto|].
  destruct (horizontal_visit_returns fuel
              (GetProducersInSet g candidate nodes_set) visited rest Hfuel)
    as (found & -> & Hfound).
  { intros p Hp. by apply (GetProducersInSet_in g candidate). }
  simpl. destruct found as [r|[visited' q']]; [eauto|].
  case_bool_decide; [eauto|].
  destruct Hfound as (pushed & -> & -> & Hnd & Hpushed).
  apply IH; [done| |].
  - pose proof (size_difference_pushed nodes_set visited pushed Hnd Hpushed) as Hsz.
    rewrite length_app. simpl in Hsteps. lia.
  - intros x [Hx|Hx]%elem_of_app; [apply Hq; by right|].
    by destruct (Hpushed x Hx).
Qed.

Lemma assign_virtual_consumers_returns fuel g_node output_nodes : forall vcm,
  (search_fuel + size nodes_set + 2 <= fuel)%nat ->
  (forall t, t ∈ output_nodes -> t ∈ nodes_set) ->
  exists vcm',
    assign_virtual_consumers fuel g nodes_set g_node output_nodes vcm = Done vcm'.
Proof.
  induction output_nodes as [|t_node rest IH]; intros vcm Hfuel Hin; simpl;
    [eauto|].
  assert (forall t, t ∈ rest -> t ∈ nodes_set) as Hrest
    by (intros t Ht; apply Hin; by right).
  assert (t_node ∈ nodes_set) as Ht by (apply Hin; by left).
  destruct (is_reduction g t_node); [by apply IH|].
  destruct (FindNearestReducer_returns g nodes_set rank_c rank_p consumers_lower
              producers_lower fuel t_node Ht) as (nearest & -> & _);
    [unfold search_fuel in Hfuel; lia|].
  simpl. destruct nearest as [nearest|]; [by apply IH|].
  destruct (horizontal_loop_returns fuel fuel t_node vcm {[t_node]} [t_node])
    as (vc1 & ->).
  - unfold search_fuel in *. lia.
  - simpl.
    assert (size (nodes_set ∖ {[t_node]}) <= size nodes_set)%nat
      by (apply subseteq_size; set_solver).
    lia.
  - intros x Hx%list_elem_of_singleton. by subst.
  - simpl. case_bool_decide; [by apply IH|].
    destruct g_node as [gn|]; [|by apply IH].
    case_bool_decide; by apply IH.
Qed.

(** Downstream of a reducer: the node is a Reduction or a Reduction node is
    reached from it through producers. *)
Let below_reducer (x : string) : Prop :=
  op_pattern_dict g x = kReduction \/ reaches_reducer g vp x.

Let below_reducer_b (x : string) : bool :=
  is_reduction g x
  || match FindReducerInRoute search_fuel g x nodes_set GetProducersInSet with
     | Done (Some _) => true
     | _ => false
     end.

Lemma below_reducer_b_spec x :
  x ∈ nodes_set -> below_reducer_b x = true <-> below_reducer x.
Proof.
  intros Hx. unfold below_reducer_b, below_reducer, is_reduction.
  destruct (route_producers g nodes_set rank_c rank_p producers_lower
              search_fuel x Hx) as (r & -> & Hiff); [done|].
  rewrite orb_true_iff, bool_decide_eq_true. split.
  - intros [?|Hr]; [by left|]. right. apply Hiff. by destruct r.
  - intros [?|Hr]; [by left|]. right. apply Hiff in Hr. by destruct r.
Qed.

Lemma below_reducer_consumer p c :
  links_consistent g nodes_set -> p ∈ nodes_set -> c ∈ vc p ->
  below_reducer p -> below_reducer c.
Proof.
  intros Hlinks Hp Hc Hbelow. right.
  pose proof (Hlinks p c Hp Hc) as Hpc.
  destruct Hbelow as [Hred|Hreach].
  - by eapply reaches_here.
  - by eapply reaches_step.
Qed.

Lemma virtual_consumers_ranked fuel (g_node : option string)
    (vcm : gmap string string) :
  links_consistent g nodes_set ->
  (search_fuel <= fuel)%nat ->
  (forall x, g_node = Some x ->
     is_reduction g x = false /\
     (exists r, FindReducerInRoute fuel g x nodes_set GetProducersInSet
                = Done (Some r)) /\
     GetConsumersInSet g x nodes_set = []) ->
  (forall t c, vcm !! t = Some c -> entry_ok fuel g_node t c) ->
  exists rank, ranked g vcm rank nodes_set.
Proof.
  intros Hlinks Hfuel Hgn Hentries.
  set (R := S (sum_list_with rank_c (elements nodes_set))).
  assert (forall x, x ∈ nodes_set -> (rank_c x < R)%nat) as HR.
  { intros x Hx. unfold R.
    pose proof (sum_list_with_elem rank_c (elements nodes_set) x) as Hle.
    rewrite elem_of_elements in Hle. specialize (Hle Hx). lia. }
  exists (fun x => if bool_decide (g_node = Some x) then 0%nat
                   else S (rank_c x + if below_reducer_b x then 0 else R)).
  assert (forall x, g_node = Some x -> x ∈ nodes_set -> below_reducer x) as Hgb.
  { intros x Hx Hin. destruct (Hgn x Hx) as (_ & (r & Hr) & _). right.
    destruct (route_producers g nodes_set rank_c rank_p producers_lower fuel x
                Hin Hfuel) as (r' & Hr' & Hiff).
    apply Hiff. rewrite Hr in Hr'. by inversion Hr'. }
  intros p c Hp Hc [Hreal|Hvirt].
  - assert (c ∈ vc p) as Hcp.
    { unfold vc, GetConsumersInSet. apply list_elem_of_In, filter_In.
      split; [by apply list_elem_of_In|by apply bool_decide_eq_true]. }
    cbv beta.
    destruct (decide (g_node = Some p)) as [Hgp|Hgp].
    { destruct (Hgn p Hgp) as (_ & _ & Hnone). unfold vc in Hcp.
      rewrite Hnone in Hcp. by apply elem_of_nil in Hcp. }
    rewrite (bool_decide_eq_false_2 (g_node = Some p)) by done.
    destruct (decide (g_node = Some c)) as [Hgc|Hgc];
      [rewrite (bool_decide_eq_true_2 (g_node = Some c)) by done; lia|].
    rewrite (bool_decide_eq_false_2 (g_node = Some c)) by done.
    pose proof (consumers_lower p c Hp Hcp) as Hlt.
    destruct (below_reducer_b p) eqn:Hbp.
    + apply below_reducer_b_spec in Hbp; [|done].
      apply (below_reducer_consumer p c Hlinks Hp Hcp) in Hbp.
      apply below_reducer_b_spec in Hbp; [|done]. rewrite Hbp. lia.
    + destruct (below_reducer_b c); lia.
  - cbv beta.
    destruct (Hentries p c Hvirt) as [[Hg Hne]|(Hnred & Hnear & Hred & _)].
    + rewrite (bool_decide_eq_true_2 (g_node = Some c)) by done.
      rewrite bool_decide_eq_false_2 by congruence. lia.
    + destruct (FindNearestReducer_returns g nodes_set rank_c rank_p
                  consumers_lower producers_lower fuel p Hp Hfuel)
        as (found & Hrun & Hnone).
      rewrite Hnear in Hrun. inversion Hrun; subst found.
      destruct (proj1 Hnone eq_refl) as [_ Hnp].
      assert (below_reducer_b p = false) as ->.
      { destruct (below_reducer_b p) eqn:Hbp; [|done].
        apply below_reducer_b_spec in Hbp as [Hbp|Hbp]; [|done|done].
        unfold is_reduction in Hnred. by apply bool_decide_eq_false in Hnred. }
      assert (below_reducer_b c = true) as ->.
      { apply below_reducer_b_spec; [done|]. by left. }
      assert (g_node <> Some p) as Hgp.
      { intros Hgp. apply Hnp. destruct (Hgb p Hgp Hp) as [Hr|Hr]; [|done].
        unfold is_reduction in Hnred. by apply bool_decide_eq_false in Hnred. }
      assert (g_node <> Some c) as Hgc.
      { intros Hgc. destruct (Hgn c Hgc) as (Hr & _).
        unfold is_reduction in Hr. by apply bool_decide_eq_false in Hr. }
      rewrite !bool_decide_eq_false_2 by done.
      specialize (HR c Hc). lia.
Qed.

(** X14.  In a group that is acyclic along consumers and along producers
    and whose consumer links are matched by in-links, [BuildVirtualConsumer]
    returns (given enough steps), and the virtual consumers it adds close no
    cycle: the real and virtual edges together are still acyclic, so
    [TopologicalOrder] with these virtual consumers returns. *)
Theorem BuildVirtualConsumer_keeps_acyclic (op_pattern_kind : OpPatternKind)
    (output_nodes : list string) :
  links_consistent g nodes_set ->
  (forall t, t ∈ output_nodes -> t ∈ nodes_set) ->
  exists fuel0, forall fuel, (fuel0 <= fuel)%nat ->
    exists virtual_consumers,
      BuildVirtualConsumer fuel g op_pattern_kind nodes_set output_nodes
        = Done virtual_consumers /\
      (exists rank, ranked g virtual_consumers rank nodes_set) /\
      exists nodes_in_order,
        TopologicalOrder (size nodes_set) g nodes_set virtual_consumers
          = Some nodes_in_order.
Proof.
  intros Hlinks Hout. exists (search_fuel + size nodes_set + 2)%nat.
  intros fuel Hfuel.
  assert (exists vcm g_node,
    BuildVirtualConsumer fuel g op_pattern_kind nodes_set output_nodes = Done vcm /\
    (forall x, g_node = Some x ->
       is_reduction g x = false /\
       (exists r, FindReducerInRoute fuel g x nodes_set GetProducersInSet
                  = Done (Some r)) /\
       GetConsumersInSet g x nodes_set = []) /\
    (forall t c, vcm !! t = Some c -> entry_ok fuel g_node t c))
    as (vcm & g_node & Hrun & Hgn & Hentries).
  { unfold BuildVirtualConsumer. case_bool_decide as Hkind; simpl.
    2:{ exists ∅, None. split; [done|]. split; [done|].
        intros t c Hl. by rewrite lookup_empty in Hl. }
    destruct (find_g_node_returns fuel output_nodes) as [g_node Hg];
      [lia|done|].
    rewrite Hg. simpl.
    destruct (assign_virtual_consumers_returns fuel g_node output_nodes ∅)
      as [vcm Hassign]; [lia|done|].
    exists vcm, g_node. split; [done|].
    assert (forall x, g_node = Some x ->
              is_reduction g x = false /\
              (exists r, FindReducerInRoute fuel g x nodes_set GetProducersInSet
                         = Done (Some r)) /\
              GetConsumersInSet g x nodes_set = []) as Hgn.
    { intros x ->. apply find_g_node_some in Hg as (_ & ? & ? & ?). done. }
    split; [done|]. intros t c Hl.
    apply (assign_virtual_consumers_entries fuel g_node output_nodes
             output_nodes ∅ vcm); try done.
    intros x Hx. by destruct (Hgn x Hx). }
  exists vcm. split; [done|].
  destruct (virtual_consumers_ranked fuel g_node vcm Hlinks) as [rank Hrank];
    [lia|done|done|].
  split; [by exists rank|].
  apply (topo_loop_terminates g vcm rank (size nodes_set) nodes_set [] Hrank).
  lia.
Qed.
End virtual.

Example BuildVirtualConsumer_reduce_group :
  BuildVirtualConsumer 5 reduce_graph kReduction reduce_group ["c"; "r"]
  = Done {["c" := "r"]}.
Proof. by vm_compute. Qed.

Lemma BuildVirtualConsumer_entries_witness :
  (kReduction <> kReduction -> ({["c" := "r"]} : gmap string string) = ∅) /\
  exists g_node : option string,
    (forall x, g_node = Some x ->
       x ∈ ["c"; "r"] /\ op_pattern_dict reduce_graph x <> kReduction /\
       GetConsumersInSet reduce_graph x reduce_group = []) /\
    forall t c, ({["c" := "r"]} : gmap string string) !! t = Some c ->
      t ∈ ["c"; "r"] /\ t <> c /\
      (g_node = Some c \/
       (op_pattern_dict reduce_graph c = kReduction /\ c ∈ reduce_group /\
        op_pattern_dict reduce_graph t <> kReduction)).
Proof.
  apply (BuildVirtualConsumer_entries reduce_graph reduce_group 5 kReduction
           ["c"; "r"] {["c" := "r"]}).
  by vm_compute.
Defined.

Lemma reduce_graph_links : links_consistent reduce_graph reduce_group.
Proof.
  intros p c Hp Hc. unfold reduce_group in Hp.
  split_group Hp; vm_compute in Hc; split_list Hc; vm_compute;
    repeat constructor.
Qed.

Lemma BuildVirtualConsumer_keeps_acyclic_witness :
  exists fuel0, forall fuel, (fuel0 <= fuel)%nat ->
    exists virtual_consumers,
      BuildVirtualConsumer fuel reduce_graph kReduction reduce_group ["c"; "r"]
        = Done virtual_consumers /\
      (exists rank, ranked reduce_graph virtual_consumers rank reduce_group) /\
      exists nodes_in_order,
        TopologicalOrder (size reduce_group) reduce_graph reduce_group
          virtual_consumers = Some nodes_in_order.
Proof.
  apply (BuildVirtualConsumer_keeps_acyclic reduce_graph reduce_group
           reduce_rank_c reduce_rank_p reduce_graph_rank_c reduce_graph_rank_p
           kReduction ["c"; "r"]).
  - exact reduce_graph_links.
  - intros t Ht. unfold reduce_group. split_list Ht; set_solver.
Defined.

Example TopologicalOrder_with_virtual_consumer :
  TopologicalOrder 4 reduce_graph reduce_group {["c" := "r"]}
  = Some ["r"; "b"; "c"; "a"].
Proof. by vm_compute. Qed.

(** ** [GetMasterToComputeAt] *)

Lemma elem_of_List_rev {A} (x : A) (l : list A) : x ∈ rev l <-> x ∈ l.
Proof. rewrite !list_elem_of_In. symmetry. apply in_rev. Qed.

Lemma find_Some_split {A} (p : A -> bool) (l : list A) (m : A) :
  List.find p l = Some m ->
  exists l1 l2, l = l1 ++ m :: l2 /\ p m = true /\ forall x, x ∈ l1 -> p x = false.
Proof.
  induction l as [|y l IH]; simpl; [done|].
  destruct (p y) eqn:Hy.
  - intros [= ->]. exists [], l. split; [done|]. split; [done|].
    intros x Hx. by apply elem_of_nil in Hx.
  - intros Hfind. destruct (IH Hfind) as (l1 & l2 & -> & Hm & Hl1).
    exists (y :: l1), l2. split; [done|]. split; [done|].
    intros x [->|Hx]%elem_of_cons; [done|by apply Hl1].
Qed.

Lemma find_None_all {A} (p : A -> bool) (l : list A) :
  List.find p l = None -> forall x, x ∈ l -> p x = false.
Proof.
  induction l as [|y l IH]; simpl; intros Hfind x Hx;
    [by apply elem_of_nil in Hx|].
  destruct (p y) eqn:Hy; [done|].
  apply elem_of_cons in Hx as [->|Hx]; [done|by apply IH].
Qed.

Lemma first_occurrence_unique (node : string) : forall l l' post post',
  l ++ node :: post = l' ++ node :: post' -> node ∉ l -> node ∉ l' ->
  l = l' /\ post = post'.
Proof.
  induction l as [|x l IH]; intros l' post post' Heq Hl Hl'.
  - destruct l' as [|y l']; simpl in Heq.
    + inversion Heq. done.
    + inversion Heq; subst y. exfalso. apply Hl'. by left.
  - destruct l' as [|y l']; simpl in Heq.
    + inversion Heq; subst x. exfalso. apply Hl. by left.
    + inversion Heq; subst y.
      destruct (IH l' post post') as [-> ->]; [done| | |done].
      * intros Hin. apply Hl. by right.
      * intros Hin. apply Hl'. by right.
Qed.

Lemma master_in_order_spec (masters : gset string) (node : string) :
  forall nodes_in_order before,
  node ∉ before ->
  match master_in_order masters nodes_in_order node before with
  | Some m =>
      exists between,
        stands_before (rev before ++ nodes_in_order) m node between /\
        m ∈ masters /\ forall x, x ∈ between -> x ∉ masters
  | None =>
      forall m between,
        stands_before (rev before ++ nodes_in_order) m node between ->
        m ∉ masters
  end.
Proof.
  induction nodes_in_order as [|n rest IH]; intros before Hnot; simpl.
  - intros m between (pre & post & Heq & _) _. rewrite app_nil_r in Heq.
    apply Hnot. apply elem_of_List_rev. rewrite Heq.
    rewrite !elem_of_app, !elem_of_cons, elem_of_app, elem_of_cons. tauto.
  - case_bool_decide as Hn.
    + subst n.
      assert (node ∉ rev before) as Hnot' by (by rewrite elem_of_List_rev).
      destruct (List.find _ before) as [m|] eqn:Hfind.
      * apply find_Some_split in Hfind as (l1 & l2 & -> & Hm & Hl1).
        apply bool_decide_eq_true in Hm.
        exists (rev l1). split; [|split; [done|]].
        -- exists (rev l2), rest. rewrite rev_app_distr. simpl.
           rewrite <- !app_assoc. simpl. split; [done|].
           intros Hin. apply Hnot.
           rewrite !elem_of_app, !elem_of_cons in *.
           rewrite !elem_of_List_rev in Hin. tauto.
        -- intros x Hx. rewrite elem_of_List_rev in Hx. specialize (Hl1 x Hx).
           by apply bool_decide_eq_false in Hl1.
      * pose proof (find_None_all _ _ Hfind) as Hnone.
        intros m between (pre & post & Heq & Hfresh) Hm.
        replace (pre ++ m :: between ++ node :: post)
          with ((pre ++ m :: between) ++ node :: post) in Heq
          by (by rewrite <- app_assoc).
        apply first_occurrence_unique in Heq as [Heq _]; [|done|done].
        assert (m ∈ before) as Hin.
        { apply elem_of_List_rev. rewrite Heq, elem_of_app, elem_of_cons. tauto. }
        specialize (Hnone m Hin). apply bool_decide_eq_false in Hnone. done.
    + specialize (IH (n :: before)). simpl in IH.
      rewrite <- app_assoc in IH. simpl in IH. apply IH.
      intros [->|Hin]%elem_of_cons; done.
Qed.

(** The reducers that [done_before] collects stand before [node]. *)
Lemma done_before_spec g node : forall nodes_in_order acc x,
  node ∈ nodes_in_order ->
  x ∈ done_before g nodes_in_order node acc ->
  x ∈ acc \/
  (op_pattern_dict g x = kReduction /\
   exists between, stands_before nodes_in_order x node between).
Proof.
  induction nodes_in_order as [|tmp rest IH]; intros acc x Hnode Hx;
    [by apply elem_of_nil in Hnode|].
  simpl in Hx. case_bool_decide as Htmp; [by left|].
  apply elem_of_cons in Hnode as [->|Hnode]; [done|].
  apply IH in Hx as [Hx|(Hred & between & pre & post & -> & Hfresh)]; [| |done].
  - unfold is_reduction in Hx. case_bool_decide as Hr; [|by left].
    apply elem_of_union in Hx as [->%elem_of_singleton|Hx]; [|by left].
    right. split; [done|].
    apply list_elem_of_split_l in Hnode as (l1 & l2 & -> & Hfresh).
    exists l1, [], l2. split; [done|]. simpl.
    intros [->|Hin]%elem_of_cons; done.
  - right. split; [done|]. exists between, (tmp :: pre), post.
    split; [done|]. simpl. intros [->|Hin]%elem_of_cons; done.
Qed.

Lemma erase_visit_spec g consumers : forall done_schedule visited q done' visited' q',
  erase_visit g consumers done_schedule visited q = (done', visited', q') ->
  exists pushed,
    q' = q ++ pushed /\ visited' = list_to_set pushed ∪ visited /\
    NoDup pushed /\
    (forall x, x ∈ pushed -> x ∈ consumers /\ x ∉ visited) /\
    done' ⊆ done_schedule /\
    forall c, c ∈ consumers ->
      c ∈ visited' /\ (op_pattern_dict g c = kReduction -> c ∉ done').
Proof.
  induction consumers as [|c cs IH];
    intros done_schedule visited q done' visited' q' Hv; simpl in Hv.
  - inversion Hv; subst. exists []. rewrite app_nil_r.
    split; [done|]. split; [set_solver|]. split; [constructor|].
    split; [intros x Hx; by apply elem_of_nil in Hx|]. split; [done|].
    intros x Hx. by apply elem_of_nil in Hx.
  - set (done1 := if is_reduction g c then done_schedule ∖ {[c]}
                  else done_schedule) in Hv.
    assert (done1 ⊆ done_schedule) as Hsub1.
    { unfold done1. destruct (is_reduction g c); set_solver. }
    assert (op_pattern_dict g c = kReduction -> c ∉ done1) as Hc1.
    { intros Hred. unfold done1, is_reduction.
      rewrite bool_decide_eq_true_2 by done. set_solver. }
    case_bool_decide as Hvis.
    + apply IH in Hv as (pushed & -> & -> & Hnd & Hpushed & Hsub & Hall).
      exists pushed. split; [done|]. split; [done|]. split; [done|]. split.
      { intros x Hx. destruct (Hpushed x Hx). split; [by right|done]. }
      split; [set_solver|].
      intros y [->|Hy]%elem_of_cons; [|by apply Hall].
      split; [set_solver|]. intros Hred Hin. apply (Hc1 Hred). by apply Hsub.
    + apply IH in Hv as (pushed & -> & -> & Hnd & Hpushed & Hsub & Hall).
      exists (c :: pushed). split; [by rewrite <- app_assoc|].
      split; [set_solver|]. split.
      { apply NoDup_cons. split; [|done]. intros Hc.
        destruct (Hpushed c Hc) as [_ Hnot]. set_solver. }
      split.
      { intros x [->|Hx]%elem_of_cons; [split; [by left|done]|].
        destruct (Hpushed x Hx). split; [by right|set_solver]. }
      split; [set_solver|].
      intros y [->|Hy]%elem_of_cons; [|by apply Hall].
      split; [set_solver|]. intros Hred Hin. apply (Hc1 Hred). by apply Hsub.
Qed.

Lemma masters_visit_spec consumers nodes_inline :
  forall visited masters q visited' masters' q',
  masters_visit consumers nodes_inline visited masters q
    = (visited', masters', q') ->
  exists pushed,
    q' = q ++ pushed /\ visited' = list_to_set pushed ∪ visited /\
    NoDup pushed /\
    (forall x, x ∈ pushed ->
       x ∈ consumers /\ x ∈ nodes_inline /\ x ∉ visited) /\
    (forall m, m ∈ masters' ->
       m ∈ masters \/ (m ∈ consumers /\ m ∉ nodes_inline)) /\
    masters ⊆ masters' /\
    forall c, c ∈ consumers ->
      c ∈ visited' \/ ((c ∉ nodes_inline) /\ c ∈ masters').
Proof.
  induction consumers as [|c cs IH];
    intros visited masters q visited' masters' q' Hv; simpl in Hv.
  - inversion Hv; subst. exists []. rewrite app_nil_r.
    split; [done|]. split; [set_solver|]. split; [constructor|].
    split; [intros x Hx; by apply elem_of_nil in Hx|].
    split; [intros m Hm; by left|]. split; [done|].
    intros x Hx. by apply elem_of_nil in Hx.
  - case_bool_decide as Hvis.
    { apply IH in Hv as (pushed & -> & -> & Hnd & Hpushed & Hm & Hsub & Hall).
      exists pushed. split; [done|]. split; [done|]. split; [done|]. split.
      { intros x Hx. destruct (Hpushed x Hx) as (? & ? & ?).
        split; [by right|done]. }
      split.
      { intros m Hin. destruct (Hm m Hin) as [?|[? ?]]; [by left|].
        right. split; [by right|done]. }
      split; [done|].
      intros y [->|Hy]%elem_of_cons; [left; set_solver|by apply Hall]. }
    case_bool_decide as Hinl.
    + apply IH in Hv as (pushed & -> & -> & Hnd & Hpushed & Hm & Hsub & Hall).
      exists (c :: pushed). split; [by rewrite <- app_assoc|].
      split; [set_solver|]. split.
      { apply NoDup_cons. split; [|done]. intros Hc.
        destruct (Hpushed c Hc) as (_ & _ & Hnot). set_solver. }
      split.
      { intros x [->|Hx]%elem_of_cons; [split; [by left|done]|].
        destruct (Hpushed x Hx) as (? & ? & ?).
        split; [by right|]. split; [done|set_solver]. }
      split.
      { intros m Hin. destruct (Hm m Hin) as [?|[? ?]]; [by left|].
        right. split; [by right|done]. }
      split; [done|].
      intros y [->|Hy]%elem_of_cons; [left; set_solver|by apply Hall].
    + apply IH in Hv as (pushed & -> & -> & Hnd & Hpushed & Hm & Hsub & Hall).
      exists pushed. split; [done|]. split; [done|]. split; [done|]. split.
      { intros x Hx. destruct (Hpushed x Hx) as (? & ? & ?).
        split; [by right|done]. }
      split.
      { intros m Hin.
        destruct (Hm m Hin) as [[->%elem_of_singleton|?]%elem_of_union|[? ?]].
        - right. split; [by left|done].
        - by left.
        - right. split; [by right|done]. }
      split; [set_solver|].
      intros y [->|Hy]%elem_of_cons; [right; split; [done|set_solver]|].
      by apply Hall.
Qed.

Section master_to_compute_at.
Context (g : Graph) (node : string) (nodes_inline nodes_set : gset string)
  (virtual_consumers : gmap string string).
Let vc := fun n => GetConsumersInSet g n nodes_set.
Let vf := fun n => FindConsumers g n nodes_set virtual_consumers.

Lemma erase_loop_spec fuel : forall done_schedule visited q,
  (size (nodes_set ∖ visited) + length q < fuel)%nat ->
  (forall y, y = node \/ y ∈ visited ->
     y ∈ q \/
     forall c, c ∈ vc y ->
       c ∈ visited /\ (op_pattern_dict g c = kReduction -> c ∉ done_schedule)) ->
  exists done',
    erase_loop fuel g nodes_set done_schedule visited q = Done done' /\
    done' ⊆ done_schedule /\
    forall k x, walk vc k node x -> op_pattern_dict g x = kReduction ->
      x ∉ done'.
Proof.
  induction fuel as [|fuel IH]; intros done_schedule visited q Hfuel Hclosed;
    [lia|].
  simpl. destruct q as [|x rest].
  - exists done_schedule. split; [done|]. split; [done|].
    assert (forall k y, walk vc k node y ->
              y ∈ visited /\
              (op_pattern_dict g y = kReduction -> y ∉ done_schedule)) as Hreach.
    { induction k as [|k IHk]; intros y Hw.
      - destruct (Hclosed node ltac:(by left)) as [Hin|Hall];
          [by apply elem_of_nil in Hin|by apply Hall].
      - apply walk_last in Hw as (z & Hz & Hy).
        destruct (IHk z Hz) as [Hvis _].
        destruct (Hclosed z ltac:(by right)) as [Hin|Hall];
          [by apply elem_of_nil in Hin|by apply Hall]. }
    intros k y Hw Hred. by apply (Hreach k y Hw).
  - fold (vc x).
    destruct (erase_visit g (vc x) done_schedule visited rest)
      as [[done1 visited1] q1] eqn:Hv.
    apply erase_visit_spec in Hv
      as (pushed & -> & -> & Hnd & Hpushed & Hsub & Hall).
    destruct (IH done1 (list_to_set pushed ∪ visited) (rest ++ pushed))
      as (done' & Hrun & Hsub' & Hreach).
    + assert (forall y, y ∈ pushed -> y ∈ nodes_set /\ y ∉ visited) as Hp.
      { intros y Hy. destruct (Hpushed y Hy) as [Hc ?]. split; [|done].
        by apply (GetConsumersInSet_in g x). }
      pose proof (size_difference_pushed nodes_set visited pushed Hnd Hp) as Hsz.
      rewrite length_app. simpl in Hfuel. lia.
    + intros y Hy. destruct (decide (y = x)) as [->|Hne]; [by right|].
      assert (y ∈ pushed \/ y = node \/ y ∈ visited) as [Hp|Hold].
      { destruct Hy as [->|[Hy%elem_of_list_to_set|Hy]%elem_of_union]; tauto. }
      * left. apply elem_of_app. by right.
      * destruct (Hclosed y Hold) as [[->|Hin]%elem_of_cons|Hcl]; [done| |].
        -- left. apply elem_of_app. by left.
        -- right. intros c Hc. destruct (Hcl c Hc) as [Hvis Hred].
           split; [set_solver|]. intros Hr Hin. apply (Hred Hr). by apply Hsub.
    + exists done'. split; [done|]. split; [set_solver|done].
Qed.

Lemma masters_loop_spec fuel : forall visited masters q,
  (size (nodes_inline ∖ visited) + length q < fuel)%nat ->
  (forall y, y ∈ q ->
     y = node \/ (through_inlined vf nodes_inline node y /\ y ∈ nodes_inline)) ->
  (forall y, y ∈ visited ->
     through_inlined vf nodes_inline node y /\ y ∈ nodes_inline) ->
  (forall m, m ∈ masters ->
     through_inlined vf nodes_inline node m /\ m ∉ nodes_inline) ->
  (forall y, y = node \/ y ∈ visited ->
     y ∈ q \/
     forall c, c ∈ vf y -> c ∈ visited \/ ((c ∉ nodes_inline) /\ c ∈ masters)) ->
  exists masters',
    masters_loop fuel g nodes_inline nodes_set virtual_consumers visited masters q
      = Done masters' /\
    forall m, m ∈ masters' <->
      through_inlined vf nodes_inline node m /\ m ∉ nodes_inline.
Proof.
  induction fuel as [|fuel IH]; intros visited masters q Hfuel Hq Hvis Hmas Hclosed;
    [lia|].
  simpl. destruct q as [|x rest].
  - exists masters. split; [done|]. intros m. split; [apply Hmas|].
    assert (forall y, through_inlined vf nodes_inline node y ->
              y ∈ visited \/ ((y ∉ nodes_inline) /\ y ∈ masters)) as Hreach.
    { induction 1 as [c Hc|y c _ IHy Hinl Hc].
      - destruct (Hclosed node ltac:(by left)) as [Hin|Hall];
          [by apply elem_of_nil in Hin|by apply Hall].
      - destruct IHy as [Hy|[Hy _]]; [|done].
        destruct (Hclosed y ltac:(by right)) as [Hin|Hall];
          [by apply elem_of_nil in Hin|by apply Hall]. }
    intros [Hm Hnot]. destruct (Hreach m Hm) as [Hv|[_ ?]]; [|done].
    by destruct (Hvis m Hv).
  - assert (forall c, c ∈ vf x -> through_inlined vf nodes_inline node c)
      as Hstep.
    { intros c Hc. destruct (Hq x ltac:(by left)) as [->|[Hx Hinl]].
      - by apply through_direct.
      - by eapply through_step. }
    fold (vf x).
    destruct (masters_visit (vf x) nodes_inline visited masters rest)
      as [[visited1 masters1] q1] eqn:Hv.
    apply masters_visit_spec in Hv
      as (pushed & -> & -> & Hnd & Hpushed & Hm1 & Hsub & Hall).
    apply IH.
    + assert (forall y, y ∈ pushed -> y ∈ nodes_inline /\ y ∉ visited) as Hp.
      { intros y Hy. destruct (Hpushed y Hy) as (_ & ? & ?). done. }
      pose proof (size_difference_pushed nodes_inline visited pushed Hnd Hp)
        as Hsz.
      rewrite length_app. simpl in Hfuel. lia.
    + intros y [Hy|Hy]%elem_of_app; [apply Hq; by right|].
      right. destruct (Hpushed y Hy) as (Hc & Hinl & _).
      split; [by apply Hstep|done].
    + intros y [Hy%elem_of_list_to_set|Hy]%elem_of_union; [|by apply Hvis].
      destruct (Hpushed y Hy) as (Hc & Hinl & _).
      split; [by apply Hstep|done].
    + intros m Hm. destruct (Hm1 m Hm) as [Hold|[Hc Hnot]]; [by apply Hmas|].
      split; [by apply Hstep|done].
    + intros y Hy. destruct (decide (y = x)) as [->|Hne]; [by right|].
      assert (y ∈ pushed \/ y = node \/ y ∈ visited) as [Hp|Hold].
      { destruct Hy as [->|[Hy%elem_of_list_to_set|Hy]%elem_of_union]; tauto. }
      * left. apply elem_of_app. by right.
      * destruct (Hclosed y Hold) as [[->|Hin]%elem_of_cons|Hcl]; [done| |].
        -- left. apply elem_of_app. by left.
        -- right. intros c Hc. destruct (Hcl c Hc) as [Hv|[Hnot Hin]].
           ++ left. set_solver.
           ++ right. split; [done|]. by apply Hsub.
Qed.

Lemma same_shape_reducer_spec shape_dict shape r_nodes :
  same_shape_reducer g shape_dict shape r_nodes <> Abort OutOfFuel /\
  forall r, same_shape_reducer g shape_dict shape r_nodes = Done (Some r) ->
    r ∈ r_nodes.
Proof.
  induction r_nodes as [|r_node rest [IHt IHr]]; simpl; [done|].
  pose proof (input_shape_at_terminates g r_node shape_dict) as Hsh.
  destruct (input_shape_at g r_node shape_dict) as [rshape|e]; simpl;
    [|split; [congruence|done]].
  case_bool_decide.
  - split; [done|]. intros r [= <-]. by left.
  - split; [done|]. intros r Hr. right. by apply IHr.
Qed.

(** X15.  [GetMasterToComputeAt] always ends (both searches mark the nodes
    they queue).  The node it returns stands before the first occurrence of
    [node] in [nodes_in_order].  It is either - for a Reduction [node] - a
    Reduction node that is not reached from [node] through consumers inside
    the group, or the nearest node before [node] that is a master: a node
    that is not inlined and is reached from [node] through real and virtual
    consumers, every node passed on the way being inlined.  It returns
    nothing only when no master stands before [node]. *)
Theorem GetMasterToComputeAt_master (fuel : nat)
    (iteration : gset string -> list string) (nodes_in_order : list string)
    (shape_dict : gmap string (list Z)) :
  enumerates iteration ->
  node ∈ nodes_in_order ->
  (size nodes_set + size nodes_inline + 1 < fuel)%nat ->
  let is_master m :=
    (m ∉ nodes_inline) /\
    through_inlined (fun n => FindConsumers g n nodes_set virtual_consumers)
      nodes_inline node m in
  GetMasterToComputeAt fuel iteration g node nodes_in_order nodes_inline
    nodes_set virtual_consumers shape_dict <> Abort OutOfFuel /\
  forall found,
    GetMasterToComputeAt fuel iteration g node nodes_in_order nodes_inline
      nodes_set virtual_consumers shape_dict = Done found ->
    match found with
    | Some m =>
        exists between,
          stands_before nodes_in_order m node between /\
          ((is_reduction g node = true /\ op_pattern_dict g m = kReduction /\
            forall k,
              ~ walk (fun n => GetConsumersInSet g n nodes_set) k node m)
           \/
           (is_master m /\ forall x, x ∈ between -> ~ is_master x))
    | None =>
        forall m between,
          stands_before nodes_in_order m node between -> ~ is_master m
    end.
Proof.
  intros Henum Hnode Hfuel is_master.
  set (post := fun found : option string =>
    match found with
    | Some m =>
        exists between,
          stands_before nodes_in_order m node between /\
          ((is_reduction g node = true /\ op_pattern_dict g m = kReduction /\
            forall k,
              ~ walk (fun n => GetConsumersInSet g n nodes_set) k node m)
           \/
           (is_master m /\ forall x, x ∈ between -> ~ is_master x))
    | None =>
        forall m between,
          stands_before nodes_in_order m node between -> ~ is_master m
    end).
  change (GetMasterToComputeAt fuel iteration g node nodes_in_order nodes_inline
            nodes_set virtual_consumers shape_dict <> Abort OutOfFuel /\
          forall found,
            GetMasterToComputeAt fuel iteration g node nodes_in_order
              nodes_inline nodes_set virtual_consumers shape_dict = Done found ->
            post found).
  destruct (masters_loop_spec fuel ∅ ∅ [node]) as (masters & Hmasters & Hiff).
  { replace (nodes_inline ∖ ∅) with nodes_inline by set_solver. simpl. lia. }
  { intros y Hy%list_elem_of_singleton. by left. }
  { intros y Hy. by apply not_elem_of_empty in Hy. }
  { intros y Hy. by apply not_elem_of_empty in Hy. }
  { intros y [->|Hy]; [left; by left|by apply not_elem_of_empty in Hy]. }
  assert (forall m, m ∈ masters <-> is_master m) as Hmaster.
  { intros m. rewrite Hiff. unfold is_master. tauto. }
  assert (post (master_in_order masters nodes_in_order node [])) as Hfall.
  { pose proof (master_in_order_spec masters node nodes_in_order []) as Hspec.
    simpl in Hspec. unfold post.
    destruct (master_in_order masters nodes_in_order node []) as [m|].
    - destruct Hspec as (between & Hbefore & Hm & Hbetween);
        [intros Hin; by apply elem_of_nil in Hin|].
      exists between. split; [done|]. right. split; [by apply Hmaster|].
      intros x Hx Hmx. apply (Hbetween x Hx). by apply Hmaster.
    - intros m between Hbefore Hm.
      apply (Hspec ltac:(intros Hin; by apply elem_of_nil in Hin) m between
               Hbefore).
      by apply Hmaster. }
  assert (is_reduction g node = true ->
          forall done', done' ⊆ done_before g nodes_in_order node ∅ ->
          (forall k x, walk vc k node x -> op_pattern_dict g x = kReduction ->
             x ∉ done') ->
          forall r, r ∈ iteration done' -> post (Some r)) as Hdone.
  { intros Hred done' Hsub Hreach r Hr%Henum.
    destruct (done_before_spec g node nodes_in_order ∅ r Hnode)
      as [Hin|(Hr_red & between & Hbefore)];
      [by apply Hsub|by apply not_elem_of_empty in Hin|].
    exists between. split; [done|]. left. split; [done|]. split; [done|].
    intros k Hw. by apply (Hreach k r Hw). }
  clearbody post.
  unfold GetMasterToComputeAt.
  destruct (is_reduction g node) eqn:Hred; simpl.
  2:{ rewrite Hmasters. simpl. split; [done|]. by intros found [= <-]. }
  destruct (erase_loop_spec fuel (done_before g nodes_in_order node ∅) ∅ [node])
    as (done' & -> & Hsub & Hreach).
  { replace (nodes_set ∖ ∅) with nodes_set by set_solver. simpl. lia. }
  { intros y [->|Hy]; [left; by left|by apply not_elem_of_empty in Hy]. }
  simpl. specialize (Hdone eq_refl done' Hsub Hreach).
  destruct (size done' =? 0)%nat eqn:Hsize; simpl.
  { rewrite Hmasters. simpl. split; [done|]. by intros found [= <-]. }
  pose proof (input_shape_at_terminates g node shape_dict) as Hsh.
  destruct (input_shape_at g node shape_dict) as [shape|e]; simpl;
    [|split; [congruence|done]].
  destruct (same_shape_reducer_spec shape_dict shape (iteration done'))
    as [Hterm Hsame].
  destruct (same_shape_reducer g shape_dict shape (iteration done'))
    as [[r|]|e]; simpl; [| |split; [congruence|done]].
  - split; [done|]. intros found [= <-]. apply Hdone. by apply Hsame.
  - destruct (iteration done') as [|first rest] eqn:Hiter; simpl.
    + split; [done|done].
    + split; [done|]. intros found [= <-]. apply Hdone. by left.
Qed.
End master_to_compute_at.

Lemma GetMasterToComputeAt_master_witness :
  let is_master m :=
    (m ∉ ({["b"]} : gset string)) /\
    through_inlined (fun n => FindConsumers reduce_graph n reduce_group
                                {["c" := "r"]})
      {["b"]} "a" m in
  GetMasterToComputeAt 7 elements reduce_graph "a" ["r"; "b"; "c"; "a"] {["b"]}
    reduce_group {["c" := "r"]} reduce_shapes <> Abort OutOfFuel /\
  forall found,
    GetMasterToComputeAt 7 elements reduce_graph "a" ["r"; "b"; "c"; "a"]
      {["b"]} reduce_group {["c" := "r"]} reduce_shapes = Done found ->
    match found with
    | Some m =>
        exists between,
          stands_before ["r"; "b"; "c"; "a"] m "a" between /\
          ((is_reduction reduce_graph "a" = true /\
            op_pattern_dict reduce_graph m = kReduction /\
            forall k,
              ~ walk (fun n => GetConsumersInSet reduce_graph n reduce_group)
                  k "a" m)
           \/
           (is_master m /\ forall x, x ∈ between -> ~ is_master x))
    | None =>
        forall m between,
          stands_before ["r"; "b"; "c"; "a"] m "a" between -> ~ is_master m
    end.
Proof.
  apply (GetMasterToComputeAt_master reduce_graph "a" {["b"]} reduce_group
           {["c" := "r"]} 7 elements ["r"; "b"; "c"; "a"] reduce_shapes).
  - intros s x. apply elem_of_elements.
  - set_solver.
  - vm_compute. lia.
Defined.

Example GetMasterToComputeAt_nearest_master :
  GetMasterToComputeAt 7 elements reduce_graph "a" ["r"; "b"; "c"; "a"] {["b"]}
    reduce_group {["c" := "r"]} reduce_shapes = Done (Some "c").
Proof. by vm_compute. Qed.

(** ** [CollectInputTensor] *)

Lemma filter_first_occurrences (P : string -> Prop) `{!forall x, Decision (P x)}
    (l : list string) :
  filter P (first_occurrences l) = first_occurrences (filter P l).
Proof.
  induction l as [|y l IH]; simpl; [done|].
  destruct (decide (P y)) as [Hy|Hy].
  - rewrite !filter_cons_True by done. simpl. f_equal.
    rewrite <- IH, !list_filter_filter. apply list_filter_iff. tauto.
  - rewrite !filter_cons_False by done. rewrite <- IH, list_filter_filter.
    apply list_filter_iff. intros x. split; [tauto|].
    intros Hx. split; [done|]. by intros ->.
Qed.

Section tensors.
Context `{TypeTests Ty}.

Lemma GetTensor_Done (node_data : string) (type_dict : gmap string Ty)
    (shape_dict : gmap string (list Z)) (tensor : InputTensor) :
  GetTensor node_data type_dict shape_dict = Done tensor <->
  placeholder_of type_dict shape_dict node_data tensor.
Proof.
  unfold GetTensor, placeholder_of. split.
  - destruct (type_dict !! node_data) as [dtype|]; simpl; [|done].
    destruct (GetTensor_elem dtype) as [T|] eqn:HT; [|done].
    destruct (shape_dict !! node_data) as [shape|]; simpl; [|done].
    intros [= <-]. by exists dtype, T, shape.
  - intros (dtype & T & shape & -> & HT & Hs & ->). simpl.
    by rewrite HT, Hs.
Qed.

Lemma CollectInputTensor_loop_spec (type_dict : gmap string Ty)
    (shape_dict : gmap string (list Z)) (inputs : list string) :
  forall func_args tensor_map tensors tensors' func_args' tensor_map',
  CollectInputTensor_loop inputs func_args tensor_map type_dict shape_dict tensors
    = Done (tensors', func_args', tensor_map') ->
  exists new_tensors new_args,
    tensors' = tensors ++ new_tensors /\
    Forall2 (placeholder_of type_dict shape_dict) inputs new_tensors /\
    tensor_map ⊆ tensor_map' /\
    dom tensor_map' = dom tensor_map ∪ list_to_set inputs /\
    (forall id t, id ∉ dom tensor_map -> tensor_map' !! id = Some t ->
       placeholder_of type_dict shape_dict id t) /\
    Forall2 (placeholder_of type_dict shape_dict)
      (first_occurrences (filter (fun id => id ∉ dom tensor_map) inputs))
      new_args /\
    func_args' = func_args ++ new_args.
Proof.
  induction inputs as [|node_data rest IH];
    intros func_args tensor_map tensors tensors' func_args' tensor_map' Hrun;
    simpl in Hrun.
  - inversion Hrun; subst. exists [], []. rewrite !app_nil_r.
    split; [done|]. split; [constructor|]. split; [done|].
    split; [set_solver|]. split; [|split; [constructor|done]].
    intros id t Hnot Hsome. exfalso. apply Hnot. apply elem_of_dom. eauto.
  - destruct (GetTensor node_data type_dict shape_dict) as [tensor|e] eqn:Hget;
      simpl in Hrun; [|done].
    apply GetTensor_Done in Hget.
    case_bool_decide as Hknown.
    + apply IH in Hrun
        as (nt & args & -> & Hnt & Hsub & Hdom & Hnew & Hargs & ->).
      apply elem_of_dom in Hknown.
      exists (tensor :: nt), args.
      split; [by rewrite <- app_assoc|]. split; [by constructor|].
      split; [done|]. split; [set_solver|]. split; [done|].
      split; [|done]. rewrite filter_cons_False; [done|]. tauto.
    + assert (node_data ∉ dom tensor_map) as Hnone.
      { intros Hin%elem_of_dom. done. }
      apply IH in Hrun
        as (nt & args & -> & Hnt & Hsub & Hdom & Hnew & Hargs & ->).
      assert (tensor_map' !! node_data = Some tensor) as Hstored.
      { eapply lookup_weaken; [|exact Hsub]. by rewrite lookup_insert_eq. }
      exists (tensor :: nt), (tensor :: args).
      split; [by rewrite <- app_assoc|]. split; [by constructor|].
      split.
      { etransitivity; [|exact Hsub]. apply insert_subseteq.
        by apply not_elem_of_dom. }
      split.
      { rewrite Hdom, dom_insert_L. set_solver. }
      split.
      { intros id t Hid Hsome. destruct (decide (id = node_data)) as [->|Hne].
        - rewrite Hstored in Hsome. by inversion Hsome; subst.
        - apply Hnew; [|done]. rewrite dom_insert_L. set_solver. }
      split; [|by rewrite <- app_assoc].
      rewrite filter_cons_True by done. simpl. constructor; [done|].
      rewrite filter_first_occurrences, list_filter_filter.
      erewrite list_filter_iff; [exact Hargs|].
      intros id. simpl. rewrite dom_insert_L. set_solver.
Qed.

(** X16.  [CollectInputTensor] returns one placeholder per input of the
    node, in order: the placeholder named after the input's id, with the
    element type the tests of [GetTensor] give for [type_dict.at(id)] and
    the shape [shape_dict.at(id)].  It only adds to [tensor_map]: no entry
    is changed, the keys afterwards are the old keys and the node's inputs,
    and a new key holds the placeholder of its input.  [func_args] grows by
    the placeholders of the inputs that were not yet in [tensor_map], each
    of them once, in the order in which these inputs first occur. *)
Theorem CollectInputTensor_records_new_inputs (g : Graph) (node : string)
    (func_args : list InputTensor) (tensor_map : gmap string InputTensor)
    (type_dict : gmap string Ty) (shape_dict : gmap string (list Z))
    (tensors func_args' : list InputTensor)
    (tensor_map' : gmap string InputTensor) :
  CollectInputTensor g node func_args tensor_map type_dict shape_dict
    = Done (tensors, func_args', tensor_map') ->
  Forall2 (placeholder_of type_dict shape_dict) (GetInputNodeData g node)
    tensors /\
  tensor_map ⊆ tensor_map' /\
  dom tensor_map' = dom tensor_map ∪ list_to_set (GetInputNodeData g node) /\
  (forall id t, id ∉ dom tensor_map -> tensor_map' !! id = Some t ->
     placeholder_of type_dict shape_dict id t) /\
  exists new_args,
    Forall2 (placeholder_of type_dict shape_dict)
      (first_occurrences
         (filter (fun id => id ∉ dom tensor_map) (GetInputNodeData g node)))
      new_args /\
    func_args' = func_args ++ new_args.
Proof.
  unfold CollectInputTensor. intros Hrun.
  apply CollectInputTensor_loop_spec in Hrun
    as (nt & args & Hts & Hnt & Hsub & Hdom & Hnew & Hargs & Hfa).
  simpl in Hts. subst tensors. repeat (split; [done|]). by exists args.
Qed.
End tensors.

Lemma CollectInputTensor_records_new_inputs_witness :
  let a := Placeholder T_float "d_a" [8] in
  let b := Placeholder T_int64 "d_b" [8] in
  let tensor_map : gmap string InputTensor := {["d_a" := a]} in
  let tensor_map' : gmap string InputTensor := {["d_a" := a; "d_b" := b]} in
  Forall2 (placeholder_of fan_types fan_shapes) (GetInputNodeData fan_graph "m")
    [a; b] /\
  tensor_map ⊆ tensor_map' /\
  dom tensor_map' = dom tensor_map ∪ list_to_set (GetInputNodeData fan_graph "m") /\
  (forall id t, id ∉ dom tensor_map -> tensor_map' !! id = Some t ->
     placeholder_of fan_types fan_shapes id t) /\
  exists new_args,
    Forall2 (placeholder_of fan_types fan_shapes)
      (first_occurrences
         (filter (fun id => id ∉ dom tensor_map)
            (GetInputNodeData fan_graph "m")))
      new_args /\
    [a; b] = [a] ++ new_args.
Proof.
  intros a b tensor_map tensor_map'.
  apply (CollectInputTensor_records_new_inputs fan_graph "m" [a] tensor_map
           fan_types fan_shapes [a; b] [a; b] tensor_map').
  by vm_compute.
Defined.

(** A node that reads the same new input twice: the placeholder is built
    for each read and recorded once. *)
Example CollectInputTensor_repeated_input :
  CollectInputTensor_loop ["d_b"; "d_a"; "d_b"] [] ∅ fan_types fan_shapes []
  = Done ([Placeholder T_int64 "d_b" [8]; Placeholder T_float "d_a" [8];
           Placeholder T_int64 "d_b" [8]],
          [Placeholder T_int64 "d_b" [8]; Placeholder T_float "d_a" [8]],
          {["d_b" := Placeholder T_int64 "d_b" [8];
            "d_a" := Placeholder T_float "d_a" [8]]}).
Proof. by vm_compute. Qed.

(** ** The planners read [axes] inside its bounds *)

Section avoiding.
Context `{ScheduleOracle} (bad : Error -> Prop).

Lemma avoids_sret {A} (a : A) : avoids bad (sret a).
Proof. intros s e. discriminate. Qed.

Lemma avoids_emit c : avoids bad (emit c).
Proof. intros s e. discriminate. Qed.

Lemma avoids_abort {A} e : ~ bad e -> avoids bad (@abort A e).
Proof. intros He s e' [= <-]. done. Qed.

Lemma avoids_get_loops name : avoids bad (get_loops name).
Proof. intros s e. discriminate. Qed.

Lemma avoids_bind {A B} (m : Sched A) (k : A -> Sched B) :
  avoids bad m -> (forall a, avoids bad (k a)) -> avoids bad (sbind m k).
Proof.
  intros Hm Hk s e. unfold sbind. specialize (Hm s).
  destruct (m s) as [s' [a|e']]; simpl in *; [apply Hk|].
  intros [= <-]. by apply Hm.
Qed.

Lemma avoids_bind_lift {A B} (o : Outcome A) (k : A -> Sched B) :
  (forall e, o = Abort e -> ~ bad e) ->
  (forall a, o = Done a -> avoids bad (k a)) ->
  avoids bad (sbind (lift o) k).
Proof.
  intros Ho Hk s e. unfold sbind, lift. destruct o as [a|e']; simpl.
  - by apply Hk.
  - intros [= <-]. by apply Ho.
Qed.

Lemma avoids_repeat_sched n (m : Sched unit) :
  avoids bad m -> avoids bad (repeat_sched n m).
Proof.
  intros Hm. induction n as [|n IH]; simpl; [apply avoids_sret|].
  apply avoids_bind; [done|]. intros _. apply IH.
Qed.
End avoiding.

Lemma checked_label {A} (o : option A) e :
  checked o = Abort e -> e = DivideByZero.
Proof. destruct o; simpl; congruence. Qed.

Ltac not_axes_read :=
  let Hbad := fresh in
  intros Hbad; destruct Hbad as [Hbad|[Hbad|Hbad]]; congruence.

Lemma axis_gap_in_range (axes : list Z) (index : nat) :
  (index < length axes)%nat ->
  exists gap, axis_gap axes (Z.of_nat index) = Done gap.
Proof.
  intros Hlt. unfold axis_gap.
  destruct (Z.of_nat index + 1 <? vsize axes) eqn:Hnext; [|eauto].
  destruct (at_is_Some axes (Z.of_nat index)) as [a ->]; [unfold vsize; lia|].
  destruct (at_is_Some axes (Z.of_nat index + 1)) as [a1 ->];
    [unfold vsize in *; cmp_lia|].
  simpl. destruct (a =? wrap (a1 - 1)); eauto.
Qed.

Lemma without_last_scan_index (inshape axes : list Z) (max_num_threads : Z) :
  forall (k : nat) (lane pos : Z),
  (k <= length axes)%nat -> lane <= Z.quot max_num_threads 2 ->
  (forall e, without_last_scan inshape axes max_num_threads k lane pos = Abort e ->
     ~ axes_read e) /\
  forall lane' pos' index,
    without_last_scan inshape axes max_num_threads k lane pos
      = Done (lane', pos', index) ->
    -1 <= index < Z.of_nat k /\
    (lane' > Z.quot max_num_threads 2 -> 0 <= index).
Proof.
  induction k as [|k IH]; intros lane pos Hk Hlane; simpl.
  - split; [done|]. intros lane' pos' index [= <- <- <-]. lia.
  - destruct (axis_gap_in_range axes k) as [gap ->]; [lia|]. simpl.
    destruct gap as [a1|].
    { split; [done|]. intros lane' pos' index [= <- <- <-]. lia. }
    destruct (at_is_Some axes (Z.of_nat k)) as [a ->]; [unfold vsize; lia|].
    simpl.
    destruct (at_ inshape a) as [d|]; simpl.
    2:{ split; [|done]. intros e [= <-]. not_axes_read. }
    destruct (wrap (lane * d) >? Z.quot max_num_threads 2) eqn:Hbig.
    { split; [done|]. intros lane' pos' index [= <- <- <-]. lia. }
    destruct (IH (wrap (lane * d)) (if Z.of_nat k =? 0 then a else pos))
      as [Herr Hres]; [lia|cmp_lia|].
    split; [done|]. intros lane' pos' index Hrun.
    destruct (Hres lane' pos' index Hrun). lia.
Qed.

Lemma with_last_scan_index (inshape axes : list Z) (max_num_threads : Z) :
  1 <= max_num_threads ->
  forall (k : nat) (lane : Z),
  (k <= length axes)%nat -> lane <= max_num_threads ->
  (forall e, with_last_scan inshape axes max_num_threads k lane = Abort e ->
     ~ axes_read e) /\
  forall lane' index,
    with_last_scan inshape axes max_num_threads k lane = Done (lane', index) ->
    -1 <= index < Z.of_nat k /\ (lane' > max_num_threads -> 0 <= index).
Proof.
  intros HT. induction k as [|k IH]; intros lane Hk Hlane; simpl.
  - split; [done|]. intros lane' index [= <- <-]. lia.
  - destruct (axis_gap_in_range axes k) as [gap ->]; [lia|]. simpl.
    destruct gap as [a1|].
    { split; [done|]. intros lane' index [= <- <-]. lia. }
    destruct (at_is_Some axes (Z.of_nat k)) as [a ->]; [unfold vsize; lia|].
    simpl.
    destruct (at_ inshape a) as [d|]; simpl.
    2:{ split; [|done]. intros e [= <-]. not_axes_read. }
    destruct ((Z.of_nat k =? 0) && (wrap (lane * d) <=? max_num_threads)).
    { split; [|done]. intros e [= <-]. unfold lane_fatal. not_axes_read. }
    destruct (wrap (lane * d) >=? Z.quot max_num_threads 2) eqn:Hbig.
    { split; [done|]. intros lane' index [= <- <-].
      destruct (wrap (lane * d) <=? max_num_threads) eqn:Hle; cmp_lia. }
    assert (Z.quot max_num_threads 2 <= max_num_threads)
      by (apply Z.quot_le_upper_bound; lia).
    destruct (IH (wrap (lane * d))) as [Herr Hres]; [lia|cmp_lia|].
    split; [done|]. intros lane' index Hrun.
    destruct (Hres lane' index Hrun). lia.
Qed.

Section planners.
Context `{ScheduleOracle}.

Lemma factor_loop_label strict n prefix : forall idx lo e,
  factor_loop strict n prefix idx lo = Abort e -> ~ axes_read e.
Proof.
  induction n as [|n IH]; intros idx lo e; simpl; [done|].
  destruct (int_rem prefix idx) as [r|]; simpl; [|intros [= <-]; not_axes_read].
  destruct (r =? 0); [done|].
  destruct (strict && _); [intros [= <-]; not_axes_read|apply IH].
Qed.

Lemma avoids_split_by_factor strict block_name inshape axis lane max_num_threads :
  avoids axes_read
    (split_by_factor strict block_name inshape axis lane max_num_threads).
Proof.
  unfold split_by_factor.
  apply avoids_bind_lift.
  { intros e ->%orequire_Abort. not_axes_read. }
  intros prefix _. apply avoids_bind_lift.
  { intros e ->%checked_label. not_axes_read. }
  intros tail _. apply avoids_bind_lift.
  { intros e ->%checked_label. not_axes_read. }
  intros hi _. apply avoids_bind_lift.
  { intros e ->%checked_label. not_axes_read. }
  intros lo _. apply avoids_bind_lift; [apply factor_loop_label|].
  intros [idx|] _; [apply avoids_emit|apply avoids_sret].
Qed.

Lemma order_split_loop_label n psize e :
  order_split_loop n psize = Abort e -> ~ axes_read e.
Proof.
  induction n as [|n IH]; simpl; [done|].
  destruct (_ =? 0); [done|]. destruct (_ >? 1); [done|].
  intros [= <-]. not_axes_read.
Qed.

Lemma avoids_LoopOrderAssignReduce block_name axes max_num_threads just_reorder :
  just_reorder = true \/ axes <> [] ->
  avoids axes_read
    (LoopOrderAssignReduce block_name axes max_num_threads just_reorder).
Proof.
  intros Hok. unfold LoopOrderAssignReduce.
  apply avoids_bind; [apply avoids_get_loops|]. intros loops0. cbv zeta.
  apply avoids_bind; [apply avoids_emit|]. intros _.
  destruct just_reorder; [apply avoids_sret|].
  destruct Hok as [|Hne]; [done|].
  apply avoids_bind_lift.
  { intros e He. exfalso. unfold back in He.
    destruct (last axes) eqn:Hlast; [done|].
    apply last_None in Hlast. done. }
  intros axes_back _.
  apply avoids_bind; [apply avoids_repeat_sched, avoids_emit|]. intros _.
  apply avoids_bind; [apply avoids_get_loops|]. intros loops.
  apply avoids_bind_lift.
  { intros e ->%orequire_Abort. not_axes_read. }
  intros loop _. apply avoids_bind.
  { destruct (_ >? _); [|apply avoids_sret].
    apply avoids_bind_lift; [apply order_split_loop_label|].
    intros [idx|] _; [apply avoids_emit|apply avoids_sret]. }
  intros _. apply avoids_repeat_sched, avoids_emit.
Qed.

Lemma avoids_fuse_unit_loops n block_name : forall start_index,
  avoids axes_read (fuse_unit_loops n block_name start_index).
Proof.
  induction n as [|n IH]; intros start_index; simpl; [apply avoids_sret|].
  apply avoids_bind; [apply avoids_get_loops|]. intros loops.
  apply avoids_bind_lift.
  { intros e ->%orequire_Abort. not_axes_read. }
  intros loop _. destruct (_ =? 1); [|apply IH].
  apply avoids_bind_lift.
  { intros e ->%orequire_Abort. not_axes_read. }
  intros prev _. apply avoids_bind; [apply avoids_emit|]. intros _. apply IH.
Qed.

Lemma avoids_LoopAssignReduceWithoutLast (block_name : string)
    (inshape axes : list Z) (max_num_threads : Z) :
  avoids axes_read
    (LoopAssignReduceWithoutLast block_name inshape axes max_num_threads).
Proof.
  unfold LoopAssignReduceWithoutLast.
  destruct (vsize axes =? 0) eqn:Hempty.
  { apply avoids_abort. not_axes_read. }
  assert (axes <> []) as Hne.
  { intros ->. unfold vsize in Hempty. simpl in Hempty. done. }
  apply avoids_bind_lift.
  { intros e He. exfalso. unfold back in He.
    destruct (last axes) eqn:Hlast; [done|].
    apply last_None in Hlast. done. }
  intros axes_back _. cbv zeta.
  destruct (mul_from inshape (wrap (axes_back + 1)) 1
            <=? Z.quot max_num_threads 2) eqn:Hlane; simpl.
  2:{ apply avoids_abort. not_axes_read. }
  destruct (without_last_scan_index inshape axes max_num_threads (length axes)
              (mul_from inshape (wrap (axes_back + 1)) 1) 0)
    as [Herr Hres]; [lia|cmp_lia|].
  apply avoids_bind_lift; [done|].
  intros [[lane pos] index] Hscan.
  destruct (Hres lane pos index Hscan) as [Hindex Hpos].
  apply avoids_bind.
  { destruct (lane >? Z.quot max_num_threads 2) eqn:Hbig; [|apply avoids_sret].
    apply avoids_bind_lift.
    { intros e He. exfalso.
      destruct (at_is_Some axes index) as [a Ha];
        [unfold vsize; cmp_lia|]. by rewrite Ha in He. }
    intros axis _. apply avoids_split_by_factor. }
  intros _. apply avoids_bind.
  { apply avoids_repeat_sched.
    apply avoids_bind; [apply avoids_get_loops|]. intros loops.
    apply avoids_bind_lift.
    { intros e ->%orequire_Abort. not_axes_read. }
    intros loop _. apply avoids_emit. }
  intros _. apply avoids_bind.
  { apply avoids_LoopOrderAssignReduce. by right. }
  intros _. apply avoids_bind; [apply avoids_get_loops|]. intros loops.
  apply avoids_fuse_unit_loops.
Qed.

Lemma with_last_split_loop_label lane half n : forall idx e,
  with_last_split_loop n lane idx half = Abort e -> ~ axes_read e.
Proof.
  induction n as [|n IH]; intros idx e; simpl;
    (destruct (int_rem lane idx) as [r|]; simpl;
       [|intros [= <-]; not_axes_read]);
    (destruct (r =? 0); [done|]); [done|].
  destruct (_ >=? _); [apply IH|done].
Qed.

Lemma avoids_LoopAssignReduceWithLast (block_name : string)
    (inshape axes : list Z) (max_num_threads : Z) :
  vsize axes <= int_max -> 1 <= max_num_threads ->
  avoids axes_read
    (LoopAssignReduceWithLast block_name inshape axes max_num_threads).
Proof.
  intros Hsize HT. unfold LoopAssignReduceWithLast.
  destruct (with_last_scan_index inshape axes max_num_threads HT (length axes) 1)
    as [Herr Hres]; [lia|lia|].
  apply avoids_bind_lift; [done|].
  intros [lane index] Hscan.
  destruct (Hres lane index Hscan) as [Hindex Hpos]. cbv zeta.
  destruct (lane >? max_num_threads) eqn:Hbig.
  - assert (0 <= index) as Hidx by (apply Hpos; cmp_lia).
    destruct (at_is_Some axes index) as [a Ha]; [unfold vsize; lia|].
    apply avoids_bind.
    { destruct (index =? vsize axes - 1).
      - apply avoids_bind_lift; [apply with_last_split_loop_label|].
        intros [idx|] _.
        + apply avoids_bind_lift; [by rewrite Ha|]. intros axis _.
          apply avoids_bind; [apply avoids_emit|]. intros _.
          destruct (_ >=? _); [apply avoids_sret|].
          apply avoids_abort. not_axes_read.
        + apply avoids_abort. not_axes_read.
      - apply avoids_bind_lift; [by rewrite Ha|]. intros axis _.
        apply avoids_split_by_factor. }
    intros _. apply avoids_LoopOrderAssignReduce. right.
    intros Hnil. apply (f_equal length) in Hnil.
    rewrite length_take in Hnil. simpl in Hnil. lia.
  - apply avoids_bind.
    { destruct (Z.to_nat (wrap (vsize axes - (index + 1) - 1))) as [|n] eqn:Hn;
        [apply avoids_sret|].
      apply avoids_repeat_sched. apply avoids_bind_lift.
      { intros e He. exfalso.
        rewrite wrap_id in Hn
          by (unfold is_int, int_min, int_max, vsize in *; lia).
        destruct (at_is_Some axes (index + 1)) as [a Ha];
          [unfold vsize in *; lia|]. by rewrite Ha in He. }
      intros a _. apply avoids_emit. }
    intros _. apply avoids_bind.
    { apply avoids_LoopOrderAssignReduce. by left. }
    intros _. apply avoids_repeat_sched, avoids_emit.
Qed.

(** X17.  Neither planner reads [axes] outside its bounds: no run of
    [LoopAssignReduceWithoutLast], and - for a thread limit of at least 1 -
    no run of [LoopAssignReduceWithLast], stops at an access [axes[index]],
    [axes[index + 1]] or [axes.back()] outside the vector, whatever the
    shape, the axes and the schedule are. *)
Theorem planners_read_axes_in_bounds (block_name : string)
    (inshape axes : list Z) (max_num_threads : Z) (s : list Cmd) :
  vsize axes <= int_max -> 1 <= max_num_threads ->
  ~ (exists e,
       (LoopAssignReduceWithoutLast block_name inshape axes max_num_threads s).2
         = Abort e /\ axes_read e) /\
  ~ (exists e,
       (LoopAssignReduceWithLast block_name inshape axes max_num_threads s).2
         = Abort e /\ axes_read e).
Proof.
  intros Hsize HT. split.
  - intros (e & Hrun & Hbad).
    by apply (avoids_LoopAssignReduceWithoutLast block_name inshape axes
                max_num_threads s e).
  - intros (e & Hrun & Hbad).
    by apply (avoids_LoopAssignReduceWithLast block_name inshape axes
                max_num_threads Hsize HT s e).
Qed.
End planners.

Lemma planners_read_axes_in_bounds_witness :
  ~ (exists e,
       (@LoopAssignReduceWithoutLast wide_oracle "B" [4; 2048] [0] 1024 []).2
         = Abort e /\ axes_read e) /\
  ~ (exists e,
       (@LoopAssignReduceWithLast wide_oracle "B" [4; 2048] [1] 1024 []).2
         = Abort e /\ axes_read e).
Proof.
  split.
  - apply (@planners_read_axes_in_bounds wide_oracle "B" [4; 2048] [0] 1024 []);
      [by vm_compute|lia].
  - apply (@planners_read_axes_in_bounds wide_oracle "B" [4; 2048] [1] 1024 []);
      [by vm_compute|lia].
Defined.

(** ** The split factors of [LoopAssignReduce] *)

Lemma LoopAssignReduce_factors_spec (last_extent : Z) (rloops : list Loop) :
  forall extend factors,
  1 <= extend -> Forall (fun loop => 1 <= loop_extent loop) rloops ->
  extend * product (loop_extent <$> rloops) <= int_max ->
  exists taken rest,
    rloops = taken ++ rest /\
    LoopAssignReduce_factors rloops last_extent extend factors
      = Done (factors ++ (loop_extent <$> taken)) /\
    (taken <> [] -> extend * product (loop_extent <$> taken) <= last_extent) /\
    match rest with
    | [] => True
    | loop :: _ =>
        last_extent < extend * product (loop_extent <$> taken) * loop_extent loop
    end.
Proof.
  induction rloops as [|loop rloops IH]; intros extend factors Hext Hpos Hfit.
  - exists [], []. simpl. rewrite app_nil_r. done.
  - apply Forall_cons in Hpos as [Hloop Hpos]. rewrite fmap_cons in Hfit.
    change (product (loop_extent loop :: (loop_extent <$> rloops)))
      with (loop_extent loop * product (loop_extent <$> rloops)) in Hfit.
    pose proof (product_pos (loop_extent <$> rloops)) as Hprod.
    assert (1 <= product (loop_extent <$> rloops)) as Hp.
    { apply Hprod. apply Forall_fmap. done. }
    assert (1 <= extend * loop_extent loop) as Hone by nia.
    assert (extend * loop_extent loop
            <= extend * (loop_extent loop * product (loop_extent <$> rloops)))
      as Hmono.
    { apply Z.mul_le_mono_nonneg_l; [lia|]. nia. }
    assert (wrap (extend * loop_extent loop) = extend * loop_extent loop) as Hw.
    { apply wrap_id. unfold is_int, int_min, int_max in *. lia. }
    cbn [LoopAssignReduce_factors]. cbv zeta. rewrite Hw.
    destruct (extend * loop_extent loop >? last_extent) eqn:Hbig.
    + exists [], (loop :: rloops). simpl. rewrite app_nil_r.
      split; [done|]. split; [done|]. split; [done|]. cmp_lia.
    + assert ((extend * loop_extent loop <=? last_extent) = true) as ->
        by (apply Z.leb_le; cmp_lia).
      simpl.
      destruct (IH (extend * loop_extent loop) (factors ++ [loop_extent loop]))
        as (taken & rest & -> & Hrun & Hle & Hnext);
        [done|done|by rewrite <- Z.mul_assoc|].
      exists (loop :: taken), rest. split; [done|].
      split; [by rewrite Hrun, <- app_assoc|]. rewrite fmap_cons.
      change (product (loop_extent loop :: (loop_extent <$> taken)))
        with (loop_extent loop * product (loop_extent <$> taken)).
      rewrite Z.mul_assoc. split.
      * intros _. destruct taken as [|t taken].
        -- change (product (loop_extent <$> [])) with 1. cmp_lia.
        -- by apply Hle.
      * by destruct rest as [|next rest].
Qed.

Lemma LoopAssignReduce_factors_returns (last_extent : Z) (rloops : list Loop) :
  forall extend factors,
  exists taken,
    LoopAssignReduce_factors rloops last_extent extend factors = Done taken.
Proof.
  induction rloops as [|loop rloops IH]; intros extend factors; simpl; [eauto|].
  destruct (wrap (extend * loop_extent loop) >? last_extent) eqn:Hbig; [eauto|].
  assert ((wrap (extend * loop_extent loop) <=? last_extent) = true) as ->
    by (apply Z.leb_le; cmp_lia).
  simpl. apply IH.
Qed.

(** X18.  The loop of [LoopAssignReduce] that collects the factors by which
    the node's last loop is split never fails its [CHECK_LE]; for positive
    extents whose product fits an [int], the factors are the extents of the
    longest run of leading loops of the reducer whose product does not
    exceed the extent of the loop to split. *)
Theorem LoopAssignReduce_factors_fit (rloops : list Loop) (last_extent : Z) :
  (exists factors,
     LoopAssignReduce_factors rloops last_extent 1 [] = Done factors) /\
  (Forall (fun loop => 1 <= loop_extent loop) rloops ->
   product (loop_extent <$> rloops) <= int_max ->
   exists taken rest,
     rloops = taken ++ rest /\
     LoopAssignReduce_factors rloops last_extent 1 []
       = Done (loop_extent <$> taken) /\
     (taken <> [] -> product (loop_extent <$> taken) <= last_extent) /\
     match rest with
     | [] => True
     | loop :: _ =>
         last_extent < product (loop_extent <$> taken) * loop_extent loop
     end).
Proof.
  split; [apply LoopAssignReduce_factors_returns|].
  intros Hpos Hfit.
  destruct (LoopAssignReduce_factors_spec last_extent rloops 1 [])
    as (taken & rest & Hsplit & Hrun & Hle & Hnext); [lia|done|lia|].
  exists taken, rest. split; [done|]. split; [done|]. split.
  - intros Hne. specialize (Hle Hne). lia.
  - destruct rest as [|loop rest]; [done|]. lia.
Qed.

Lemma LoopAssignReduce_factors_fit_witness :
  exists taken rest,
    [mk_loop 1 4; mk_loop 2 8; mk_loop 3 16] = taken ++ rest /\
    LoopAssignReduce_factors [mk_loop 1 4; mk_loop 2 8; mk_loop 3 16] 32 1 []
      = Done (loop_extent <$> taken) /\
    (taken <> [] -> product (loop_extent <$> taken) <= 32) /\
    match rest with
    | [] => True
    | loop :: _ => 32 < product (loop_extent <$> taken) * loop_extent loop
    end.
Proof.
  apply (proj2 (LoopAssignReduce_factors_fit
                  [mk_loop 1 4; mk_loop 2 8; mk_loop 3 16] 32)).
  - repeat constructor; by vm_compute.
  - by vm_compute.
Defined.

Example LoopAssignReduce_factors_example :
  LoopAssignReduce_factors [mk_loop 1 4; mk_loop 2 8; mk_loop 3 16] 32 1 []
  = Done [4; 8].
Proof. by vm_compute. Qed.

(** ** Reductions over all axes *)

Lemma WithoutLastDimInReduce_all_axes (shape : list Z) :
  WithoutLastDimInReduce shape (seqZ 0 (vsize shape)) = false.
Proof.
  unfold WithoutLastDimInReduce. case_bool_decide as Hnil; [done|].
  assert (existsb (fun a => size_t_of a =? size_t_of (vsize shape - 1))
            (seqZ 0 (vsize shape)) = true) as ->; [|done].
  apply existsb_exists. exists (vsize shape - 1). split; [|apply Z.eqb_refl].
  apply list_elem_of_In, elem_of_seqZ.
  destruct shape as [|d shape]; [done|]. unfold vsize. simpl length. lia.
Qed.

(** X19.  A reducer whose ["dim"] attribute is empty reduces all axes, the
    last one included: for such a node [InsertSyncThread] inserts no barrier
    and leaves the schedule as it is, whatever [tensor_map] holds. *)
Theorem InsertSyncThread_all_axes `{ScheduleOracle} (g : Graph) (node : string)
    (shape_dict : gmap string (list Z)) (tensor_map : gmap string Tensor)
    (shape : list Z) (s : list Cmd) :
  attr_dim g node = [] ->
  input_shape_checked g node shape_dict = Done shape ->
  WithoutLastDimInReduce shape (reduce_axes g node shape) = false /\
  InsertSyncThread g node shape_dict tensor_map s = (s, Done tt).
Proof.
  intros Hdim Hshape.
  assert (WithoutLastDimInReduce shape (reduce_axes g node shape) = false) as Hw.
  { unfold reduce_axes. rewrite Hdim. apply WithoutLastDimInReduce_all_axes. }
  split; [done|].
  unfold InsertSyncThread, sbind, lift. rewrite Hshape. by rewrite Hw.
Qed.

Lemma InsertSyncThread_all_axes_witness :
  WithoutLastDimInReduce [8] (reduce_axes chain_graph "b" [8]) = false /\
  @InsertSyncThread staged_oracle chain_graph "b" chain_shapes staged_tensors []
    = ([], Done tt).
Proof.
  apply (@InsertSyncThread_all_axes staged_oracle chain_graph "b" chain_shapes
           staged_tensors [8] []).
  - reflexivity.
  - reflexivity.
Defined.

(** ** The calls [SyncThreadWithShared] makes *)

Section shared.
Context `{ScheduleOracle}.
Context (fuel : nat) (g : Graph) (nodes_inline nodes_set : gset string)
  (shape_dict : gmap string (list Z)) (exprs_inorder : list string).

Lemma sync_body_calls idx sync_mark s :
  exists new,
    (sync_body fuel g nodes_inline nodes_set shape_dict exprs_inorder idx
       sync_mark s).1 = s ++ new /\
    shared_step fuel g nodes_inline nodes_set shape_dict exprs_inorder s new.
Proof.
  unfold sync_body, SyncThreadsAtBack, get_loops, sbind, lift, sret, emit.
  destruct (at_ exprs_inorder idx) as [name|] eqn:Hname; simpl;
    [|exists []; rewrite app_nil_r; split; [done|by left]].
  assert (name ∈ exprs_inorder) as Hin.
  { unfold at_ in Hname. destruct (idx <? 0); [done|].
    by eapply list_elem_of_lookup_2. }
  case_bool_decide as Hset; simpl;
    [|exists []; rewrite app_nil_r; split; [done|by left]].
  destruct (shape_dict !! name) as [node_shape|] eqn:Hshape; simpl;
    [|exists []; rewrite app_nil_r; split; [done|by left]].
  destruct (source_node g name) as [node|] eqn:Hnode; simpl;
    [|exists []; rewrite app_nil_r; split; [done|by left]].
  destruct (GetMaster fuel g node nodes_inline nodes_set) as [[master|]|e]
    eqn:Hmaster;
    [|exists []; rewrite app_nil_r; split; [done|by left]
     |exists []; rewrite app_nil_r; split; [done|by left]].
  destruct (shape_dict !! GetNodeData g master) as [output_shape|] eqn:Hout;
    simpl; [|exists []; rewrite app_nil_r; split; [done|by left]].
  destruct (if is_reduction g master then _ else _) as [master_shape|e]
    eqn:Hms; [|exists []; rewrite app_nil_r; split; [done|by left]].
  destruct (accumulate_mul node_shape =? accumulate_mul master_shape) eqn:Heq;
    [exists []; rewrite app_nil_r; split; [done|by left]|].
  apply Z.eqb_neq in Heq.
  assert ((if is_reduction g master then input_shape_at g master shape_dict
           else orequire "shape_dict.at" (shape_dict !! GetNodeData g master))
          = Done master_shape) as Hms'.
  { rewrite Hout. exact Hms. }
  destruct (check_sync_mark exprs_inorder sync_mark idx (GetNodeData g master))
    as [[|]|e].
  - unfold back.
    destruct (last (GetLoops (s ++ [CSetBuffer name "shared" true])
                      (GetNodeData g master))) as [loop|] eqn:Hloop; simpl.
    + exists [CSetBuffer name "shared" true;
              CSyncThreads (GetNodeData g master) loop false].
      split; [by rewrite <- app_assoc|]. right.
      exists name, node, master, node_shape, master_shape.
      repeat (split; [done|]). right. by exists loop.
    + exists [CSetBuffer name "shared" true]. split; [done|]. right.
      exists name, node, master, node_shape, master_shape.
      repeat (split; [done|]). by left.
  - exists [CSetBuffer name "shared" true]. split; [done|]. right.
    exists name, node, master, node_shape, master_shape.
    repeat (split; [done|]). by left.
  - exists [CSetBuffer name "shared" true]. split; [done|]. right.
    exists name, node, master, node_shape, master_shape.
    repeat (split; [done|]). by left.
Qed.

Lemma sync_loop_calls idxs : forall sync_mark s,
  exists steps,
    (sync_loop fuel g nodes_inline nodes_set shape_dict exprs_inorder idxs
       sync_mark s).1 = s ++ concat steps /\
    forall k new, steps !! k = Some new ->
      shared_step fuel g nodes_inline nodes_set shape_dict exprs_inorder
        (s ++ concat (take k steps)) new.
Proof.
  induction idxs as [|idx rest IH]; intros sync_mark s.
  - exists []. simpl. rewrite app_nil_r. split; [done|]. by intros k new.
  - simpl. unfold sbind.
    destruct (sync_body_calls idx sync_mark s) as (new1 & Hs1 & Hcalls).
    destruct (sync_body fuel g nodes_inline nodes_set shape_dict exprs_inorder
                idx sync_mark s) as [s1 [mark1|e]]; simpl in *; subst s1.
    + destruct (IH mark1 (s ++ new1)) as (steps & Hs2 & Hall).
      exists (new1 :: steps). rewrite Hs2. simpl.
      split; [by rewrite <- app_assoc|].
      intros [|k] new Hk; simpl in *.
      * inversion Hk; subst. by rewrite app_nil_r.
      * rewrite app_assoc. by apply Hall.
    + exists [new1]. simpl. rewrite app_nil_r. split; [done|].
      intros [|k] new Hk; simpl in *; [|done].
      inversion Hk; subst. by rewrite app_nil_r.
Qed.
End shared.

(** X20.  The calls one run of [SyncThreadWithShared] adds to the schedule
    come in steps, one per iteration of its main loop, and each step is
    empty or has a fixed form.  It starts with
    [SetBuffer(block, "shared", true)], for a block of the schedule that
    belongs to a node of the group whose element count differs from that of
    the master [GetMaster] finds for it.  At most one [SyncThreads] follows,
    and it is placed after the last of the loops [GetLoops] returns at that
    moment for this master's data node.  Nothing else is added: no barrier
    without a buffer moved to shared memory just before. *)
Theorem SyncThreadWithShared_calls `{ScheduleOracle}
    (fuel : nat) (g : Graph) (nodes_inline nodes_set : gset string)
    (shape_dict : gmap string (list Z)) (tensor_map : gmap string Tensor)
    (s : list Cmd) :
  exists steps,
    (SyncThreadWithShared fuel g nodes_inline nodes_set shape_dict tensor_map s).1
      = s ++ concat steps /\
    forall k new, steps !! k = Some new ->
      let before := s ++ concat (take k steps) in
      new = [] \/
      exists name node master node_shape master_shape,
        name ∈ GetAllBlocks s /\ name ∈ GetNodeDataSet g nodes_set /\
        source_node g name = Some node /\
        GetMaster fuel g node nodes_inline nodes_set = Done (Some master) /\
        shape_dict !! name = Some node_shape /\
        (if is_reduction g master then input_shape_at g master shape_dict
         else orequire "shape_dict.at" (shape_dict !! GetNodeData g master))
          = Done master_shape /\
        accumulate_mul node_shape <> accumulate_mul master_shape /\
        (new = [CSetBuffer name "shared" true] \/
         exists loop,
           last (GetLoops (before ++ [CSetBuffer name "shared" true])
                   (GetNodeData g master)) = Some loop /\
           new = [CSetBuffer name "shared" true;
                  CSyncThreads (GetNodeData g master) loop false]).
Proof.
  unfold SyncThreadWithShared, sbind.
  set (exprs := GetAllBlocks s). set (idxs := seqZ 0 _).
  destruct (sync_loop_calls fuel g nodes_inline nodes_set shape_dict exprs idxs ∅ s)
    as (steps & Hs & Hall).
  exists steps. split.
  - by destruct (sync_loop _ _ _ _ _ _ _ _ _) as [s' [mark|e]].
  - intros k new Hk. exact (Hall k new Hk).
Qed.

(** In the fan group the loops of the master ["d_m"] vary with the history;
    the barrier follows the last loop listed once ["d_a"] is shared. *)
Example SyncThreadWithShared_barrier_after_last_loop :
  let oracle := {|
    GetLoops := fun s name =>
      if bool_decide (name = "d_m")
      then [mk_loop 1 4; mk_loop (Pos.of_succ_nat (length s)) 2]
      else [];
    HasBlock := fun _ _ => true;
    GetAllBlocks := fun _ => ["d_a"; "d_b"; "d_m"] |} in
  @SyncThreadWithShared oracle 3 fan_graph ∅ fan_group fan_shapes ∅ []
  = ([CSetBuffer "d_a" "shared" true;
      CSyncThreads "d_m" (mk_loop 2 2) false;
      CSetBuffer "d_b" "shared" true], Done tt).
Proof. by vm_compute. Qed.

(** ** [TopologicalOrder] and [GetMasterToComputeAt] together *)

Lemma positions_stand_before (order : list string) (m node : string) (i j : nat) :
  NoDup order -> (i < j)%nat ->
  order !! i = Some m -> order !! j = Some node ->
  exists between, stands_before order m node between.
Proof.
  intros Hnd Hij Hi Hj.
  pose proof (take_drop_middle order j node Hj) as Hsplit.
  assert (take j order !! i = Some m) as Hi' by (by rewrite lookup_take_lt).
  pose proof (take_drop_middle (take j order) i m Hi') as Hsplit'.
  exists (drop (S i) (take j order)), (take i (take j order)), (drop (S j) order).
  split.
  - rewrite <- Hsplit at 1. rewrite <- Hsplit' at 1.
    by rewrite <- app_assoc.
  - rewrite Hsplit'. rewrite <- Hsplit in Hnd.
    apply NoDup_app in Hnd as (_ & Hdisj & _).
    intros Hin. apply (Hdisj node Hin). by left.
Qed.

Section ordered_masters.
Context (g : Graph) (group nodes_inline : gset string)
  (virtual_consumers : gmap string string) (nodes_in_order : list string).
Let vf := fun n => FindConsumers g n group virtual_consumers.

Hypothesis virtual_inside : forall t c,
  virtual_consumers !! t = Some c -> c ∈ group.
Hypothesis order_nodup : NoDup nodes_in_order.
Hypothesis order_covers : forall x, x ∈ nodes_in_order <-> x ∈ group.
Hypothesis order_consumers_first : forall p c,
  p ∈ group -> c ∈ group -> edge g virtual_consumers p c ->
  exists i j, nodes_in_order !! i = Some c /\ nodes_in_order !! j = Some p /\
              (i < j)%nat.

Lemma FindConsumers_edge n c :
  c ∈ vf n -> edge g virtual_consumers n c /\ c ∈ group.
Proof.
  unfold vf, FindConsumers. intros [Hc|Hc]%elem_of_app.
  - split; [left|by apply (GetConsumersInSet_in g n)].
    unfold GetConsumersInSet in Hc. apply list_elem_of_In, filter_In in Hc.
    apply list_elem_of_In. tauto.
  - destruct (virtual_consumers !! n) as [c'|] eqn:Hv;
      [|by apply elem_of_nil in Hc].
    apply list_elem_of_singleton in Hc. subst c'.
    split; [by right|by eapply virtual_inside].
Qed.

Lemma position_unique x i j :
  nodes_in_order !! i = Some x -> nodes_in_order !! j = Some x -> i = j.
Proof. intros Hi Hj. by eapply NoDup_lookup. Qed.

Lemma master_before_node node m :
  node ∈ group -> through_inlined vf nodes_inline node m ->
  m ∈ group /\
  exists i j, (i < j)%nat /\ nodes_in_order !! i = Some m /\
              nodes_in_order !! j = Some node.
Proof.
  intros Hnode. induction 1 as [c Hc|y c _ [Hy (i & j & Hij & Hi & Hj)] _ Hc].
  - apply FindConsumers_edge in Hc as [Hedge Hin]. split; [done|].
    destruct (order_consumers_first node c Hnode Hin Hedge)
      as (i & j & Hi & Hj & Hij).
    exists i, j. done.
  - apply FindConsumers_edge in Hc as [Hedge Hin]. split; [done|].
    destruct (order_consumers_first y c Hy Hin Hedge)
      as (i' & j' & Hi' & Hj' & Hij').
    assert (j' = i) as -> by (by eapply position_unique).
    exists i', j. split; [lia|done].
Qed.
End ordered_masters.

(** X21.  On an acyclic group whose virtual consumers lie inside the group,
    with the order that [TopologicalOrder] returns, [GetMasterToComputeAt]
    finds a master for a node that is not a Reduction whenever there is one:
    it returns nothing exactly when every node reached from [node] through
    real and virtual consumers, by way of inlined nodes only, is itself
    inlined. *)
Theorem GetMasterToComputeAt_finds_master (fuel : nat)
    (iteration : gset string -> list string) (g : Graph) (node : string)
    (group nodes_inline : gset string) (virtual_consumers : gmap string string)
    (shape_dict : gmap string (list Z)) (rank : string -> nat) :
  ranked g virtual_consumers rank group ->
  (forall t c, virtual_consumers !! t = Some c -> c ∈ group) ->
  node ∈ group -> is_reduction g node = false ->
  (size nodes_inline + 1 < fuel)%nat ->
  exists nodes_in_order found,
    TopologicalOrder (size group) g group virtual_consumers
      = Some nodes_in_order /\
    GetMasterToComputeAt fuel iteration g node nodes_in_order nodes_inline
      group virtual_consumers shape_dict = Done found /\
    (found = None <->
     forall m,
       through_inlined (fun n => FindConsumers g n group virtual_consumers)
         nodes_inline node m -> m ∈ nodes_inline).
Proof.
  intros Hrank Hinside Hnode Hnred Hfuel.
  destruct (topo_loop_terminates g virtual_consumers rank (size group) group []
              Hrank) as [order Horder]; [lia|].
  destruct (TopologicalOrder_sound (size group) g group virtual_consumers order
              Horder) as (Hnd & Hcover & Hfirst).
  destruct (masters_loop_spec g node nodes_inline group virtual_consumers fuel
              ∅ ∅ [node]) as (masters & Hmasters & Hiff).
  { replace (nodes_inline ∖ ∅) with nodes_inline by set_solver. simpl. lia. }
  { intros y Hy%list_elem_of_singleton. by left. }
  { intros y Hy. by apply not_elem_of_empty in Hy. }
  { intros y Hy. by apply not_elem_of_empty in Hy. }
  { intros y [->|Hy]; [left; by left|by apply not_elem_of_empty in Hy]. }
  exists order, (master_in_order masters order node []).
  split; [done|]. split.
  { unfold GetMasterToComputeAt. rewrite Hnred. simpl. by rewrite Hmasters. }
  pose proof (master_in_order_spec masters node order []) as Hspec.
  simpl in Hspec.
  destruct (master_in_order masters order node []) as [m|].
  - destruct Hspec as (between & _ & Hm & _);
      [intros Hin; by apply elem_of_nil in Hin|].
    apply Hiff in Hm as [Hreach Hnot].
    split; [done|]. intros Hall. exfalso. by apply Hnot, Hall.
  - split; [|done]. intros _ m Hreach.
    destruct (decide (m ∈ nodes_inline)) as [|Hnot]; [done|]. exfalso.
    destruct (master_before_node g group nodes_inline virtual_consumers order
                Hinside Hnd Hfirst node m Hnode Hreach)
      as (_ & i & j & Hij & Hi & Hj).
    destruct (positions_stand_before order m node i j Hnd Hij Hi Hj)
      as [between Hbefore].
    apply (Hspec ltac:(intros Hin; by apply elem_of_nil in Hin) m between
             Hbefore).
    by apply Hiff.
Qed.

Lemma reduce_graph_ranked_v :
  ranked reduce_graph {["c" := "r"]} reduce_rank_v reduce_group.
Proof.
  intros p c Hp Hc [Hreal|Hvirt]; unfold reduce_group in Hp.
  - split_group Hp; vm_compute in Hreal; split_list Hreal; cbv; lia.
  - split_group Hp; vm_compute in Hvirt; try discriminate.
    inversion Hvirt; subst c. cbv. lia.
Qed.

Lemma GetMasterToComputeAt_finds_master_witness :
  exists nodes_in_order found,
    TopologicalOrder (size reduce_group) reduce_graph reduce_group
      {["c" := "r"]} = Some nodes_in_order /\
    GetMasterToComputeAt 3 elements reduce_graph "a" nodes_in_order {["b"]}
      reduce_group {["c" := "r"]} reduce_shapes = Done found /\
    (found = None <->
     forall m,
       through_inlined
         (fun n => FindConsumers reduce_graph n reduce_group {["c" := "r"]})
         {["b"]} "a" m -> m ∈ ({["b"]} : gset string)).
Proof.
  apply (GetMasterToComputeAt_finds_master 3 elements reduce_graph "a"
           reduce_group {["b"]} {["c" := "r"]} reduce_shapes reduce_rank_v).
  - exact reduce_graph_ranked_v.
  - intros t c [<- <-]%lookup_singleton_Some. unfold reduce_group. set_solver.
  - unfold reduce_group. set_solver.
  - reflexivity.
  - rewrite size_singleton. lia.
Defined.

(** ** The scan of [check_sync_mark] stays inside the block list *)

Lemma check_sync_mark_scan_finds rest sync_mark m_id :
  m_id ∈ rest ->
  exists found, check_sync_mark_scan rest sync_mark m_id = Done found.
Proof.
  induction rest as [|name rest IH]; intros Hin; simpl.
  - by apply elem_of_nil in Hin.
  - case_bool_decide as Hmark; [by exists false|].
    case_bool_decide as Hname; [by exists true|].
    apply IH. by apply elem_of_cons in Hin as [->|Hin].
Qed.

Lemma check_sync_mark_finds exprs sync_mark idx (j : nat) m_id :
  0 <= idx -> (Z.to_nat idx < j)%nat -> exprs !! j = Some m_id ->
  exists found, check_sync_mark exprs sync_mark idx m_id = Done found.
Proof.
  intros Hidx Hj Hm. unfold check_sync_mark.
  destruct (vsize exprs =? 0); [by exists false|].
  apply check_sync_mark_scan_finds.
  apply list_elem_of_lookup. exists (j - Z.to_nat (idx + 1))%nat.
  rewrite lookup_drop. rewrite <- Hm. f_equal. lia.
Qed.

Section master_sound.
Context (g : Graph) (node : string) (nodes_inline nodes_set : gset string).
Let visit := fun n => GetConsumersInSet g n nodes_set.

Lemma GetMaster_loop_sound fuel : forall visited q m,
  (forall y, y ∈ q ->
     y = node \/ (through_inlined visit nodes_inline node y /\ y ∈ nodes_inline)) ->
  GetMaster_loop fuel g nodes_inline nodes_set visited q = Done (Some m) ->
  (m ∉ nodes_inline) /\ through_inlined visit nodes_inline node m.
Proof.
  induction fuel as [|fuel IH]; intros visited q m Hq Hrun; simpl in Hrun;
    [done|].
  destruct q as [|x rest]; [done|].
  assert (forall c, c ∈ visit x -> through_inlined visit nodes_inline node c)
    as Hstep.
  { intros c Hc. destruct (Hq x ltac:(by left)) as [->|[Hx Hinl]].
    - by apply through_direct.
    - by eapply through_step. }
  fold (visit x) in Hrun.
  destruct (GetMaster_visit (visit x) nodes_inline visited rest)
    as [m'|[visited' q']] eqn:Hv.
  - inversion Hrun; subst m'.
    apply GetMaster_visit_inl in Hv as [Hm Hnot]. split; [done|by apply Hstep].
  - apply GetMaster_visit_inr in Hv as (pushed & -> & -> & _ & Hpushed & _).
    eapply IH; [|exact Hrun].
    intros y [Hy|Hy]%elem_of_app; [apply Hq; by right|].
    right. destruct (Hpushed y Hy) as (Hc & Hinl & _).
    split; [by apply Hstep|done].
Qed.

Lemma GetMaster_sound fuel m :
  GetMaster fuel g node nodes_inline nodes_set = Done (Some m) ->
  (m ∉ nodes_inline) /\ through_inlined visit nodes_inline node m.
Proof.
  unfold GetMaster. apply GetMaster_loop_sound.
  intros y Hy%list_elem_of_singleton. by left.
Qed.

Lemma GetMaster_loop_Abort fuel : forall visited q e,
  GetMaster_loop fuel g nodes_inline nodes_set visited q = Abort e ->
  e = OutOfFuel.
Proof.
  induction fuel as [|fuel IH]; intros visited q e Hrun; simpl in Hrun.
  - by inversion Hrun.
  - destruct q as [|x rest]; [done|].
    destruct (GetMaster_visit _ _ _ _) as [m'|[visited' q']]; [done|].
    by eapply IH.
Qed.
End master_sound.

Section scan.
Context `{ScheduleOracle}.
Context (fuel : nat) (g : Graph) (nodes_inline nodes_set : gset string)
  (shape_dict : gmap string (list Z)) (exprs_inorder : list string).
Hypothesis Horder :
  blocks_in_execution_order g nodes_inline nodes_set exprs_inorder.

Lemma master_block_follows idx name node master :
  at_ exprs_inorder idx = Some name -> source_node g name = Some node ->
  GetMaster fuel g node nodes_inline nodes_set = Done (Some master) ->
  exists j : nat,
    0 <= idx /\ (Z.to_nat idx < j)%nat /\
    exprs_inorder !! j = Some (GetNodeData g master).
Proof.
  intros Hname Hnode Hmaster. unfold at_ in Hname.
  destruct (idx <? 0) eqn:Hneg; [done|].
  apply GetMaster_sound in Hmaster as [Hnot Hreach].
  destruct (Horder _ _ _ _ Hname Hnode Hnot Hreach) as (j & Hj & Hm).
  exists j. split; [cmp_lia|done].
Qed.

Lemma avoids_sync_body idx sync_mark :
  0 <= idx < vsize exprs_inorder ->
  avoids blocks_read
    (sync_body fuel g nodes_inline nodes_set shape_dict exprs_inorder idx
       sync_mark).
Proof.
  intros Hidx. unfold sync_body, blocks_read.
  destruct (at_is_Some exprs_inorder idx Hidx) as [name Hname].
  rewrite Hname. simpl.
  apply avoids_bind_lift; [done|]. intros name' [= <-].
  destruct (negb _); [apply avoids_sret|].
  apply avoids_bind_lift.
  { intros e He%orequire_Abort. by subst. }
  intros node_shape _.
  destruct (source_node g name) as [node|] eqn:Hnode; simpl;
    [|apply avoids_bind_lift; [by intros e [= <-]|done]].
  apply avoids_bind_lift; [done|]. intros node' [= <-].
  apply avoids_bind_lift.
  { intros e He%GetMaster_loop_Abort. by subst. }
  intros [master|] Hmaster; [|apply avoids_sret].
  apply avoids_bind_lift.
  { intros e He%orequire_Abort. by subst. }
  intros output_shape _.
  apply avoids_bind_lift.
  { intros e He. destruct (is_reduction g master); [|done].
    unfold input_shape_at, obind in He.
    destruct (orequire _ (inlinks_in_order g master !! 0%nat)) as [src|e'] eqn:Hs.
    - apply orequire_Abort in He. by subst.
    - inversion He; subst. apply orequire_Abort in Hs. by subst. }
  intros master_shape _.
  destruct (accumulate_mul node_shape =? accumulate_mul master_shape);
    [apply avoids_sret|].
  apply avoids_bind; [apply avoids_emit|]. intros _.
  destruct (master_block_follows idx name node master Hname Hnode Hmaster)
    as (j & Hpos & Hj & Hm).
  destruct (check_sync_mark_finds exprs_inorder sync_mark idx j
              (GetNodeData g master) Hpos Hj Hm) as [found Hfound].
  rewrite Hfound.
  apply avoids_bind_lift; [done|]. intros needed _.
  destruct needed; [|apply avoids_sret].
  apply avoids_bind; [|intros _; apply avoids_sret].
  unfold SyncThreadsAtBack.
  apply avoids_bind; [apply avoids_get_loops|]. intros loops.
  apply avoids_bind_lift; [|intros loop _; apply avoids_emit].
  intros e He%orequire_Abort. by subst.
Qed.

Lemma avoids_sync_loop idxs : forall sync_mark,
  Forall (fun idx => 0 <= idx < vsize exprs_inorder) idxs ->
  avoids blocks_read
    (sync_loop fuel g nodes_inline nodes_set shape_dict exprs_inorder idxs
       sync_mark).
Proof.
  induction idxs as [|idx rest IH]; intros sync_mark Hall; simpl.
  - apply avoids_sret.
  - inversion Hall; subst.
    apply avoids_bind; [by apply avoids_sync_body|]. intros mark. by apply IH.
Qed.
End scan.


Lemma fan_blocks_in_execution_order :
  blocks_in_execution_order fan_graph ∅ fan_group ["d_a"; "d_b"; "d_m"].
Proof.
  intros i name node m Hi Hsrc _ Hreach.
  assert (m ∈ GetConsumersInSet fan_graph node fan_group) as Hm.
  { inversion Hreach as [c Hc|y c _ Hy _]; subst; [done|].
    by apply not_elem_of_empty in Hy. }
  destruct i as [|[|[|i]]]; simpl in Hi; inversion Hi; subst name;
    vm_compute in Hsrc; inversion Hsrc; subst node; vm_compute in Hm.
  - exists 2%nat. apply list_elem_of_singleton in Hm as ->. split; [lia|done].
  - exists 2%nat. apply list_elem_of_singleton in Hm as ->. split; [lia|done].
  - by apply elem_of_nil in Hm.
Qed.

